(** * eva-memory: a shallow embedding of [scripts/memory.py]

    The three-layer memory orchestrator (markdown log, graph store, vector
    store with an offline queue) is embedded as Rocq functions:

    - the entity extractor and the classifier are pure functions on text;
    - everything that touches a file, the graph, the vector store or the
      embedding service runs in a state-and-exception monad over a [World];
      the answers of the outside services come from an [Env] of oracles that
      are indexed by the number of external interactions made so far, so the
      same request may be answered differently at different moments.

    Text is ASCII: a Python [str] is a [string] whose characters are code
    points below 128.  Floats ([confidence], distances, scores) are exact
    rationals.  The local state file and the queue file are always readable
    and writable (an [OSError] there aborts the whole command in the source). *)

From Stdlib Require Import QArith Ascii.
From stdpp Require Import base tactics list strings pretty gmap.

(** ** Python string primitives *)

Definition in_range (lo hi c : ascii) : bool :=
  Ascii.leb lo c && Ascii.leb c hi.

Definition is_upper (c : ascii) : bool := in_range "A" "Z" c.
Definition is_az (c : ascii) : bool := in_range "a" "z" c.
Definition is_digit (c : ascii) : bool := in_range "0" "9" c.

(** [\w] *)
Definition is_word (c : ascii) : bool :=
  is_upper c || is_az c || is_digit c || Ascii.eqb c "_".

(** [\s], and the characters removed by [str.strip()] and [str.split()]:
    code points 9..13, 28..31 and the blank. *)
Definition py_isspace (c : ascii) : bool :=
  let n := nat_of_ascii c in
  (Nat.leb 9 n && Nat.leb n 13) || (Nat.leb 28 n && Nat.leb n 32).

Definition dquote : ascii := "034".

Definition lower_char (c : ascii) : ascii :=
  if is_upper c then ascii_of_nat (nat_of_ascii c + 32) else c.

Fixpoint smap (f : ascii → ascii) (s : string) : string :=
  match s with
  | EmptyString => EmptyString
  | String c s' => String (f c) (smap f s')
  end.

(** [s.lower()] *)
Definition lower (s : string) : string := smap lower_char s.

Fixpoint all_chars (p : ascii → bool) (s : string) : bool :=
  match s with
  | EmptyString => true
  | String c s' => p c && all_chars p s'
  end.

Fixpoint lstrip (s : string) : string :=
  match s with
  | EmptyString => EmptyString
  | String c s' => if py_isspace c then lstrip s' else s
  end.

Fixpoint rstrip (s : string) : string :=
  match s with
  | EmptyString => EmptyString
  | String c s' =>
      let r := rstrip s' in
      if py_isspace c && String.eqb r "" then "" else String c r
  end.

(** [s.strip()] *)
Definition strip (s : string) : string := rstrip (lstrip s).

(** [s.split()]: the maximal runs of non-blank characters. *)
Fixpoint split_go (cur s : string) : list string :=
  match s with
  | EmptyString => if String.eqb cur "" then [] else [cur]
  | String c s' =>
      if py_isspace c
      then (if String.eqb cur "" then split_go "" s' else cur :: split_go "" s')
      else split_go (cur +:+ String c "") s'
  end.

Definition split_ws (s : string) : list string := split_go "" s.

(** [sep in s] for a one-character [sep] *)
Fixpoint has_char (sep : ascii) (s : string) : bool :=
  match s with
  | EmptyString => false
  | String c s' => Ascii.eqb c sep || has_char sep s'
  end.

(** [s.rsplit(sep, 1)[0]]: what precedes the last [sep] (all of [s] when
    there is none). *)
Fixpoint rsplit_head (sep : ascii) (s : string) : string :=
  match s with
  | EmptyString => EmptyString
  | String c s' =>
      if Ascii.eqb c sep && negb (has_char sep s') then ""
      else String c (rsplit_head sep s')
  end.

(** [s[:n]] *)
Fixpoint str_take (n : nat) (s : string) : string :=
  match n, s with
  | S n', String c s' => String c (str_take n' s')
  | _, _ => EmptyString
  end.

(** [needle in hay] *)
Fixpoint str_in (needle hay : string) : bool :=
  String.prefix needle hay ||
  match hay with
  | EmptyString => false
  | String _ hay' => str_in needle hay'
  end.

(** [x in l] for a list or a set of strings *)
Definition mem (x : string) (l : list string) : bool :=
  existsb (String.eqb x) l.

(** The longest prefix whose characters satisfy [p], and what follows it. *)
Fixpoint span (p : ascii → bool) (s : string) : string * string :=
  match s with
  | EmptyString => ("", "")
  | String c s' =>
      if p c then let '(a, b) := span p s' in (String c a, b) else ("", s)
  end.

(** ** The regular expressions of the extractor

    [re.findall] scans from the left; at each position the pattern is tried,
    a match is recorded and the scan resumes right after it.  A matcher gets
    the character before the position (for [\b]) and the text from the
    position on, and answers the captured group and the length of the whole
    match.  No pattern of the source matches the empty string. *)

Definition matcher : Type := option ascii → string → option (string * nat).

Fixpoint findall_go (m : matcher) (prev : option ascii) (skip : nat)
    (s : string) : list string :=
  match s with
  | EmptyString => []
  | String c s' =>
      match skip with
      | S k => findall_go m (Some c) k s'
      | O =>
          match m prev s with
          | Some (cap, n) => cap :: findall_go m (Some c) (n - 1) s'
          | None => findall_go m (Some c) 0 s'
          end
      end
  end.

Definition findall (m : matcher) (s : string) : list string :=
  findall_go m None 0 s.

(** [\b] with a word character on the right: nothing or a non-word
    character on the left. *)
Definition boundary_before (prev : option ascii) : bool :=
  match prev with
  | None => true
  | Some c => negb (is_word c)
  end.

(** [\b] with a word character on the left. *)
Definition boundary_after (rest : string) : bool :=
  match rest with
  | EmptyString => true
  | String c _ => negb (is_word c)
  end.

(** [#(\w+)] *)
Definition re_hashtag : matcher := λ _ s,
  match s with
  | String "#" r =>
      let '(w, _) := span is_word r in
      if String.eqb w "" then None else Some (w, S (String.length w))
  | _ => None
  end.

(** The quoted-phrase pattern: a double quote, 2 to 30 characters other than
    a double quote (captured), a double quote. *)
Definition re_quoted : matcher := λ _ s,
  match s with
  | String c r =>
      if Ascii.eqb c dquote then
        let '(q, rest) := span (λ x, negb (Ascii.eqb x dquote)) r in
        match rest with
        | String _ _ =>
            if Nat.leb 2 (String.length q) && Nat.leb (String.length q) 30
            then Some (q, String.length q + 2) else None
        | EmptyString => None
        end
      else None
  | EmptyString => None
  end.

(** [[A-Z][a-z]+] *)
Definition cap_word (s : string) : option (string * string) :=
  match s with
  | String c s' =>
      if is_upper c then
        let '(w, r) := span is_az s' in
        if Nat.leb 1 (String.length w) then Some (String c w, r) else None
      else None
  | EmptyString => None
  end.

(** [\s+[A-Z][a-z]+] *)
Definition cap_group (s : string) : option (string * string) :=
  let '(ws, r) := span py_isspace s in
  if Nat.leb 1 (String.length ws) then
    match cap_word r with
    | Some (w, r') => Some (ws +:+ w, r')
    | None => None
    end
  else None.

(** [\b([A-Z][a-z]+(?:\s+[A-Z][a-z]+){0,2})\b]: the repetition is greedy
    and gives a group back when the closing [\b] fails; after a group that
    was given back comes a blank, where [\b] holds. *)
Definition re_caps : matcher := λ prev s,
  if boundary_before prev then
    match cap_word s with
    | None => None
    | Some (w1, r1) =>
        let found (x : string) := Some (x, String.length x) in
        match cap_group r1 with
        | Some (g1, r2) =>
            match cap_group r2 with
            | Some (g2, r3) =>
                if boundary_after r3 then found (w1 +:+ g1 +:+ g2)
                else found (w1 +:+ g1)
            | None =>
                if boundary_after r2 then found (w1 +:+ g1) else found w1
            end
        | None => if boundary_after r1 then found w1 else None
        end
    end
  else None.

(** [\b([a-z]{3,})\b] *)
Definition re_word : matcher := λ prev s,
  if boundary_before prev then
    let '(w, rest) := span is_az s in
    if Nat.leb 3 (String.length w) && boundary_after rest
    then Some (w, String.length w) else None
  else None.

(** [\b([a-z]{3,}\s+[a-z]{3,})\b] *)
Definition re_bigram : matcher := λ prev s,
  if boundary_before prev then
    let '(w1, r1) := span is_az s in
    let '(ws, r2) := span py_isspace r1 in
    let '(w2, r3) := span is_az r2 in
    if Nat.leb 3 (String.length w1) && Nat.leb 1 (String.length ws)
       && Nat.leb 3 (String.length w2) && boundary_after r3
    then let b := w1 +:+ ws +:+ w2 in Some (b, String.length b)
    else None
  else None.

(** ** JSON values *)

#[warnings="-register-all"]
Inductive jval : Type :=
| JNull
| JBool (b : bool)
| JInt (z : Z)
| JStr (s : string)
| JArr (items : list jval)
| JObj (fields : list (string * jval)).

(** A Python [dict] with string keys, in insertion order. *)
Definition jdict : Type := list (string * jval).

(** [d.get(k)] *)
Fixpoint dict_get (d : jdict) (k : string) : option jval :=
  match d with
  | [] => None
  | (k', v) :: d' => if String.eqb k' k then Some v else dict_get d' k
  end.

(** The argument of [extract_entities] and [classify_memory]: a mapping or
    anything else, the latter through its [str()]. *)
Inductive content : Type :=
| Plain (text : string)
| Structured (d : jdict).

(** ** Entity extraction *)

Definition STOP_WORDS : list string :=
  [ "the"; "a"; "an"; "is"; "are"; "was"; "were"; "be"; "been"; "being";
    "have"; "has"; "had"; "do"; "does"; "did"; "will"; "would"; "could";
    "should"; "may"; "might"; "must"; "shall"; "can"; "need"; "dare";
    "ought"; "used"; "to"; "of"; "in"; "for"; "on"; "with"; "at"; "by";
    "from"; "as"; "into"; "through"; "during"; "before"; "after"; "above";
    "below"; "between"; "under"; "again"; "further"; "then"; "once"; "here";
    "there"; "when"; "where"; "why"; "how"; "all"; "each"; "few"; "more";
    "most"; "other"; "some"; "such"; "no"; "nor"; "not"; "only"; "own";
    "same"; "so"; "than"; "too"; "very"; "just"; "also"; "now"; "and";
    "but"; "if"; "or"; "because"; "until"; "while"; "this"; "that"; "these";
    "those"; "it"; "its"; "i"; "me"; "my"; "we"; "our"; "you"; "your";
    "he"; "him"; "his"; "she"; "her"; "they"; "them"; "their"; "what";
    "which"; "who"; "whom"; "get"; "got"; "about"; "like"; "want"; "know";
    "think"; "make"; "take"; "see"; "come"; "go"; "use"; "using"; "used" ].

Definition is_stop (w : string) : bool := mem w STOP_WORDS.

Definition topic_fields : list string :=
  [ "topic"; "about"; "subject"; "name"; "title"; "category";
    "area"; "domain"; "field"; "concept"; "item"; "what";
    "learning"; "studying"; "project"; "goal"; "target" ].

Definition list_fields : list string :=
  [ "topics"; "tags"; "categories"; "items"; "subjects"; "areas" ].

(** The first loop over [topic_fields]. *)
Definition priority_of_topic (d : jdict) (k : string) : list string :=
  match dict_get d k with
  | Some (JStr v) =>
      let val := strip (lower v) in
      val :: (if has_char "." val then [rsplit_head "." val] else [])
  | _ => []
  end.

(** The second loop, over [list_fields]. *)
Definition priority_of_list (d : jdict) (k : string) : list string :=
  match dict_get d k with
  | Some (JArr items) =>
      flat_map (λ item, match item with
                        | JStr s => [strip (lower s)]
                        | _ => []
                        end) items
  | _ => []
  end.

Definition priority_entities (c : content) : list string :=
  match c with
  | Plain _ => []
  | Structured d =>
      flat_map (priority_of_topic d) topic_fields
      ++ flat_map (priority_of_list d) list_fields
  end.

(** The sort key [(len(x.split()), len(x))], compared as a tuple. *)
Definition entity_key (x : string) : nat * nat :=
  (List.length (split_ws x), String.length x).

Definition key_leb (a b : nat * nat) : bool :=
  Nat.ltb a.1 b.1 || (Nat.eqb a.1 b.1 && Nat.leb a.2 b.2).

Fixpoint insert_by_key (x : string) (l : list string) : list string :=
  match l with
  | [] => [x]
  | y :: l' =>
      if key_leb (entity_key x) (entity_key y) then x :: l
      else y :: insert_by_key x l'
  end.

(** [sorted(l, key=...)]: stable. *)
Definition sorted_by_key (l : list string) : list string :=
  foldr insert_by_key [] l.

(** One round of either merging loop: [seen] and [result]. *)
Definition merge_step (keep : string → bool)
    (st : list string * list string) (e : string) : list string * list string :=
  if keep e && negb (mem e st.1) then (e :: st.1, st.2 ++ [e]) else st.

Definition keep_priority (e : string) : bool :=
  negb (String.eqb e "") && Nat.leb 3 (String.length e).

Section Extractor.

(** [json.dumps] of a mapping. *)
Variable json_dumps : jdict → string.

(** The order in which the interpreter iterates over the set built by
    inserting the given elements one after the other. *)
Variable set_iter : list string → list string.

(** [str(content)] for plain content, [json.dumps(content)] for a mapping. *)
Definition raw_text (c : content) : string :=
  match c with
  | Plain s => s
  | Structured d => json_dumps d
  end.

(** Everything the source adds to [generic_entities], in insertion order. *)
Definition generic_candidates (c : content) : list string :=
  let text := lower (raw_text c) in
  let hashtags := findall re_hashtag text in
  let quoted := findall re_quoted text in
  let caps := findall re_caps (raw_text c) in
  let words := findall re_word text in
  let bigrams := findall re_bigram text in
  map lower hashtags
  ++ map (λ q, strip (lower q))
       (List.filter (λ q, Nat.leb (List.length (split_ws q)) 4) quoted)
  ++ map lower (List.filter (λ x, negb (is_stop (lower x))) caps)
  ++ List.filter (λ w, negb (is_stop w) && Nat.leb 3 (String.length w)
                       && Nat.leb (String.length w) 20) words
  ++ List.filter (λ bg, forallb (λ p, negb (is_stop p)) (split_ws bg)) bigrams.

Definition keep_generic (e : string) : bool :=
  Nat.leb 3 (String.length e) && negb (is_stop e).

Definition sorted_generic (c : content) : list string :=
  sorted_by_key
    (set_iter (List.filter keep_generic (set_iter (generic_candidates c)))).

Definition extract_entities (c : content) : list string :=
  let st1 := fold_left (merge_step keep_priority) (priority_entities c) ([], []) in
  let st2 := fold_left (merge_step (λ _, true)) (sorted_generic c) st1 in
  take 15 st2.2.

(** ** Classification *)

Definition classifiers : list (string * list string) :=
  [ ("instruction", ["always"; "never"; "rule"; "instruction"; "standing order";
                     "must always"; "must never"; "guideline"; "policy"]);
    ("decision", ["decided"; "decision"; "chose"; "choice"; "picked"; "selected";
                  "going with"; "will use"; "opted"]);
    ("preference", ["prefer"; "preference"; "favorite"; "like best"; "rather";
                    "better to"; "style"]);
    ("learning", ["learned"; "learning"; "studied"; "studying"; "understood";
                  "realized"; "discovered"; "insight"]);
    ("task", ["todo"; "task"; "need to"; "should"; "must"; "will do"; "plan to";
              "going to"; "next step"]);
    ("question", ["question"; "wondering"; "curious"; "ask about"; "find out";
                  "research"; "investigate"]);
    ("note", ["note"; "noticed"; "observed"; "important"; "remember that";
              "keep in mind"]);
    ("progress", ["completed"; "finished"; "done"; "progress"; "achieved";
                  "accomplished"; "milestone"]) ].

Fixpoint first_label (text : string) (table : list (string * list string)) : string :=
  match table with
  | [] => "info"
  | (label, keywords) :: table' =>
      if existsb (λ w, str_in w text) keywords then label
      else first_label text table'
  end.

Definition classify_memory (c : content) : string :=
  match c with
  | Structured d =>
      match dict_get d "type" with
      | Some (JStr t) => str_take 20 t
      | _ => first_label (lower (json_dumps d)) classifiers
      end
  | Plain s => first_label (lower s) classifiers
  end.

End Extractor.

(** ** Fulltext query sanitization

    The [re.sub] of [check_duplicates] and [cmd_summarize]: its character
    class lists + - & | ! ( ) { } [ ] ^ ~ * ? : / and the double quote and the
    backslash, and its replacement is a backslash followed by the character
    matched. *)

Definition lucene_special (c : ascii) : bool :=
  has_char c "+-&|!(){}[]^~*?:\/" || Ascii.eqb c dquote.

Fixpoint lucene_escape (s : string) : string :=
  match s with
  | EmptyString => EmptyString
  | String c s' =>
      if lucene_special c then String "\" (String c (lucene_escape s'))
      else String c (lucene_escape s')
  end.

(** ** The data model *)

(** A memory as [cmd_remember] builds it and as the WAL keeps it. *)
Record Memory : Type := {
  m_id : string;
  m_content : string;
  m_summary : string;
  m_type : string;
  m_importance : Z;
  m_confidence : Q;
  m_decayDays : option Z;
  m_supersedes : option string;
  m_project : option string;
  m_tags : list string;
  m_entities : list string;
  m_created : string;
  m_updated : string;
  m_sessionId : option string;
  m_source : string;
  m_sourceChannel : option string;
  m_sourceMessageId : option string
}.

(** The state record of [load_state] and [save_state]. *)
Record Wal : Type := { pending : list Memory; lastFlush : option string }.

Record Session : Type := {
  session_id : option string;
  startedAt : option string;
  session_project : option string;
  branch : option string
}.

Record Queue : Type := {
  pendingCount : Z;
  consecutiveFailures : Z;
  lastDrainAttempt : option string;
  lastSuccess : option string
}.

Record Stats : Type := {
  totalMemories : Z;
  totalRecalls : Z;
  totalSearches : Z;
  lastMemoryAt : option string
}.

Record State : Type := { wal : Wal; session : Session; queue : Queue; stats : Stats }.

Definition default_state : State :=
  {| wal := {| pending := []; lastFlush := None |};
     session := {| session_id := None; startedAt := None;
                   session_project := None; branch := None |};
     queue := {| pendingCount := 0; consecutiveFailures := 0;
                 lastDrainAttempt := None; lastSuccess := None |};
     stats := {| totalMemories := 0; totalRecalls := 0; totalSearches := 0;
                 lastMemoryAt := None |} |}.

(** A [Memory] node of the graph: every property may be absent. *)
Record Node : Type := {
  n_content : option string;
  n_summary : option string;
  n_type : option string;
  n_importance : option Z;
  n_project : option string;
  n_created : option string;
  n_updated : option string;
  n_sessionId : option string;
  n_source : option string;
  n_confidence : option Q;
  n_decayDays : option Z;
  n_sourceChannel : option string;
  n_sourceMessageId : option string;
  n_forgotten : option bool;
  n_forgottenAt : option string;
  n_deleteReason : option string
}.

Definition empty_node : Node :=
  {| n_content := None; n_summary := None; n_type := None; n_importance := None;
     n_project := None; n_created := None; n_updated := None; n_sessionId := None;
     n_source := None; n_confidence := None; n_decayDays := None;
     n_sourceChannel := None; n_sourceMessageId := None;
     n_forgotten := None; n_forgottenAt := None; n_deleteReason := None |}.

Inductive rel : Type := MENTIONS | TAGGED | BELONGS_TO | RECORDED_IN | SUPERSEDES.

(** The graph: the [Memory] nodes by id, and the relationships leaving them
    (source memory, kind, name or id of the target). *)
Record Graph : Type := {
  memories : gmap string Node;
  edges : list (string * rel * string)
}.

(** A row of a read query. *)
Record Row : Type := {
  row_id : string;
  row_content : option string;
  row_summary : option string;
  row_type : option string;
  row_importance : option Z;
  row_score : Q
}.

(** What the program does to the outside, in order. *)
Inductive event : Type :=
| EvClock
| EvUuid
| EvConnect
| EvFileAppend (path : string)
| EvCypherWrite
| EvCypherRead
| EvFulltext (index query : string)
| EvHealth
| EvEmbed (input : jval)
| EvChromaAdd (id : jval)
| EvChromaQuery.

Record World : Type := {
  state_file : option State;          (* STATE_PATH; None: absent or unreadable *)
  queue_file : option string;         (* QUEUE_PATH; None: absent *)
  markdown : list (string * Memory);  (* blocks appended: file and memory rendered *)
  graph : Graph;
  chroma : list (jval * jval);        (* documents of the collection: id, text *)
  driver : bool;                      (* the _driver singleton is set *)
  trace : list event
}.

(** The configuration and the outside services.  An answer depends on the
    number of events that precede the request. *)
Record Env : Type := {
  CHROMA_URL : string;
  OLLAMA_URL : string;
  CHROMA_COLLECTION : string;
  NEO4J_PASS : string;
  json_dumps : jdict → string;
  json_loads : string → option jval;       (* None: JSONDecodeError *)
  set_iter : list string → list string;
  isoformat_at : nat → string;             (* datetime.now(utc).isoformat() *)
  strftime_at : nat → string → string;     (* datetime.now(utc).strftime(fmt) *)
  uuid4_at : nat → string;
  connect_at : nat → bool;                 (* driver built and verified *)
  append_ok_at : nat → bool;               (* a markdown file was appended to *)
  cypher_ok_at : nat → bool;               (* a write query went through *)
  unexpired_at : nat → string → Z → bool;  (* datetime(created) + days > datetime() *)
  rows_at : nat → option (list Row);       (* a read query; None: it raised *)
  fulltext_at : nat → string → string → option (list Row);
  heartbeat_at : nat → bool;
  embed_at : nat → jval → option (list Q); (* None: no embedding came back *)
  chroma_add_at : nat → jval → bool;
  chroma_query_at : nat → option (list string * option (list Q))
}.

Definition with_state_file (f : option State) (w : World) : World :=
  {| state_file := f; queue_file := queue_file w; markdown := markdown w;
     graph := graph w; chroma := chroma w; driver := driver w; trace := trace w |}.

Definition with_queue_file (f : option string) (w : World) : World :=
  {| state_file := state_file w; queue_file := f; markdown := markdown w;
     graph := graph w; chroma := chroma w; driver := driver w; trace := trace w |}.

Definition with_markdown (l : list (string * Memory)) (w : World) : World :=
  {| state_file := state_file w; queue_file := queue_file w; markdown := l;
     graph := graph w; chroma := chroma w; driver := driver w; trace := trace w |}.

Definition with_graph (g : Graph) (w : World) : World :=
  {| state_file := state_file w; queue_file := queue_file w; markdown := markdown w;
     graph := g; chroma := chroma w; driver := driver w; trace := trace w |}.

Definition with_chroma (c : list (jval * jval)) (w : World) : World :=
  {| state_file := state_file w; queue_file := queue_file w; markdown := markdown w;
     graph := graph w; chroma := c; driver := driver w; trace := trace w |}.

Definition with_driver (d : bool) (w : World) : World :=
  {| state_file := state_file w; queue_file := queue_file w; markdown := markdown w;
     graph := graph w; chroma := chroma w; driver := d; trace := trace w |}.

Definition with_trace (t : list event) (w : World) : World :=
  {| state_file := state_file w; queue_file := queue_file w; markdown := markdown w;
     graph := graph w; chroma := chroma w; driver := driver w; trace := t |}.

(** ** The monad: state and exceptions *)

Inductive exn : Type := TypeError | ZeroDivisionError | Neo4jError | IndexError.

Inductive res (A : Type) : Type :=
| Ok (a : A)
| Raise (e : exn).
Arguments Ok {A} a.
Arguments Raise {A} e.

Definition M (A : Type) : Type := World → res A * World.

#[global] Instance M_ret : MRet M := λ A a w, (Ok a, w).

#[global] Instance M_bind : MBind M := λ A B f c w,
  match c w with
  | (Ok a, w') => f a w'
  | (Raise e, w') => (Raise e, w')
  end.

#[global] Instance M_fmap : FMap M := λ A B f c, a ← c; mret (f a).

Definition raise {A : Type} (e : exn) : M A := λ w, (Raise e, w).

(** [try: c except ...: h], for the exceptions selected by [caught]. *)
Definition try_except {A : Type} (c : M A) (caught : exn → bool) (h : M A) : M A :=
  λ w, match c w with
       | (Ok a, w') => (Ok a, w')
       | (Raise e, w') => if caught e then h w' else (Raise e, w')
       end.

Definition any_exception (e : exn) : bool := true.

Definition get_world : M World := λ w, (Ok w, w).
Definition modify (f : World → World) : M unit := λ w, (Ok tt, f w).

(** Records an interaction and answers its index. *)
Definition tick (e : event) : M nat :=
  λ w, (Ok (length (trace w)), with_trace (trace w ++ [e]) w).

(** [for x in l: body(x)] *)
Fixpoint for_each {A : Type} (l : list A) (body : A → M unit) : M unit :=
  match l with
  | [] => mret tt
  | x :: l' => body x ;; for_each l' body
  end.

(** The truth value of an optional string: present and not empty. *)
Definition truthy (o : option string) : option string :=
  match o with
  | Some s => if String.eqb s "" then None else Some s
  | None => None
  end.

#[global] Instance rel_eq_dec : EqDecision rel.
Proof. solve_decision. Defined.

(** ** Graph updates of the write queries *)

(** [MERGE (m:Memory {id: $id}) SET m.content = ..., ...]: the thirteen
    properties are overwritten (a null removes the property), the others stay. *)
Definition merge_memory (m : Memory) (g : Graph) : Graph :=
  let old := default empty_node (memories g !! m_id m) in
  let new :=
    {| n_content := Some (m_content m); n_summary := Some (m_summary m);
       n_type := Some (m_type m); n_importance := Some (m_importance m);
       n_project := m_project m; n_created := Some (m_created m);
       n_updated := Some (m_updated m); n_sessionId := m_sessionId m;
       n_source := Some (m_source m); n_confidence := Some (m_confidence m);
       n_decayDays := m_decayDays m; n_sourceChannel := m_sourceChannel m;
       n_sourceMessageId := m_sourceMessageId m;
       n_forgotten := n_forgotten old; n_forgottenAt := n_forgottenAt old;
       n_deleteReason := n_deleteReason old |} in
  {| memories := <[m_id m := new]> (memories g); edges := edges g |}.

(** [MERGE (a)-[:KIND]->(b)] *)
Definition add_edge (e : string * rel * string) (l : list (string * rel * string))
    : list (string * rel * string) :=
  if decide (e ∈ l) then l else l ++ [e].

(** [MERGE (x {name: $name}) WITH x MATCH (m:Memory {id: $memId}) MERGE (m)-[:KIND]->(x)] *)
Definition link (memId : string) (kind : rel) (target : string) (g : Graph) : Graph :=
  match memories g !! memId with
  | Some _ => {| memories := memories g; edges := add_edge (memId, kind, target) (edges g) |}
  | None => g
  end.

(** [SET old.forgotten = true, old.deleteReason = 'superseded by ' + $newId] *)
Definition superseded_node (newId : string) (n : Node) : Node :=
  {| n_content := n_content n; n_summary := n_summary n; n_type := n_type n;
     n_importance := n_importance n; n_project := n_project n;
     n_created := n_created n; n_updated := n_updated n;
     n_sessionId := n_sessionId n; n_source := n_source n;
     n_confidence := n_confidence n; n_decayDays := n_decayDays n;
     n_sourceChannel := n_sourceChannel n;
     n_sourceMessageId := n_sourceMessageId n;
     n_forgotten := Some true; n_forgottenAt := n_forgottenAt n;
     n_deleteReason := Some ("superseded by " +:+ newId) |}.

(** [MATCH (m:Memory {id: $newId}), (old:Memory {id: $oldId})
     MERGE (m)-[:SUPERSEDES]->(old) SET old.forgotten = true, ...] *)
Definition mark_superseded (newId oldId : string) (g : Graph) : Graph :=
  match memories g !! newId, memories g !! oldId with
  | Some _, Some old =>
      {| memories := <[oldId := superseded_node newId old]> (memories g);
         edges := add_edge (newId, SUPERSEDES, oldId) (edges g) |}
  | _, _ => g
  end.

(** [SET m.forgotten = true, m.forgottenAt = $now, m.deleteReason = $reason
     REMOVE m.content, m.summary] *)
Definition forgotten_node (now : string) (reason : option string) (n : Node) : Node :=
  {| n_content := None; n_summary := None; n_type := n_type n;
     n_importance := n_importance n; n_project := n_project n;
     n_created := n_created n; n_updated := n_updated n;
     n_sessionId := n_sessionId n; n_source := n_source n;
     n_confidence := n_confidence n; n_decayDays := n_decayDays n;
     n_sourceChannel := n_sourceChannel n;
     n_sourceMessageId := n_sourceMessageId n;
     n_forgotten := Some true; n_forgottenAt := Some now;
     n_deleteReason := reason |}.

(** [neo4j_forget]: as above, without touching [deleteReason]. *)
Definition forgotten_node_keep_reason (now : string) (n : Node) : Node :=
  forgotten_node now (n_deleteReason n) n.

Definition alter_memory (f : Node → Node) (id : string) (g : Graph) : Graph :=
  {| memories := alter f id (memories g); edges := edges g |}.

(** [m.importance < $minImp] and [m.created < $cutoff]: a comparison with an
    absent property is null and rejects the node; strings compare
    lexicographically. *)
Definition importance_below (minImp : Z) (n : Node) : bool :=
  match n_importance n with
  | Some i => Z.ltb i minImp
  | None => false
  end.

Definition created_before (cutoff : string) (n : Node) : bool :=
  match n_created n with
  | Some c => String.ltb c cutoff
  | None => false
  end.

Definition with_wal (x : Wal) (s : State) : State :=
  {| wal := x; session := session s; queue := queue s; stats := stats s |}.

Definition with_queue (x : Queue) (s : State) : State :=
  {| wal := wal s; session := session s; queue := x; stats := stats s |}.

Definition with_stats (x : Stats) (s : State) : State :=
  {| wal := wal s; session := session s; queue := queue s; stats := x |}.

(** The results of the commands. *)
Inductive Dup : Type :=
| Allow
| Skip (existingId : string) (similarity : Q)
| Replace (existingId : string) (similarity : Q).

Record Layers : Type := {
  l_markdown : bool; l_neo4j : bool; l_chromadb : bool; l_queued : bool
}.

Record Outcome : Type := {
  o_id : string;
  o_type : string;
  o_importance : Z;
  o_confidence : Q;
  o_decayDays : option Z;
  o_supersedes : option string;
  o_entities : list string;
  o_layers : Layers
}.

Inductive RememberResult : Type :=
| RememberError (msg : string)
| Skipped (existingId : string) (similarity : Q)
| Stored (out : Outcome).

Record RememberArgs : Type := {
  a_content : string;
  a_type : option string;
  a_importance : option Z;
  a_project : option string;
  a_tags : option (list string);
  a_summary : option string;
  a_entities : option (list string);
  a_confidence : option Q;
  a_decayDays : option Z;
  a_supersedes : option string;
  a_source : option string;
  a_sourceChannel : option string;
  a_sourceMessageId : option string
}.

Record DrainResult : Type := { processed : nat; remaining : nat; status : string }.

Record MaintainArgs : Type := { maxAgeDays : option Z; minImportance : option Z }.
Record MaintainResult : Type := { pruned : nat; compacted : nat }.

Record ForgetArgs : Type := {
  f_id : option string; f_query : option string; f_reason : option string
}.

Inductive ForgetResult : Type :=
| ForgetError (msg : string)
| Forgot (id : string) (forgotten : bool) (reason : option string).

Record SearchHit : Type := { hit_row : Row; hit_source : string }.

Record SummarizeArgs : Type := {
  s_topic : option string; s_project : option string; s_limit : option Z
}.

Definition newline : string := String "010" "".

(** [s.split(sep)] for a one-character [sep] *)
Fixpoint split_on (sep : ascii) (cur s : string) : list string :=
  match s with
  | EmptyString => [cur]
  | String c s' =>
      if Ascii.eqb c sep then cur :: split_on sep "" s'
      else split_on sep (cur +:+ String c "") s'
  end.

(** The rewritten queue: the lines joined by a newline and closed by one, or
    the empty text. *)
Definition render_queue (remaining_lines : list string) : string :=
  match remaining_lines with
  | [] => ""
  | _ :: _ => String.concat newline remaining_lines +:+ newline
  end.

Definition nonblank (l : string) : bool := negb (String.eqb (strip l) "").

(** [lines = text.strip().split("\n")], then those with [l.strip()] not empty. *)
Definition queue_lines (text : string) : list string :=
  List.filter nonblank (split_on "010" "" (strip text)).

Definition Qgtb (a b : Q) : bool := negb (Qle_bool a b).

(** A present and non-empty embedding. *)
Definition embedding_ok (e : option (list Q)) : bool :=
  match e with
  | Some (_ :: _) => true
  | _ => false
  end.

(** [d1 | d2] of two mappings: the keys of [d2] win. *)
Definition dict_override (d1 d2 : jdict) : jdict :=
  List.filter (λ kv, match dict_get d2 kv.1 with Some _ => false | None => true end) d1
  ++ d2.

(** ** The operations *)

Section Engine.

Variable env : Env.

Definition now_iso : M string :=
  t ← tick EvClock; mret (isoformat_at env t).

Definition now_strftime (fmt : string) : M string :=
  t ← tick EvClock; mret (strftime_at env t fmt).

Definition load_state : M State :=
  w ← get_world; mret (default default_state (state_file w)).

Definition save_state (s : State) : M unit :=
  modify (with_state_file (Some s)).

Definition get_driver : M bool :=
  w ← get_world;
  if driver w then mret true
  else if String.eqb (NEO4J_PASS env) "" then mret false
  else
    t ← tick EvConnect;
    if connect_at env t then modify (with_driver true);; mret true
    else mret false.

(** [session.run] of a write query: it raises or it is applied. *)
Definition session_run (query : nat → Graph → Graph) : M unit :=
  t ← tick EvCypherWrite;
  if cypher_ok_at env t then modify (λ w, with_graph (query t (graph w)) w)
  else raise Neo4jError.

Definition neo4j_store (memory : Memory) : M bool :=
  drv ← get_driver;
  if negb drv then mret false
  else
    try_except
      (session_run (λ _, merge_memory memory);;
       match truthy (m_supersedes memory) with
       | Some oldId => session_run (λ _, mark_superseded (m_id memory) oldId)
       | None => mret tt
       end;;
       for_each (m_entities memory)
         (λ name, session_run (λ _, link (m_id memory) MENTIONS name));;
       for_each (m_tags memory)
         (λ name, session_run (λ _, link (m_id memory) TAGGED name));;
       match truthy (m_project memory) with
       | Some name => session_run (λ _, link (m_id memory) BELONGS_TO name)
       | None => mret tt
       end;;
       match truthy (m_sessionId memory) with
       | Some sid => session_run (λ _, link (m_id memory) RECORDED_IN sid)
       | None => mret tt
       end;;
       mret true)
      any_exception (mret false).

Definition neo4j_forget (memory_id : string) : M bool :=
  drv ← get_driver;
  if negb drv then mret false
  else
    try_except
      (now ← now_iso;
       session_run (λ _, alter_memory (forgotten_node_keep_reason now) memory_id);;
       mret true)
      any_exception (mret false).

Definition neo4j_forget_with_reason (memory_id : string) (reason : option string)
    : M bool :=
  drv ← get_driver;
  if negb drv then mret false
  else
    try_except
      (now ← now_iso;
       session_run (λ _, alter_memory (forgotten_node now reason) memory_id);;
       mret true)
      any_exception (mret false).

(** [CALL db.index.fulltext.queryNodes(index, $searchQuery) ...] *)
Definition fulltext_query (index query : string) : M (list Row) :=
  t ← tick (EvFulltext index query);
  match fulltext_at env t index query with
  | Some rows => mret rows
  | None => raise Neo4jError
  end.

Definition as_hit (source : string) (r : Row) : SearchHit :=
  {| hit_row := r; hit_source := source |}.

(** [neo4j_search(query, limit, project, mem_type)]: the limit and the
    filters travel with the query; [results] keeps what was appended before
    an exception. *)
Definition neo4j_search (query : string) : M (list SearchHit) :=
  drv ← get_driver;
  if negb drv then mret []
  else
    memory_rows ← try_except (Some <$> fulltext_query "memory_fulltext" query)
                     any_exception (mret None);
    match memory_rows with
    | None => mret []
    | Some rows =>
        let results := map (as_hit "neo4j-fulltext") rows in
        entity_rows ← try_except (Some <$> fulltext_query "entity_fulltext" query)
                         any_exception (mret None);
        match entity_rows with
        | None => mret results
        | Some rows' =>
            let seen_ids := map (λ h, row_id (hit_row h)) results in
            mret (results ++
                  map (as_hit "neo4j-entity")
                    (List.filter (λ r, negb (mem (row_id r) seen_ids)) rows'))
        end
    end.

Definition daily_path (today : string) : string := "daily/" +:+ today +:+ ".md".
Definition project_path (project : string) : string := "projects/" +:+ project +:+ ".md".

Definition append_block (path : string) (memory : Memory) : M bool :=
  t ← tick (EvFileAppend path);
  if append_ok_at env t
  then modify (λ w, with_markdown (markdown w ++ [(path, memory)]) w);; mret true
  else mret false.

(** The block goes to the daily file and, for a memory with a project, to the
    project file; any failure on the way gives [False]. *)
Definition markdown_store (memory : Memory) : M bool :=
  today ← now_strftime "%Y-%m-%d";
  _ ← now_iso;
  ok ← append_block (daily_path today) memory;
  if negb ok then mret false
  else
    match truthy (m_project memory) with
    | Some p => append_block (project_path p) memory
    | None => mret true
    end.

Definition chroma_health_check : M bool :=
  if String.eqb (CHROMA_URL env) "" then mret false
  else t ← tick EvHealth; mret (heartbeat_at env t).

Definition ollama_embed (text : jval) : M (option (list Q)) :=
  if String.eqb (OLLAMA_URL env) "" then mret None
  else t ← tick (EvEmbed text); mret (embed_at env t text).

(** [chroma_store(memory, embedding)], by the id and the document of [memory]. *)
Definition chroma_store (id document : jval) : M bool :=
  if String.eqb (CHROMA_URL env) "" || String.eqb (CHROMA_COLLECTION env) ""
  then mret false
  else
    t ← tick (EvChromaAdd id);
    if chroma_add_at env t id
    then modify (λ w, with_chroma (chroma w ++ [(id, document)]) w);; mret true
    else mret false.

Definition similarity_of (distance : Q) : M Q :=
  if Qeq_bool (1 + distance)%Q 0%Q then raise ZeroDivisionError
  else mret (1 / (1 + distance))%Q.

Definition caught_by_vector_check (e : exn) : bool :=
  match e with
  | IndexError => true
  | _ => false
  end.

(** The primary check of [check_duplicates]; [None] when it falls through. *)
Definition vector_duplicate (content : string) : M (option Dup) :=
  if negb (String.eqb (CHROMA_URL env) "")
     && negb (String.eqb (CHROMA_COLLECTION env) "")
     && negb (String.eqb (OLLAMA_URL env) "")
  then
    embedding ← ollama_embed (JStr content);
    if embedding_ok embedding then
      try_except
        (t ← tick EvChromaQuery;
         match chroma_query_at env t with
         | Some (existing_id :: _, distances) =>
             distance ← match distances with
                        | None => mret 999%Q
                        | Some (d :: _) => mret d
                        | Some [] => raise IndexError
                        end;
             similarity ← similarity_of distance;
             if Qgtb similarity (92 # 100)%Q
             then mret (Some (Skip existing_id similarity))
             else if Qgtb similarity (5 # 10)%Q
             then mret (Some (Replace existing_id similarity))
             else mret None
         | _ => mret None
         end)
        caught_by_vector_check (mret None)
    else mret None
  else mret None.

(** The fallback of [check_duplicates] on the fulltext index. *)
Definition fulltext_duplicate (content : string) : M Dup :=
  drv ← get_driver;
  if negb drv then mret Allow
  else
    try_except
      (let safe_query := lucene_escape (str_take 200 content) in
       if String.eqb (strip safe_query) "" then mret Allow
       else
         rows ← fulltext_query "memory_fulltext" safe_query;
         match rows with
         | [] => mret Allow
         | record :: _ =>
             let score := row_score record in
             if Qgtb score 8%Q
             then mret (Skip (row_id record)
                          (if Qle_bool (score / 10)%Q 1%Q then score / 10 else 1)%Q)
             else if Qgtb score 4%Q
             then mret (Replace (row_id record) (score / 10)%Q)
             else mret Allow
         end)
      any_exception (mret Allow).

Definition check_duplicates (content mem_type : string) (project : option string)
    : M Dup :=
  primary ← vector_duplicate content;
  match primary with
  | Some dup => mret dup
  | None => fulltext_duplicate content
  end.

Definition queue_entry (memory : Memory) (queuedAt : string) : jdict :=
  [ ("id", JStr (m_id memory));
    ("content", JStr (m_content memory));
    ("metadata",
      JObj [ ("type", JStr (m_type memory));
             ("importance", JStr (pretty (m_importance memory)));
             ("project", JStr (default "" (m_project memory)));
             ("created", JStr (m_created memory));
             ("summary", JStr (m_summary memory)) ]);
    ("queuedAt", JStr queuedAt) ].

Definition queue_for_embedding (memory : Memory) : M unit :=
  now ← now_iso;
  modify (λ w, with_queue_file
                 (Some (default "" (queue_file w)
                        +:+ json_dumps env (queue_entry memory now) +:+ newline)) w).

(** The call of [chroma_store] in [drain_queue], on the mapping made of the
    id and the content of the entry, overridden by its metadata. *)
Definition store_entry (line : string) (acc : nat * list string)
    (id text : jval) (metadata : jdict) : M (nat * list string) :=
  let memory := dict_override [("id", id); ("content", text)] metadata in
  stored ← chroma_store (default id (dict_get memory "id"))
             (default (JStr "") (dict_get memory "content"));
  if (stored : bool) then mret (S (acc.1), acc.2)
  else mret (acc.1, acc.2 ++ [line]).

(** One round of the loop of [drain_queue] over [processed] and
    [remaining_lines]: a line that does not parse, or an entry without the
    key looked up, is skipped ([JSONDecodeError], [KeyError]); subscripting
    or unpacking something that is not a mapping is a [TypeError], which the
    loop does not catch. *)
Definition process_line (line : string) (acc : nat * list string)
    : M (nat * list string) :=
  match json_loads env line with
  | None => mret acc
  | Some (JObj entry) =>
      match dict_get entry "content" with
      | None => mret acc
      | Some text =>
          embedding ← ollama_embed text;
          if negb (embedding_ok embedding) then mret (acc.1, acc.2 ++ [line])
          else
            match dict_get entry "id" with
            | None => mret acc
            | Some id =>
                match dict_get entry "metadata" with
                | None => store_entry line acc id text []
                | Some (JObj metadata) => store_entry line acc id text metadata
                | Some _ => raise TypeError
                end
            end
      end
  | Some _ => raise TypeError
  end.

Fixpoint drain_lines (lines : list string) (acc : nat * list string)
    : M (nat * list string) :=
  match lines with
  | [] => mret acc
  | line :: lines' => acc' ← process_line line acc; drain_lines lines' acc'
  end.

Definition MAX_QUEUE_FAILURES : Z := 10.

Definition drain_queue : M DrainResult :=
  w ← get_world;
  match queue_file w with
  | None => mret {| processed := 0; remaining := 0; status := "empty" |}
  | Some text =>
      let lines := queue_lines text in
      match lines with
      | [] => mret {| processed := 0; remaining := 0; status := "empty" |}
      | _ :: _ =>
          state ← load_state;
          if Z.leb MAX_QUEUE_FAILURES (consecutiveFailures (queue state))
          then mret {| processed := 0; remaining := length lines;
                       status := "skipped-max-failures" |}
          else
            healthy ← chroma_health_check;
            if negb healthy then
              now ← now_iso;
              save_state
                (with_queue
                   {| pendingCount := pendingCount (queue state);
                      consecutiveFailures := consecutiveFailures (queue state) + 1;
                      lastDrainAttempt := Some now;
                      lastSuccess := lastSuccess (queue state) |} state);;
              mret {| processed := 0; remaining := length lines;
                      status := "chromadb-offline" |}
            else
              acc ← drain_lines lines (0, []);
              modify (with_queue_file (Some (render_queue acc.2)));;
              success ← now_iso;
              attempt ← now_iso;
              save_state
                (with_queue
                   {| pendingCount := Z.of_nat (length acc.2);
                      consecutiveFailures := 0;
                      lastDrainAttempt := Some attempt;
                      lastSuccess := Some success |} state);;
              mret {| processed := acc.1; remaining := length acc.2;
                      status := "ok" |}
      end
  end.

(** ** The write-ahead log *)

Definition wal_write (memory : Memory) : M unit :=
  state ← load_state;
  save_state
    (with_wal {| pending := pending (wal state) ++ [memory];
                 lastFlush := lastFlush (wal state) |} state).

Definition wal_flush (memory_id : string) : M unit :=
  state ← load_state;
  let kept := List.filter (λ m, negb (String.eqb (m_id m) memory_id))
                (pending (wal state)) in
  now ← now_iso;
  save_state (with_wal {| pending := kept; lastFlush := Some now |} state).

Definition wal_recover : M (list Memory) :=
  state ← load_state; mret (pending (wal state)).

(** ** Commands *)

Definition with_supersedes (x : option string) (m : Memory) : Memory :=
  {| m_id := m_id m; m_content := m_content m; m_summary := m_summary m;
     m_type := m_type m; m_importance := m_importance m;
     m_confidence := m_confidence m; m_decayDays := m_decayDays m;
     m_supersedes := x; m_project := m_project m; m_tags := m_tags m;
     m_entities := m_entities m; m_created := m_created m;
     m_updated := m_updated m; m_sessionId := m_sessionId m;
     m_source := m_source m; m_sourceChannel := m_sourceChannel m;
     m_sourceMessageId := m_sourceMessageId m |}.

(** Layer 3 of [cmd_remember]: the vector store, or the queue. *)
Definition vector_layer (memory : Memory) : M (bool * bool) :=
  if negb (String.eqb (CHROMA_URL env) "") && negb (String.eqb (OLLAMA_URL env) "")
  then
    embedding ← ollama_embed (JStr (m_content memory));
    chroma_ok ← (if embedding_ok embedding
                 then chroma_store (JStr (m_id memory)) (JStr (m_content memory))
                 else mret false);
    if negb chroma_ok then queue_for_embedding memory;; mret (false, true)
    else mret (true, false)
  else if negb (String.eqb (CHROMA_URL env) "")
  then queue_for_embedding memory;; mret (false, true)
  else mret (false, false).

Definition cmd_remember (args : RememberArgs) : M RememberResult :=
  let content := a_content args in
  if String.eqb content "" then mret (RememberError "content is required")
  else
    let memory_type :=
      match truthy (a_type args) with
      | Some t => t
      | None => classify_memory (json_dumps env) (Plain content)
      end in
    let importance := default 5%Z (a_importance args) in
    let project := a_project args in
    let tags := default [] (a_tags args) in
    let summary := default (str_take 200 content) (a_summary args) in
    let entities :=
      match a_entities args with
      | Some (e :: l) => e :: l
      | _ => extract_entities (json_dumps env) (set_iter env) (Plain content)
      end in
    state ← load_state;
    let session_id := session_id (session state) in
    let confidence := default (8 # 10)%Q (a_confidence args) in
    let decay_days := a_decayDays args in
    id ← (t ← tick EvUuid; mret (uuid4_at env t));
    created ← now_iso;
    updated ← now_iso;
    let memory :=
      {| m_id := id; m_content := content; m_summary := summary;
         m_type := memory_type; m_importance := importance;
         m_confidence := confidence; m_decayDays := decay_days;
         m_supersedes := a_supersedes args; m_project := project;
         m_tags := tags; m_entities := entities; m_created := created;
         m_updated := updated; m_sessionId := session_id;
         m_source := default "agent" (a_source args);
         m_sourceChannel := a_sourceChannel args;
         m_sourceMessageId := a_sourceMessageId args |} in
    dup ← check_duplicates content memory_type project;
    match dup with
    | Skip existingId similarity => mret (Skipped existingId similarity)
    | _ =>
        let memory :=
          match dup with
          | Replace existingId _ => with_supersedes (Some existingId) memory
          | _ => memory
          end in
        wal_write memory;;
        md_ok ← markdown_store memory;
        neo_ok ← neo4j_store memory;
        vec ← vector_layer memory;
        (if md_ok || neo_ok then wal_flush (m_id memory) else mret tt);;
        state ← load_state;
        now ← now_iso;
        save_state
          (with_stats
             {| totalMemories := totalMemories (stats state) + 1;
                totalRecalls := totalRecalls (stats state);
                totalSearches := totalSearches (stats state);
                lastMemoryAt := Some now |} state);;
        mret (Stored
                {| o_id := m_id memory; o_type := memory_type;
                   o_importance := importance; o_confidence := confidence;
                   o_decayDays := decay_days;
                   o_supersedes := m_supersedes memory;
                   o_entities := take 5 entities;
                   o_layers := {| l_markdown := md_ok; l_neo4j := neo_ok;
                                  l_chromadb := vec.1; l_queued := vec.2 |} |})
    end.

(** [ACTIVE_MEMORY], evaluated by the graph at the moment of query [t]. *)
Definition active (t : nat) (n : Node) : bool :=
  negb (default false (n_forgotten n))
  && match n_decayDays n with
     | None => true
     | Some days =>
         match n_created n with
         | Some created => unexpired_at env t created days
         | None => false
         end
     end.

(** The WHERE clause of the pruning query. *)
Definition prunable (t : nat) (minImp : Z) (cutoff : string) (n : Node) : bool :=
  importance_below minImp n && created_before cutoff n && active t n.

Definition prune_node (t : nat) (minImp : Z) (cutoff now : string) (n : Node) : Node :=
  if prunable t minImp cutoff n
  then forgotten_node now (Some "maintenance-pruned") n
  else n.

Definition prune (minImp : Z) (cutoff now : string) (t : nat) (g : Graph) : Graph :=
  {| memories := prune_node t minImp cutoff now <$> memories g; edges := edges g |}.

Definition count_prunable (t : nat) (minImp : Z) (cutoff : string) (g : Graph) : nat :=
  length (List.filter (λ kv, prunable t minImp cutoff kv.2) (map_to_list (memories g))).

Definition cmd_maintain (args : MaintainArgs) : M MaintainResult :=
  let max_age_days := default 90%Z (maxAgeDays args) in
  let min_importance := default 3%Z (minImportance args) in
  drv ← get_driver;
  if (drv : bool) then
    try_except
      (cutoff_str ← now_strftime "%Y-%m-%dT%H:%M:%SZ";
       now ← now_iso;
       w ← get_world;
       let t := length (trace w) in
       session_run (prune min_importance cutoff_str now);;
       mret {| pruned := count_prunable t min_importance cutoff_str (graph w);
               compacted := 0 |})
      any_exception (mret {| pruned := 0; compacted := 0 |})
  else mret {| pruned := 0; compacted := 0 |}.

Definition cmd_forget (args : ForgetArgs) : M ForgetResult :=
  match truthy (f_id args), truthy (f_query args) with
  | None, None => mret (ForgetError "id or query is required")
  | Some memory_id, _ =>
      ok ← neo4j_forget_with_reason memory_id (f_reason args);
      mret (Forgot memory_id ok (f_reason args))
  | None, Some query =>
      results ← neo4j_search query;
      match results with
      | [] => mret (ForgetError "no matching memory found")
      | top :: _ =>
          let memory_id := row_id (hit_row top) in
          ok ← neo4j_forget_with_reason memory_id (f_reason args);
          mret (Forgot memory_id ok (f_reason args))
      end
  end.

(** [groups[mem_type].append(mem)], the groups in order of first appearance. *)
Fixpoint add_to_group (key : option string) (r : Row)
    (groups : list (option string * list Row)) : list (option string * list Row) :=
  match groups with
  | [] => [(key, [r])]
  | (k, rows) :: groups' =>
      if decide (k = key) then (k, rows ++ [r]) :: groups'
      else (k, rows) :: add_to_group key r groups'
  end.

Definition group_by_type (rows : list Row) : list (option string * list Row) :=
  fold_left (λ groups r, add_to_group (row_type r) r groups) rows [].

Inductive SummaryResult : Type :=
| SummaryError (msg : string)
| Groups (groups : list (option string * list Row)) (totalCount : nat).

Definition cmd_summarize (args : SummarizeArgs) : M SummaryResult :=
  drv ← get_driver;
  if negb drv then mret (SummaryError "Neo4j unavailable")
  else
    try_except
      (match truthy (s_topic args) with
       | Some topic =>
           let safe_topic := lucene_escape topic in
           if String.eqb (strip safe_topic) "" then mret (Groups [] 0)
           else
             rows ← fulltext_query "memory_fulltext" safe_topic;
             mret (Groups (group_by_type rows) (length rows))
       | None =>
           t ← tick EvCypherRead;
           match rows_at env t with
           | None => raise Neo4jError
           | Some rows => mret (Groups (group_by_type rows) (length rows))
           end
       end)
      any_exception (mret (SummaryError "query failed")).

End Engine.

(** * Vocabulary of the statements *)

(** A computation leaves a component [f] of the world alone. *)
Definition preserves {A B : Type} (f : World → B) (c : M A) : Prop :=
  ∀ w, f (c w).2 = f w.

(** A computation only adds events that satisfy [P]. *)
Definition emits {A : Type} (P : event → Prop) (c : M A) : Prop :=
  ∀ w, ∃ l, trace (c w).2 = trace w ++ l ∧ Forall P l.

(** A computation never raises. *)
Definition total {A : Type} (c : M A) : Prop :=
  ∀ w, ∃ a w', c w = (Ok a, w').

(** Every value a computation returns satisfies [Q]. *)
Definition returns {A : Type} (Q : A → Prop) (c : M A) : Prop :=
  ∀ w a w', c w = (Ok a, w') → Q a.

Definition ignores_trace {B : Type} (f : World → B) : Prop :=
  ∀ t w, f (with_trace t w) = f w.
Definition ignores_driver {B : Type} (f : World → B) : Prop :=
  ∀ d w, f (with_driver d w) = f w.
Definition ignores_graph {B : Type} (f : World → B) : Prop :=
  ∀ g w, f (with_graph g w) = f w.
Definition ignores_markdown {B : Type} (f : World → B) : Prop :=
  ∀ l w, f (with_markdown l w) = f w.
Definition ignores_chroma {B : Type} (f : World → B) : Prop :=
  ∀ c w, f (with_chroma c w) = f w.
Definition ignores_queue_file {B : Type} (f : World → B) : Prop :=
  ∀ q w, f (with_queue_file q w) = f w.

(** The state [load_state] reads in a world. *)
Definition current_state (w : World) : State :=
  default default_state (state_file w).


(** What [cmd_remember] does with the memory it has built once the duplicate
    check let it through: WAL, the three layers, flush, stats, outcome. *)
Definition store_memory (env : Env) (memory : Memory) : M RememberResult :=
  wal_write memory;;
  md_ok ← markdown_store env memory;
  neo_ok ← neo4j_store env memory;
  vec ← vector_layer env memory;
  (if md_ok || neo_ok then wal_flush env (m_id memory) else mret tt);;
  state ← load_state;
  now ← now_iso env;
  save_state
    (with_stats
       {| totalMemories := totalMemories (stats state) + 1;
          totalRecalls := totalRecalls (stats state);
          totalSearches := totalSearches (stats state);
          lastMemoryAt := Some now |} state);;
  mret (Stored
          {| o_id := m_id memory; o_type := m_type memory;
             o_importance := m_importance memory;
             o_confidence := m_confidence memory;
             o_decayDays := m_decayDays memory;
             o_supersedes := m_supersedes memory;
             o_entities := take 5 (m_entities memory);
             o_layers := {| l_markdown := md_ok; l_neo4j := neo_ok;
                            l_chromadb := vec.1; l_queued := vec.2 |} |}).






(** The metadata of a queue entry: absent counts as empty, anything but a
    mapping cannot be unpacked. *)
Definition entry_metadata (entry : jdict) : option jdict :=
  match dict_get entry "metadata" with
  | None => Some []
  | Some (JObj metadata) => Some metadata
  | Some _ => None
  end.

(** The identifier and the document [drain_queue] hands to [chroma_store]. *)
Definition stored_as (id text : jval) (metadata : jdict) : jval * jval :=
  let memory := dict_override [("id", id); ("content", text)] metadata in
  (default id (dict_get memory "id"), default (JStr "") (dict_get memory "content")).

(** A record of the queue as the log format has it: a mapping with an id
    and a content, and with a mapping for metadata if it has any. *)
Definition well_formed_record (env : Env) (line : string) : Prop :=
  ∃ entry id text metadata,
    json_loads env line = Some (JObj entry) ∧
    dict_get entry "id" = Some id ∧
    dict_get entry "content" = Some text ∧
    entry_metadata entry = Some metadata.

(** The loop body of [drain_queue] keeps the line whose embedding comes back
    empty. *)
Definition keeps_on_null_embedding (env : Env) : Prop :=
  ∀ line acc w0 entry text e w1,
    json_loads env line = Some (JObj entry) →
    dict_get entry "content" = Some text →
    ollama_embed env text w0 = (Ok e, w1) →
    embedding_ok e = false →
    process_line env line acc w0 = (Ok (acc.1, acc.2 ++ [line]), w1).

(** The loop body keeps the line of a well-formed record that the vector
    store refuses. *)
Definition keeps_on_failed_upsert (env : Env) : Prop :=
  ∀ line acc w0 entry text id metadata e w1 w2,
    json_loads env line = Some (JObj entry) →
    dict_get entry "content" = Some text →
    dict_get entry "id" = Some id →
    entry_metadata entry = Some metadata →
    ollama_embed env text w0 = (Ok e, w1) →
    embedding_ok e = true →
    chroma_store env (stored_as id text metadata).1 (stored_as id text metadata).2 w1
      = (Ok false, w2) →
    process_line env line acc w0 = (Ok (acc.1, acc.2 ++ [line]), w2).

(** The loop body drops the line of a record without id once its embedding
    succeeded. *)
Definition drops_without_id (env : Env) : Prop :=
  ∀ line acc w0 entry text e w1,
    json_loads env line = Some (JObj entry) →
    dict_get entry "content" = Some text →
    dict_get entry "id" = None →
    ollama_embed env text w0 = (Ok e, w1) →
    embedding_ok e = true →
    process_line env line acc w0 = (Ok acc, w1).

(** Every record of the queue goes through the loop body once, at its place:
    after the records before it, whose kept lines come first, and before
    the records after it, whose kept lines come last. *)
Definition each_record_in_turn (env : Env) (lines : list string) (w : World)
    (kept : list string) : Prop :=
  ∀ before line after,
    lines = before ++ line :: after →
    ∃ acc_before w_before acc_line w_line kept_after,
      drain_lines env before (0, []) w = (Ok acc_before, w_before) ∧
      process_line env line acc_before w_before = (Ok acc_line, w_line) ∧
      kept = acc_line.2 ++ kept_after ∧
      sublist acc_before.2 before ∧
      sublist kept_after after.

(** What a sanitizing fulltext surface may send: the escaped query, and only
    when something is left of it. *)
Definition sends_only (q : string) (e : event) : Prop :=
  e = EvConnect ∨ (e = EvFulltext "memory_fulltext" q ∧ strip q ≠ "").

(** In an escaped query every reserved character follows a backslash. *)
Fixpoint well_escaped (s : string) : bool :=
  match s with
  | EmptyString => true
  | String "\" (String c s') => lucene_special c && well_escaped s'
  | String c s' => negb (lucene_special c) && well_escaped s'
  end.

(** Invariant 2 of the data model at a node: forgotten implies erased. *)
Definition tombstone (n : Node) : Prop :=
  n_forgotten n = Some true →
  n_content n = None ∧ n_summary n = None ∧ is_Some (n_forgottenAt n).

Definition tombstones (g : Graph) : Prop :=
  ∀ id n, memories g !! id = Some n → tombstone n.


(** * Sample inputs *)

Definition quoted (s : string) : string := String dquote s +:+ String dquote "".

(** [json.dumps({"topic": "the"})] *)
Definition topic_the_json : string :=
  "{" +:+ quoted "topic" +:+ ": " +:+ quoted "the" +:+ "}".

(** A queue line whose entry has a content and no id. *)
Definition line_without_id : string :=
  "{" +:+ quoted "content" +:+ ": " +:+ quoted "x" +:+ "}".

(** A queue line that is JSON and not a mapping. *)
Definition line_not_a_mapping : string := "[1]".

Definition sample_json_loads (s : string) : option jval :=
  if String.eqb s line_without_id then Some (JObj [("content", JStr "x")])
  else if String.eqb s line_not_a_mapping then Some (JArr [JInt 1])
  else None.

(** An environment on 2026-11-03: [vector] says whether the vector store and
    the embedder are configured, [up] whether the vector store and the
    markdown directory answer, [embedder] whether embeddings come back, and
    [hit] is what the vector store answers to a query. *)
Definition sample_env (vector : bool) (password : string) (up embedder : bool)
    (hit : option (list string * option (list Q))) : Env :=
  {| CHROMA_URL := if vector then "http://chroma:8000" else "";
     OLLAMA_URL := if vector then "http://ollama:11434" else "";
     CHROMA_COLLECTION := if vector then "memories" else "";
     NEO4J_PASS := password;
     json_dumps := λ _, "{}";
     json_loads := sample_json_loads;
     set_iter := λ l, l;
     isoformat_at := λ _, "2026-11-03T10:00:00+00:00";
     strftime_at := λ _ fmt, if String.eqb fmt "%Y-%m-%d" then "2026-11-03"
                             else "2026-11-03T10:00:00Z";
     uuid4_at := λ _, "7d9f1c2e";
     connect_at := λ _, true;
     append_ok_at := λ _, up;
     cypher_ok_at := λ _, true;
     unexpired_at := λ _ _ _, true;
     rows_at := λ _, Some [];
     fulltext_at := λ _ _ _, Some [];
     heartbeat_at := λ _, up;
     embed_at := λ _ _, if embedder then Some [1%Q] else None;
     chroma_add_at := λ _ _, up;
     chroma_query_at := λ _, hit |}.

Definition empty_world : World :=
  {| state_file := None; queue_file := None; markdown := [];
     graph := {| memories := ∅; edges := [] |}; chroma := [];
     driver := false; trace := [] |}.

Definition sample_node (created : string) (importance : Z) : Node :=
  {| n_content := Some "The API key is in vault"; n_summary := Some "The API key";
     n_type := Some "info"; n_importance := Some importance; n_project := None;
     n_created := Some created; n_updated := Some created; n_sessionId := None;
     n_source := Some "agent"; n_confidence := Some (8 # 10)%Q; n_decayDays := None;
     n_sourceChannel := None; n_sourceMessageId := None;
     n_forgotten := None; n_forgottenAt := None; n_deleteReason := None |}.

(** A connected graph with one active memory of importance 1, written the
    day before. *)
Definition world_with_memory : World :=
  with_driver true
    (with_graph {| memories := {[ "m-old" := sample_node "2026-11-02T10:00:00+00:00" 1 ]};
                   edges := [] |} empty_world).

Definition superseding_memory : Memory :=
  {| m_id := "m-new"; m_content := "The API key is in vault at path secrets/api";
     m_summary := "The API key is in vault at path secrets/api";
     m_type := "info"; m_importance := 5; m_confidence := (8 # 10)%Q;
     m_decayDays := None; m_supersedes := Some "m-old"; m_project := None;
     m_tags := []; m_entities := []; m_created := "2026-11-03T10:00:00+00:00";
     m_updated := "2026-11-03T10:00:00+00:00"; m_sessionId := None;
     m_source := "agent"; m_sourceChannel := None; m_sourceMessageId := None |}.

Definition sample_args (text : string) : RememberArgs :=
  {| a_content := text; a_type := None; a_importance := None; a_project := None;
     a_tags := None; a_summary := None; a_entities := None; a_confidence := None;
     a_decayDays := None; a_supersedes := None; a_source := None;
     a_sourceChannel := None; a_sourceMessageId := None |}.

(** A world whose queue holds one line, after [failures] failed drains. *)
Definition world_with_line (line : string) (failures : Z) : World :=
  with_queue_file (Some (line +:+ newline))
    (with_state_file
       (Some (with_queue {| pendingCount := 1; consecutiveFailures := failures;
                            lastDrainAttempt := None; lastSuccess := None |}
                default_state))
       empty_world).

Definition world_with_queue (failures : Z) : World :=
  world_with_line line_without_id failures.

(** * More of the engine *)

(** [s.upper()] *)
Definition upper_char (c : ascii) : ascii :=
  if is_az c then ascii_of_nat (nat_of_ascii c - 32) else c.

Definition upper (s : string) : string := smap upper_char s.

(** [l[:n]] for an integer [n]: a negative [n] counts from the end. *)
Definition slice_to {A : Type} (n : Z) (l : list A) : list A :=
  if Z.leb 0 n then take (Z.to_nat n) l
  else take (length l - Z.to_nat (- n)) l.

(** The [updates] of [neo4j_evolve]: for each of the seven keys, whether it
    is there ([Some]) and the value it has ([None] for a null). *)
Record Updates : Type := {
  u_content : option (option string);
  u_summary : option (option string);
  u_type : option (option string);
  u_importance : option (option Z);
  u_project : option (option string);
  u_confidence : option (option Q);
  u_decayDays : option (option Z)
}.

(** [SET m.updated = $now, m.key = $key, ...] over the keys of [updates]:
    a null removes the property. *)
Definition evolved_node (now : string) (u : Updates) (n : Node) : Node :=
  {| n_content := default (n_content n) (u_content u);
     n_summary := default (n_summary n) (u_summary u);
     n_type := default (n_type n) (u_type u);
     n_importance := default (n_importance n) (u_importance u);
     n_project := default (n_project n) (u_project u);
     n_created := n_created n; n_updated := Some now;
     n_sessionId := n_sessionId n; n_source := n_source n;
     n_confidence := default (n_confidence n) (u_confidence u);
     n_decayDays := default (n_decayDays n) (u_decayDays u);
     n_sourceChannel := n_sourceChannel n;
     n_sourceMessageId := n_sourceMessageId n;
     n_forgotten := n_forgotten n; n_forgottenAt := n_forgottenAt n;
     n_deleteReason := n_deleteReason n |}.

Record SearchArgs : Type := {
  q_query : option string;
  q_limit : option Z;
  q_project : option string;
  q_type : option string
}.

Record SearchResult : Type := {
  sr_results : list SearchHit;
  sr_count : nat;
  sr_neo4j : nat;
  sr_chromadb : nat
}.

Inductive SearchOutcome : Type :=
| SearchError (msg : string)
| Found (r : SearchResult).

Definition hit_id (h : SearchHit) : string := row_id (hit_row h).
Definition hit_score (h : SearchHit) : Q := row_score (hit_row h).

(** A hit of the vector store, as far as [cmd_search] reads it: id, score
    and source.  The documents and the metadata of the answer, which the
    source copies into the hit, are left out: they are taken to be as long
    as the ids and to hold no key id, score or source. *)
Definition chroma_hit (id : string) (score : Q) : SearchHit :=
  {| hit_row := {| row_id := id; row_content := None; row_summary := None;
                   row_type := None; row_importance := None; row_score := score |};
     hit_source := "chromadb-semantic" |}.

(** The merging loops of [cmd_search]: [seen_ids] and [merged]. *)
Definition merge_hit (st : list string * list SearchHit) (r : SearchHit)
    : list string * list SearchHit :=
  if mem (hit_id r) st.1 then st else (hit_id r :: st.1, st.2 ++ [r]).

(** [merged.sort(key=score, reverse=True)]: descending and stable. *)
Fixpoint insert_by_score (x : SearchHit) (l : list SearchHit) : list SearchHit :=
  match l with
  | [] => [x]
  | y :: l' =>
      if Qle_bool (hit_score y) (hit_score x) then x :: l
      else y :: insert_by_score x l'
  end.

Definition sort_by_score (l : list SearchHit) : list SearchHit :=
  foldr insert_by_score [] l.

Record ListArgs : Type := {
  ls_page : option Z;
  ls_pageSize : option Z;
  ls_sortBy : option string;
  ls_sortOrder : option string;
  ls_project : option string;
  ls_type : option string
}.

Record ListResult : Type := {
  lr_results : list Row;
  lr_total : Z;
  lr_page : Z;
  lr_pageSize : Z;
  lr_totalPages : Z
}.

Inductive ListOutcome : Type :=
| ListError (msg : string)
| Listed (r : ListResult).

Definition allowed_sorts : list string :=
  ["created"; "importance"; "confidence"; "updated"].

(** The sort field and the sort order [cmd_list] puts in its query. *)
Definition checked_sort_by (args : ListArgs) : string :=
  let sort_by := default "created" (ls_sortBy args) in
  if mem sort_by allowed_sorts then sort_by else "created".

Definition checked_sort_order (args : ListArgs) : string :=
  let sort_order := default "DESC" (ls_sortOrder args) in
  if mem (upper sort_order) ["ASC"; "DESC"] then sort_order else "DESC".

(** [ORDER BY m.{sort_by} {sort_order}] *)
Definition order_clause (args : ListArgs) : string :=
  "ORDER BY m." +:+ checked_sort_by args +:+ " " +:+ checked_sort_order args.

(** [(total + page_size - 1) // page_size if page_size > 0 else 0] *)
Definition total_pages (total page_size : Z) : Z :=
  if Z.ltb 0 page_size then ((total + page_size - 1) / page_size)%Z else 0%Z.

Section MoreOperations.

Variable env : Env.

(** The answers of the two queries of [cmd_list]: the count, and the page for
    an order clause, an offset and a size ([None]: the query raised). *)
Variable count_at : nat → option Z.
Variable page_at : nat → string → Z → Z → option (list Row).

Definition neo4j_evolve (memory_id : string) (updates : Updates) : M bool :=
  drv ← get_driver env;
  if negb drv then mret false
  else
    try_except
      (now ← now_iso env;
       session_run env (λ _, alter_memory (evolved_node now updates) memory_id);;
       match u_content updates with
       | Some text =>
           (* [str(None)] is the text of a null content *)
           for_each (extract_entities (json_dumps env) (set_iter env)
                       (Plain (default "None" text)))
             (λ ename, session_run env (λ _, link memory_id MENTIONS ename))
       | None => mret tt
       end;;
       mret true)
      any_exception (mret false).

(** [MATCH (m:Memory) WHERE m.id IN $ids AND ACTIVE RETURN m.id], evaluated
    on the graph. *)
Definition active_ids (t : nat) (g : Graph) (ids : list string) : list string :=
  List.filter (λ id, match memories g !! id with
                     | Some n => active env t n
                     | None => false
                     end) ids.

Definition neo4j_filter_active_ids (ids : list string) : M (gset string) :=
  match ids with
  | [] => mret ∅
  | _ :: _ =>
      drv ← get_driver env;
      if negb drv then mret (list_to_set ids)
      else
        try_except
          (t ← tick EvCypherRead;
           if cypher_ok_at env t
           then w ← get_world; mret (list_to_set (active_ids t (graph w) ids))
           else raise Neo4jError)
          any_exception (mret (list_to_set ids))
  end.

(** The loop of [chroma_search] over the ids of the answer: the distance of
    each ([1.0] when the answer has none), its score, and the hit unless the
    score is below 0.15. *)
Fixpoint score_hits (ids : list string) (distances : option (list Q))
    : M (list SearchHit) :=
  match ids with
  | [] => mret []
  | doc_id :: ids' =>
      distance ← match distances with
                 | None => mret 1%Q
                 | Some (d :: _) => mret d
                 | Some [] => raise IndexError
                 end;
      score ← similarity_of distance;
      if Qgtb (15 # 100)%Q score then score_hits ids' (tail <$> distances)
      else cons (chroma_hit doc_id score) <$> score_hits ids' (tail <$> distances)
  end.

Definition chroma_search (query : string) : M (list SearchHit) :=
  if String.eqb (CHROMA_URL env) "" || String.eqb (CHROMA_COLLECTION env) ""
  then mret []
  else
    embedding ← ollama_embed env (JStr query);
    if negb (embedding_ok embedding) then mret []
    else
      t ← tick EvChromaQuery;
      match chroma_query_at env t with
      | Some (doc_id :: ids, distances) => score_hits (doc_id :: ids) distances
      | _ => mret []
      end.

Definition cmd_search (args : SearchArgs) : M SearchOutcome :=
  match truthy (q_query args) with
  | None => mret (SearchError "query is required")
  | Some query =>
      let limit := default 10%Z (q_limit args) in
      neo_results ← neo4j_search env query;
      found ← chroma_search query;
      chroma_results ←
        match found with
        | [] => mret []
        | _ :: _ =>
            active ← neo4j_filter_active_ids (map hit_id found);
            mret (List.filter (λ r, bool_decide (hit_id r ∈ active)) found)
        end;
      let merged :=
        (fold_left merge_hit chroma_results (fold_left merge_hit neo_results ([], []))).2 in
      let merged := sort_by_score merged in
      state ← load_state;
      save_state
        (with_stats
           {| totalMemories := totalMemories (stats state);
              totalRecalls := totalRecalls (stats state);
              totalSearches := totalSearches (stats state) + 1;
              lastMemoryAt := lastMemoryAt (stats state) |} state);;
      mret (Found {| sr_results := slice_to limit merged;
                     sr_count := length merged;
                     sr_neo4j := length neo_results;
                     sr_chromadb := length chroma_results |})
  end.

(** The replay loop of [cmd_sync_start] and [cmd_pre_compaction_flush]:
    every pending memory goes to the markdown log and to the graph again,
    and leaves the WAL when one of them took it. *)
Fixpoint replay (pending : list Memory) (recovered : nat) : M nat :=
  match pending with
  | [] => mret recovered
  | memory :: pending' =>
      md_ok ← markdown_store env memory;
      neo_ok ← neo4j_store env memory;
      if md_ok || neo_ok
      then wal_flush env (m_id memory);; replay pending' (S recovered)
      else replay pending' recovered
  end.

Definition wal_replay : M nat :=
  pending ← wal_recover; replay pending 0.

Definition cmd_list (args : ListArgs) : M ListOutcome :=
  let page := default 1%Z (ls_page args) in
  let page_size := default 20%Z (ls_pageSize args) in
  let skip := ((page - 1) * page_size)%Z in
  drv ← get_driver env;
  if negb drv then mret (ListError "Neo4j unavailable")
  else
    try_except
      (t ← tick EvCypherRead;
       match count_at t with
       | None => raise Neo4jError
       | Some total =>
           t' ← tick EvCypherRead;
           match page_at t' (order_clause args) skip page_size with
           | None => raise Neo4jError
           | Some records =>
               mret (Listed {| lr_results := records; lr_total := total;
                               lr_page := page; lr_pageSize := page_size;
                               lr_totalPages := total_pages total page_size |})
           end
       end)
      any_exception (mret (ListError "query failed")).

End MoreOperations.

(** * More vocabulary *)

(** Every run of a computation takes the world to one related to it by [R]. *)
Definition advances {A : Type} (R : World → World → Prop) (c : M A) : Prop :=
  ∀ w, R w (c w).2.

(** From one graph to a later one: every memory node is still there, still
    forgotten if it was, and every relationship is still there. *)
Definition graph_grows (g g' : Graph) : Prop :=
  (∀ id n, memories g !! id = Some n →
     ∃ n', memories g' !! id = Some n' ∧
           (n_forgotten n = Some true → n_forgotten n' = Some true)) ∧
  (∀ e, e ∈ edges g → e ∈ edges g').

(** The three stores only grow: the graph as above, the markdown files and
    the vector store by appending. *)
Definition stores_grow (w w' : World) : Prop :=
  graph_grows (graph w) (graph w') ∧
  markdown w `prefix_of` markdown w' ∧
  chroma w `prefix_of` chroma w'.

(** The write queries of [neo4j_store] for a memory, in the order in which
    it runs them. *)
Definition store_steps (m : Memory) : list (Graph → Graph) :=
  [merge_memory m]
  ++ map (mark_superseded (m_id m)) (option_list (truthy (m_supersedes m)))
  ++ map (link (m_id m) MENTIONS) (m_entities m)
  ++ map (link (m_id m) TAGGED) (m_tags m)
  ++ map (link (m_id m) BELONGS_TO) (option_list (truthy (m_project m)))
  ++ map (link (m_id m) RECORDED_IN) (option_list (truthy (m_sessionId m))).

Definition run_steps (steps : list (Graph → Graph)) (g : Graph) : Graph :=
  foldl (λ g step, step g) g steps.

(** The thirteen properties a node has from a memory. *)
Definition node_of (m : Memory) (n : Node) : Prop :=
  n_content n = Some (m_content m) ∧ n_summary n = Some (m_summary m) ∧
  n_type n = Some (m_type m) ∧ n_importance n = Some (m_importance m) ∧
  n_project n = m_project m ∧ n_created n = Some (m_created m) ∧
  n_updated n = Some (m_updated m) ∧ n_sessionId n = m_sessionId m ∧
  n_source n = Some (m_source m) ∧ n_confidence n = Some (m_confidence m) ∧
  n_decayDays n = m_decayDays m ∧ n_sourceChannel n = m_sourceChannel m ∧
  n_sourceMessageId n = m_sourceMessageId m.

(** The relationships [neo4j_store] gives a memory. *)
Definition edges_of (m : Memory) : list (string * rel * string) :=
  map (λ name, (m_id m, MENTIONS, name)) (m_entities m)
  ++ map (λ name, (m_id m, TAGGED, name)) (m_tags m)
  ++ map (λ name, (m_id m, BELONGS_TO, name)) (option_list (truthy (m_project m)))
  ++ map (λ sid, (m_id m, RECORDED_IN, sid)) (option_list (truthy (m_sessionId m))).

(** A list of hits in descending order of score. *)
Fixpoint descending (l : list SearchHit) : Prop :=
  match l with
  | [] => True
  | x :: l' => Forall (λ y, (hit_score y <= hit_score x)%Q) l' ∧ descending l'
  end.


(** The memory of id [id] is in the graph and active at the moment [t]. *)
Definition active_in (env : Env) (t : nat) (g : Graph) (id : string) : Prop :=
  ∃ n, memories g !! id = Some n ∧ active env t n = true.

(** What [cmd_search] answers from the hits of the graph and the filtered
    hits of the vector store. *)
Definition merged_hits (neo_results chroma_results : list SearchHit) : list SearchHit :=
  sort_by_score
    (fold_left merge_hit chroma_results (fold_left merge_hit neo_results ([], []))).2.

(** The state after a search: one more search counted. *)
Definition count_search (state : State) : State :=
  with_stats
    {| totalMemories := totalMemories (stats state);
       totalRecalls := totalRecalls (stats state);
       totalSearches := totalSearches (stats state) + 1;
       lastMemoryAt := lastMemoryAt (stats state) |} state.

(** A memory of id [id] has reached the markdown log or the graph. *)
Definition stored_id (w : World) (id : string) : Prop :=
  (∃ path m, (path, m) ∈ markdown w ∧ m_id m = id) ∨
  is_Some (memories (graph w) !! id).

(** The characters of an [ORDER BY] clause that carries no injection:
    letters, the space and the dot. *)
Definition clause_char (c : ascii) : bool :=
  is_az c || is_upper c || Ascii.eqb c " " || Ascii.eqb c ".".

Definition safe_clause (s : string) : Prop := all_chars clause_char s = true.

Definition is_letter (c : ascii) : bool := is_az c || is_upper c.

(** * More sample inputs *)

(** A memory with an entity, a tag, a project and a predecessor. *)
Definition linked_memory : Memory :=
  {| m_id := "m-new"; m_content := "The API key is in vault at path secrets/api";
     m_summary := "The API key is in vault at path secrets/api";
     m_type := "info"; m_importance := 5; m_confidence := (8 # 10)%Q;
     m_decayDays := None; m_supersedes := Some "m-old"; m_project := Some "eva";
     m_tags := ["infra"]; m_entities := ["vault"];
     m_created := "2026-11-03T10:00:00+00:00";
     m_updated := "2026-11-03T10:00:00+00:00"; m_sessionId := None;
     m_source := "agent"; m_sourceChannel := None; m_sourceMessageId := None |}.

(** A connected graph with one memory of importance 5. *)
Definition world_with_important_memory : World :=
  with_driver true
    (with_graph {| memories := {[ "m-keep" := sample_node "2026-01-01T10:00:00+00:00" 5 ]};
                   edges := [] |} empty_world).

(** A connected graph whose only memory has been forgotten. *)
Definition world_with_tombstone : World :=
  with_driver true
    (with_graph
       {| memories :=
            {[ "m-old" := forgotten_node "2026-11-02T12:00:00+00:00" (Some "obsolete")
                            (sample_node "2026-11-02T10:00:00+00:00" 1) ]};
          edges := [] |} empty_world).


(** A queue line with an id and a content, and an environment that reads it. *)
Definition line_with_id : string :=
  "{" +:+ quoted "id" +:+ ": " +:+ quoted "m-1" +:+ ", "
      +:+ quoted "content" +:+ ": " +:+ quoted "x" +:+ "}".

Definition reading_env : Env :=
  let env := sample_env true "" true true None in
  {| CHROMA_URL := CHROMA_URL env; OLLAMA_URL := OLLAMA_URL env;
     CHROMA_COLLECTION := CHROMA_COLLECTION env; NEO4J_PASS := NEO4J_PASS env;
     json_dumps := json_dumps env;
     json_loads := λ s, if String.eqb s line_with_id
                        then Some (JObj [("id", JStr "m-1"); ("content", JStr "x")])
                        else None;
     set_iter := set_iter env; isoformat_at := isoformat_at env;
     strftime_at := strftime_at env; uuid4_at := uuid4_at env;
     connect_at := connect_at env; append_ok_at := append_ok_at env;
     cypher_ok_at := cypher_ok_at env; unexpired_at := unexpired_at env;
     rows_at := rows_at env; fulltext_at := fulltext_at env;
     heartbeat_at := heartbeat_at env; embed_at := embed_at env;
     chroma_add_at := chroma_add_at env; chroma_query_at := chroma_query_at env |}.

(** An environment whose graph rejects every query. *)
Definition failing_graph_env : Env :=
  let env := sample_env false "secret" true false None in
  {| CHROMA_URL := CHROMA_URL env; OLLAMA_URL := OLLAMA_URL env;
     CHROMA_COLLECTION := CHROMA_COLLECTION env; NEO4J_PASS := NEO4J_PASS env;
     json_dumps := json_dumps env; json_loads := json_loads env;
     set_iter := set_iter env; isoformat_at := isoformat_at env;
     strftime_at := strftime_at env; uuid4_at := uuid4_at env;
     connect_at := connect_at env; append_ok_at := append_ok_at env;
     cypher_ok_at := λ _, false; unexpired_at := unexpired_at env;
     rows_at := rows_at env; fulltext_at := fulltext_at env;
     heartbeat_at := heartbeat_at env; embed_at := embed_at env;
     chroma_add_at := chroma_add_at env; chroma_query_at := chroma_query_at env |}.

Definition search_args (query : string) (limit : option Z) : SearchArgs :=
  {| q_query := Some query; q_limit := limit; q_project := None; q_type := None |}.

Definition list_args (sortBy sortOrder : option string) : ListArgs :=
  {| ls_page := Some 2%Z; ls_pageSize := Some 20%Z; ls_sortBy := sortBy;
     ls_sortOrder := sortOrder; ls_project := None; ls_type := None |}.

Definition content_update (text : string) : Updates :=
  {| u_content := Some (Some text); u_summary := None; u_type := None;
     u_importance := None; u_project := None; u_confidence := None;
     u_decayDays := None |}.

(** * Reasoning about runs *)

Lemma bind_Ok {A B : Type} (c : M A) (f : A → M B) w b w' :
  (c ≫= f) w = (Ok b, w') →
  ∃ a w1, c w = (Ok a, w1) ∧ f a w1 = (Ok b, w').
Proof.
  unfold mbind, M_bind. destruct (c w) as [[a|e] w1]; intros H.
  - eauto.
  - discriminate.
Qed.

Lemma bind_run_Ok {A B : Type} (c : M A) (f : A → M B) w a w1 :
  c w = (Ok a, w1) → (c ≫= f) w = f a w1.
Proof. intros H. unfold mbind, M_bind. by rewrite H. Qed.

Lemma run_preserved {A B : Type} (f : World → B) (c : M A) w r w' :
  preserves f c → c w = (r, w') → f w' = f w.
Proof. intros Hc Hrun. specialize (Hc w). by rewrite Hrun in Hc. Qed.

Tactic Notation "inv_bind" hyp(H) "as" ident(a) ident(w) ident(H1) :=
  apply bind_Ok in H as (a & w & H1 & H).

Section Combinators.

Context {B : Type} (f : World → B).

Lemma preserves_ret {A : Type} (a : A) : preserves f (mret a).
Proof. by intros w. Qed.

Lemma preserves_raise {A : Type} (e : exn) : preserves f (raise (A := A) e).
Proof. by intros w. Qed.

Lemma preserves_get_world : preserves f get_world.
Proof. by intros w. Qed.

Lemma preserves_bind {A C : Type} (c : M A) (k : A → M C) :
  preserves f c → (∀ a, preserves f (k a)) → preserves f (c ≫= k).
Proof.
  intros Hc Hk w. unfold mbind, M_bind. specialize (Hc w).
  destruct (c w) as [[a|e] w1]; simpl in *.
  - by rewrite Hk.
  - done.
Qed.

Lemma preserves_fmap {A C : Type} (g : A → C) (c : M A) :
  preserves f c → preserves f (g <$> c).
Proof. intros Hc. apply preserves_bind; [done | intros; apply preserves_ret]. Qed.

Lemma preserves_try {A : Type} (c : M A) caught (h : M A) :
  preserves f c → preserves f h → preserves f (try_except c caught h).
Proof.
  intros Hc Hh w. unfold try_except. specialize (Hc w).
  destruct (c w) as [[a|e] w1]; simpl in *; [done |].
  destruct (caught e); simpl; [by rewrite Hh | done].
Qed.

Lemma preserves_modify (g : World → World) :
  (∀ w, f (g w) = f w) → preserves f (modify g).
Proof. intros Hg w. apply Hg. Qed.

Lemma preserves_tick (e : event) : ignores_trace f → preserves f (tick e).
Proof. intros Hf w. apply Hf. Qed.

Lemma preserves_for_each {A : Type} (l : list A) (body : A → M unit) :
  (∀ x, preserves f (body x)) → preserves f (for_each l body).
Proof.
  intros Hb. induction l as [|x l IH]; simpl.
  - apply preserves_ret.
  - apply preserves_bind; [apply Hb | intros; apply IH].
Qed.

End Combinators.

Section Totality.

Lemma total_ret {A : Type} (a : A) : total (mret a).
Proof. intros w. by exists a, w. Qed.

Lemma total_get_world : total get_world.
Proof. intros w. by exists w, w. Qed.

Lemma total_modify (g : World → World) : total (modify g).
Proof. intros w. by eexists _, _. Qed.

Lemma total_tick (e : event) : total (tick e).
Proof. intros w. by eexists _, _. Qed.

Lemma total_bind {A C : Type} (c : M A) (k : A → M C) :
  total c → (∀ a, total (k a)) → total (c ≫= k).
Proof.
  intros Hc Hk w. destruct (Hc w) as (a & w1 & Ha).
  rewrite (bind_run_Ok _ _ _ _ _ Ha). apply Hk.
Qed.

Lemma total_try_any {A : Type} (c h : M A) :
  total h → total (try_except c any_exception h).
Proof.
  intros Hh w. unfold try_except.
  destruct (c w) as [[a|e] w1]; simpl; [by exists a, w1 | apply Hh].
Qed.

End Totality.

Section Events.

Context (P : event → Prop).

Lemma emits_ret {A : Type} (a : A) : emits P (mret a).
Proof. intros w. exists []. by rewrite app_nil_r. Qed.

Lemma emits_raise {A : Type} (e : exn) : emits P (raise (A := A) e).
Proof. intros w. exists []. by rewrite app_nil_r. Qed.

Lemma emits_get_world : emits P get_world.
Proof. intros w. exists []. by rewrite app_nil_r. Qed.

Lemma emits_bind {A C : Type} (c : M A) (k : A → M C) :
  emits P c → (∀ a, emits P (k a)) → emits P (c ≫= k).
Proof.
  intros Hc Hk w. unfold mbind, M_bind. destruct (Hc w) as (l1 & H1 & HP1).
  destruct (c w) as [[a|e] w1]; simpl in *.
  - destruct (Hk a w1) as (l2 & H2 & HP2). exists (l1 ++ l2).
    rewrite H2, H1, app_assoc. split; [done | by apply Forall_app].
  - by exists l1.
Qed.

Lemma emits_fmap {A C : Type} (g : A → C) (c : M A) :
  emits P c → emits P (g <$> c).
Proof. intros Hc. apply emits_bind; [done | intros; apply emits_ret]. Qed.

Lemma emits_try {A : Type} (c : M A) caught (h : M A) :
  emits P c → emits P h → emits P (try_except c caught h).
Proof.
  intros Hc Hh w. unfold try_except. destruct (Hc w) as (l1 & H1 & HP1).
  destruct (c w) as [[a|e] w1]; simpl in *; [by exists l1 |].
  destruct (caught e); simpl; [| by exists l1].
  destruct (Hh w1) as (l2 & H2 & HP2). exists (l1 ++ l2).
  rewrite H2, H1, app_assoc. split; [done | by apply Forall_app].
Qed.

Lemma emits_modify (g : World → World) :
  (∀ w, trace (g w) = trace w) → emits P (modify g).
Proof. intros Hg w. exists []. simpl. by rewrite Hg, app_nil_r. Qed.

Lemma emits_tick (e : event) : P e → emits P (tick e).
Proof. intros He w. exists [e]. split; [done | by constructor]. Qed.

End Events.

Section Results.

Context {A : Type} (Q : A → Prop).

Lemma returns_ret (a : A) : Q a → returns Q (mret a).
Proof. intros Ha w a' w' [= <- _]. done. Qed.

Lemma returns_raise e : returns Q (raise e).
Proof. intros w a w' [=]. Qed.

Lemma returns_bind {C : Type} (c : M C) (k : C → M A) :
  (∀ x, returns Q (k x)) → returns Q (c ≫= k).
Proof. intros Hk w b w' H. inv_bind H as x w1 Hc. by eapply Hk. Qed.

Lemma returns_try (c : M A) caught (h : M A) :
  returns Q c → returns Q h → returns Q (try_except c caught h).
Proof.
  intros Hc Hh w a w'. unfold try_except.
  destruct (c w) as [[a'|e] w1] eqn:Hrun.
  - intros [= <- <-]. by eapply Hc.
  - destruct (caught e); [apply Hh | discriminate].
Qed.

End Results.

Create HintDb frame.

#[global] Hint Unfold ignores_trace ignores_driver ignores_graph ignores_markdown
  ignores_chroma ignores_queue_file : frame.

(** Closes [ignores_x f] for a projection [f] of the world. *)
Ltac ign := hnf; intros; reflexivity.

Ltac frame_side := intros; first [ reflexivity | assumption | eauto with frame ].

Ltac frame :=
  repeat first
    [ solve [eauto with frame]
    | match goal with
      | |- preserves _ (mret _) => apply preserves_ret
      | |- preserves _ (raise _) => apply preserves_raise
      | |- preserves _ get_world => apply preserves_get_world
      | |- preserves _ (mbind _ _) => apply preserves_bind; [| intros]
      | |- preserves _ (fmap _ _) => apply preserves_fmap
      | |- preserves _ (try_except _ _ _) => apply preserves_try
      | |- preserves _ (tick _) => apply preserves_tick; solve [frame_side]
      | |- preserves _ (modify _) => apply preserves_modify; solve [frame_side]
      | |- preserves _ (for_each _ _) => apply preserves_for_each; intros
      | |- preserves _ (let _ := _ in _) => cbv zeta
      | |- preserves _ (if ?b then _ else _) => destruct b
      | |- preserves _ (match ?x with _ => _ end) => destruct x
      end ].

Ltac emits :=
  repeat first
    [ solve [eauto]
    | match goal with
      | |- emits _ (mret _) => apply emits_ret
      | |- emits _ (raise _) => apply emits_raise
      | |- emits _ get_world => apply emits_get_world
      | |- emits _ (mbind _ _) => apply emits_bind; [| intros]
      | |- emits _ (fmap _ _) => apply emits_fmap
      | |- emits _ (try_except _ _ _) => apply emits_try
      | |- emits _ (tick _) => apply emits_tick; try reflexivity
      | |- emits _ (modify _) => apply emits_modify; intros; reflexivity
      | |- emits _ (let _ := _ in _) => cbv zeta
      | |- emits _ (if ?b then _ else _) => destruct b eqn:?
      | |- emits _ (match ?x with _ => _ end) => destruct x eqn:?
      end ].

Ltac total :=
  repeat first
    [ solve [eauto]
    | match goal with
      | |- total (mret _) => apply total_ret
      | |- total get_world => apply total_get_world
      | |- total (modify _) => apply total_modify
      | |- total (tick _) => apply total_tick
      | |- total (mbind _ _) => apply total_bind; [| intros]
      | |- total (try_except _ any_exception _) => apply total_try_any
      | |- total (let _ := _ in _) => cbv zeta
      | |- total (if ?b then _ else _) => destruct b
      | |- total (match ?x with _ => _ end) => destruct x
      end ].

Ltac returns :=
  repeat match goal with
    | |- returns _ (mret _) => apply returns_ret
    | |- returns _ (raise _) => apply returns_raise
    | |- returns _ (mbind _ _) => apply returns_bind; intros
    | |- returns _ (try_except _ _ _) => apply returns_try
    | |- returns _ (let _ := _ in _) => cbv zeta
    | |- returns _ (if ?b then _ else _) => destruct b eqn:?
    | |- returns _ (match ?x with _ => _ end) => destruct x eqn:?
    end.

(** ** Lists *)

Lemma sublist_List_filter {A : Type} (p : A → bool) (l : list A) :
  sublist (List.filter p l) l.
Proof.
  induction l as [|x l IH]; simpl; [constructor |].
  destruct (p x); by constructor.
Qed.

Lemma elem_of_List_filter {A : Type} (p : A → bool) (l : list A) (x : A) :
  x ∈ List.filter p l ↔ x ∈ l ∧ p x = true.
Proof. rewrite !list_elem_of_In. apply filter_In. Qed.

(** ** What each operation leaves alone *)

Section OperationFrames.

Context (env : Env) {B : Type} (f : World → B).

Lemma now_iso_preserves : ignores_trace f → preserves f (now_iso env).
Proof. intros Ht. unfold now_iso. frame. Qed.

Lemma now_strftime_preserves fmt : ignores_trace f → preserves f (now_strftime env fmt).
Proof. intros Ht. unfold now_strftime. frame. Qed.

Lemma load_state_preserves : preserves f load_state.
Proof. unfold load_state. frame. Qed.

Lemma get_driver_preserves :
  ignores_trace f → ignores_driver f → preserves f (get_driver env).
Proof. intros Ht Hd. unfold get_driver. frame. Qed.

Lemma session_run_preserves query :
  ignores_trace f → ignores_graph f → preserves f (session_run env query).
Proof. intros Ht Hg. unfold session_run. frame. Qed.

Lemma fulltext_query_preserves index query :
  ignores_trace f → preserves f (fulltext_query env index query).
Proof. intros Ht. unfold fulltext_query. frame. Qed.

Lemma ollama_embed_preserves text : ignores_trace f → preserves f (ollama_embed env text).
Proof. intros Ht. unfold ollama_embed. frame. Qed.

Lemma chroma_health_check_preserves :
  ignores_trace f → preserves f (chroma_health_check env).
Proof. intros Ht. unfold chroma_health_check. frame. Qed.

Lemma chroma_store_preserves id document :
  ignores_trace f → ignores_chroma f → preserves f (chroma_store env id document).
Proof. intros Ht Hc. unfold chroma_store. frame. Qed.

Lemma queue_for_embedding_preserves memory :
  ignores_trace f → ignores_queue_file f →
  preserves f (queue_for_embedding env memory).
Proof.
  intros Ht Hq. unfold queue_for_embedding.
  apply preserves_bind; [by apply now_iso_preserves | intros; frame].
Qed.

Lemma neo4j_store_preserves memory :
  ignores_trace f → ignores_driver f → ignores_graph f →
  preserves f (neo4j_store env memory).
Proof.
  intros Ht Hd Hg. unfold neo4j_store.
  pose proof get_driver_preserves. pose proof session_run_preserves.
  frame.
Qed.

Lemma neo4j_forget_with_reason_preserves memory_id reason :
  ignores_trace f → ignores_driver f → ignores_graph f →
  preserves f (neo4j_forget_with_reason env memory_id reason).
Proof.
  intros Ht Hd Hg. unfold neo4j_forget_with_reason.
  pose proof get_driver_preserves. pose proof session_run_preserves.
  pose proof now_iso_preserves. frame.
Qed.

Lemma markdown_store_preserves memory :
  ignores_trace f → ignores_markdown f → preserves f (markdown_store env memory).
Proof.
  intros Ht Hm. unfold markdown_store, append_block.
  pose proof now_iso_preserves. pose proof now_strftime_preserves. frame.
Qed.

Lemma vector_layer_preserves memory :
  ignores_trace f → ignores_chroma f → ignores_queue_file f →
  preserves f (vector_layer env memory).
Proof.
  intros Ht Hc Hq. unfold vector_layer.
  pose proof ollama_embed_preserves. pose proof chroma_store_preserves.
  pose proof queue_for_embedding_preserves. frame.
Qed.

Lemma similarity_of_preserves d : preserves f (similarity_of d).
Proof. unfold similarity_of. frame. Qed.

Lemma vector_duplicate_preserves content :
  ignores_trace f → preserves f (vector_duplicate env content).
Proof.
  intros Ht. unfold vector_duplicate.
  pose proof ollama_embed_preserves. pose proof similarity_of_preserves. frame.
Qed.

Lemma fulltext_duplicate_preserves content :
  ignores_trace f → ignores_driver f → preserves f (fulltext_duplicate env content).
Proof.
  intros Ht Hd. unfold fulltext_duplicate.
  pose proof get_driver_preserves. pose proof fulltext_query_preserves. frame.
Qed.

Lemma check_duplicates_preserves content mem_type project :
  ignores_trace f → ignores_driver f →
  preserves f (check_duplicates env content mem_type project).
Proof.
  intros Ht Hd. unfold check_duplicates.
  pose proof vector_duplicate_preserves. pose proof fulltext_duplicate_preserves.
  frame.
Qed.

End OperationFrames.

Lemma process_line_preserves env {B : Type} (f : World → B) line acc :
  ignores_trace f → ignores_chroma f → preserves f (process_line env line acc).
Proof.
  intros Ht Hc. unfold process_line, store_entry.
  pose proof (ollama_embed_preserves env f). pose proof (chroma_store_preserves env f).
  frame.
Qed.

Lemma drain_lines_preserves env {B : Type} (f : World → B) lines acc :
  ignores_trace f → ignores_chroma f → preserves f (drain_lines env lines acc).
Proof.
  intros Ht Hc. revert acc. induction lines as [|l ls IH]; intros acc; simpl.
  - apply preserves_ret.
  - apply preserves_bind; [by apply process_line_preserves | intros; apply IH].
Qed.

(** ** What the duplicate check reads and returns *)

Section ReadOnly.

Context (env : Env).






End ReadOnly.





(** * The write-ahead log *)

(** C10.  [wal_flush id] keeps, in their order, exactly the pending entries
    whose id differs from [id], stamps [lastFlush] with the current time and
    leaves the session, queue and stats parts of the state (and every other
    file and store) as they were. *)
Theorem wal_flush_frame env memory_id w :
  let state := current_state w in
  ∃ state',
    wal_flush env memory_id w
      = (Ok tt, with_state_file (Some state') (with_trace (trace w ++ [EvClock]) w)) ∧
    pending (wal state')
      = List.filter (λ m, negb (String.eqb (m_id m) memory_id)) (pending (wal state)) ∧
    (∀ m, m ∈ pending (wal state') ↔ m ∈ pending (wal state) ∧ m_id m ≠ memory_id) ∧
    sublist (pending (wal state')) (pending (wal state)) ∧
    lastFlush (wal state') = Some (isoformat_at env (length (trace w))) ∧
    session state' = session state ∧ queue state' = queue state ∧
    stats state' = stats state.
Proof.
  intros state.
  exists (with_wal
            {| pending := List.filter (λ m, negb (String.eqb (m_id m) memory_id))
                            (pending (wal state));
               lastFlush := Some (isoformat_at env (length (trace w))) |} state).
  split; [reflexivity |]. simpl.
  split; [reflexivity |]. split; [| split; [apply sublist_List_filter | done]].
  intros m. rewrite elem_of_List_filter, negb_true_iff, String.eqb_neq. done.
Qed.

(** ** The layers never abort the call *)

Section OperationsReturn.

Context (env : Env).

Lemma now_iso_total : total (now_iso env).
Proof. unfold now_iso. total. Qed.

Lemma get_driver_total : total (get_driver env).
Proof. unfold get_driver. total. Qed.



Lemma wal_flush_total memory_id : total (wal_flush env memory_id).
Proof. pose proof now_iso_total. unfold wal_flush, load_state, save_state. total. Qed.

Lemma markdown_store_total memory : total (markdown_store env memory).
Proof.
  pose proof now_iso_total.
  unfold markdown_store, append_block, now_strftime. total.
Qed.

Lemma neo4j_store_total memory : total (neo4j_store env memory).
Proof. pose proof get_driver_total. unfold neo4j_store. total. Qed.




End OperationsReturn.


(** The WAL after [store_memory]. *)
Lemma store_memory_wal env memory w out w' :
  store_memory env memory w = (Ok (Stored out), w') →
  ∃ state' w1 w2 w3,
    o_id out = m_id memory ∧
    o_supersedes out = m_supersedes memory ∧
    state_file w' = Some state' ∧
    wal_write memory w = (Ok tt, w1) ∧
    markdown_store env memory w1 = (Ok (l_markdown (o_layers out)), w2) ∧
    neo4j_store env memory w2 = (Ok (l_neo4j (o_layers out)), w3) ∧
    (o_id out ∉ m_id <$> pending (wal state')
     ↔ l_markdown (o_layers out) || l_neo4j (o_layers out) = true) ∧
    (l_markdown (o_layers out) = false → l_neo4j (o_layers out) = false →
     memory ∈ pending (wal state')).
Proof.
  unfold store_memory. intros Hrun.
  inv_bind Hrun as u1 w1 Hwal. inv_bind Hrun as md_ok w2 Hmd.
  inv_bind Hrun as neo_ok w3 Hneo. inv_bind Hrun as vec w4 Hvec.
  inv_bind Hrun as u2 w5 Hflush. inv_bind Hrun as st w6 Hst.
  inv_bind Hrun as now w7 Hnow. inv_bind Hrun as u3 w8 Hsave.
  injection Hrun as <- <-.
  assert (Hw1 : state_file w1 = Some (with_wal
            {| pending := pending (wal (current_state w)) ++ [memory];
               lastFlush := lastFlush (wal (current_state w)) |}
            (current_state w))).
  { unfold wal_write in Hwal. by injection Hwal as _ <-. }
  assert (Hw4 : state_file w4 = state_file w1).
  { rewrite (run_preserved state_file _ _ _ _ (vector_layer_preserves env state_file memory
       ltac:(ign) ltac:(ign) ltac:(ign)) Hvec).
    rewrite (run_preserved state_file _ _ _ _ (neo4j_store_preserves env state_file memory
       ltac:(ign) ltac:(ign) ltac:(ign)) Hneo).
    by rewrite (run_preserved state_file _ _ _ _ (markdown_store_preserves env state_file
       memory ltac:(ign) ltac:(ign)) Hmd). }
  assert (Hw8 : ∃ state', state_file w8 = Some state' ∧
            wal state' = wal (current_state w5)).
  { unfold load_state in Hst. injection Hst as <- <-.
    unfold now_iso in Hnow. injection Hnow as <- <-.
    injection Hsave as _ <-. eexists. split; [reflexivity | done]. }
  destruct Hw8 as (state' & Hs' & Hwal').
  destruct u1. exists state', w1, w2, w3. simpl.
  split; [done |]. split; [done |]. split; [done |]. split; [done |].
  split; [done |]. split; [done |]. rewrite Hwal'.
  destruct (md_ok || neo_ok) eqn:Hok.
  - assert (Hp : pending (wal (current_state w5))
       = List.filter (λ m, negb (String.eqb (m_id m) (m_id memory)))
           (pending (wal (current_state w4)))).
    { unfold wal_flush in Hflush. by injection Hflush as _ <-. }
    rewrite Hp. split.
    + split; [done |]. intros _ Hin. apply list_elem_of_fmap in Hin as (m & Hm & Hin).
      apply elem_of_List_filter in Hin as [_ Hne].
      rewrite Hm in Hne. by rewrite String.eqb_refl in Hne.
    + apply orb_true_iff in Hok. intros -> ->. by destruct Hok.
  - injection Hflush as _ <-. unfold current_state. rewrite Hw4, Hw1. simpl. split.
    + split; [| done]. intros Hnot. exfalso. apply Hnot.
      apply list_elem_of_fmap. exists memory. split; [done |].
      apply elem_of_app. right. by apply list_elem_of_singleton.
    + intros _ _. apply elem_of_app. right. by apply list_elem_of_singleton.
Qed.



(** * The pending-embeddings queue *)

(** C8.  With a non-empty queue and at least ten consecutive failures,
    [drain_queue] answers [skipped-max-failures] with the number of queued
    records and leaves the world, trace included, as it was: no health check,
    no embedding call and no vector write took place. *)
Theorem drain_backoff_gate env w text :
  queue_file w = Some text →
  queue_lines text ≠ [] →
  (MAX_QUEUE_FAILURES ≤ consecutiveFailures (queue (current_state w)))%Z →
  drain_queue env w
  = (Ok {| processed := 0; remaining := length (queue_lines text);
           status := "skipped-max-failures" |}, w).
Proof.
  intros Hq Hne Hmax. unfold drain_queue, mbind, M_bind. simpl. rewrite Hq.
  destruct (queue_lines text) as [|l ls] eqn:Hl; [done |]. simpl.
  apply Z.leb_le in Hmax. unfold current_state in Hmax. by rewrite Hmax.
Qed.

(** C7.  With a non-empty queue and fewer than ten consecutive failures, a
    failed health check makes [drain_queue] save the state with
    [consecutiveFailures] incremented and [lastDrainAttempt] stamped, and
    answer the offline status (the string [chromadb-offline] of the source)
    with no record processed and all of them remaining. *)
Theorem drain_vector_offline env w text :
  queue_file w = Some text →
  queue_lines text ≠ [] →
  (consecutiveFailures (queue (current_state w)) < MAX_QUEUE_FAILURES)%Z →
  (chroma_health_check env w).1 = Ok false →
  ∃ w' state',
    drain_queue env w
    = (Ok {| processed := 0; remaining := length (queue_lines text);
             status := "chromadb-offline" |}, w') ∧
    state_file w' = Some state' ∧
    consecutiveFailures (queue state')
      = (consecutiveFailures (queue (current_state w)) + 1)%Z ∧
    lastDrainAttempt (queue state')
      = Some (isoformat_at env (length (trace (chroma_health_check env w).2))) ∧
    pendingCount (queue state') = pendingCount (queue (current_state w)) ∧
    lastSuccess (queue state') = lastSuccess (queue (current_state w)) ∧
    wal state' = wal (current_state w) ∧
    session state' = session (current_state w) ∧
    stats state' = stats (current_state w) ∧
    queue_file w' = queue_file w.
Proof.
  intros Hq Hne Hlt Hh. unfold drain_queue, mbind, M_bind. simpl. rewrite Hq.
  destruct (queue_lines text) as [|l ls] eqn:Hl; [done |]. simpl.
  apply Z.leb_gt in Hlt. unfold current_state in *. rewrite Hlt.
  pose proof (chroma_health_check_preserves env queue_file ltac:(ign) w) as Hqf.
  destruct (chroma_health_check env w) as [[h|e] wh]; simpl in *; simplify_eq.
  eexists _, _. split; [reflexivity |]. simpl. rewrite Hqf. done.
Qed.

(** The loop body only ever appends the line it handles. *)
Lemma process_line_remaining env line acc w acc' w' :
  process_line env line acc w = (Ok acc', w') →
  acc'.2 = acc.2 ∨ acc'.2 = acc.2 ++ [line].
Proof.
  unfold process_line, store_entry. intros H.
  repeat match type of H with
    | (mret _) _ = _ => injection H as <- <-
    | (raise _) _ = _ => discriminate H
    | (mbind _ _) _ = _ => let a := fresh "a" in let w1 := fresh "w" in
        let H1 := fresh "H" in apply bind_Ok in H as (a & w1 & H1 & H)
    | (match ?x with _ => _ end) _ = _ => destruct x
    | (if ?b then _ else _) _ = _ => destruct b
    | (let _ := _ in _) _ = _ => cbv zeta in H
    end; simpl; auto.
Qed.

Lemma drain_lines_sublist env lines acc w acc' w' :
  drain_lines env lines acc w = (Ok acc', w') →
  ∃ kept, acc'.2 = acc.2 ++ kept ∧ sublist kept lines.
Proof.
  revert acc w. induction lines as [|l ls IH]; intros acc w; simpl.
  - intros [= <- _]. exists []. by rewrite app_nil_r.
  - intros H. inv_bind H as acc1 w1 Hl.
    apply IH in H as (kept & Hk & Hsub).
    apply process_line_remaining in Hl as [Hl | Hl]; rewrite Hk, Hl.
    + exists kept. split; [done | by constructor].
    + exists (l :: kept). split; [by rewrite <- app_assoc | by constructor].
Qed.

Lemma process_line_null_embedding env : keeps_on_null_embedding env.
Proof.
  intros line acc w entry text e w1 Hj Hc He Hnull. unfold process_line.
  rewrite Hj, Hc, (bind_run_Ok _ _ _ _ _ He). by rewrite Hnull.
Qed.

Lemma process_line_failed_upsert env : keeps_on_failed_upsert env.
Proof.
  intros line acc w entry text id metadata e w1 w2 Hj Hc Hi Hm He Hok Hs.
  unfold process_line. rewrite Hj, Hc, (bind_run_Ok _ _ _ _ _ He), Hok, Hi. simpl.
  unfold entry_metadata in Hm.
  destruct (dict_get entry "metadata") as [[| | | | |md]|]; simplify_eq;
    unfold store_entry; cbv zeta; by rewrite (bind_run_Ok _ _ _ _ _ Hs).
Qed.

Lemma process_line_no_id env : drops_without_id env.
Proof.
  intros line acc w entry text e w1 Hj Hc Hi He Hok. unfold process_line.
  by rewrite Hj, Hc, (bind_run_Ok _ _ _ _ _ He), Hok, Hi.
Qed.

(** A line that does not parse, or an entry without content, is dropped. *)
Lemma process_line_unreadable env line acc w :
  json_loads env line = None ∨
  (∃ entry, json_loads env line = Some (JObj entry) ∧ dict_get entry "content" = None) →
  process_line env line acc w = (Ok acc, w).
Proof.
  unfold process_line. intros [-> | (entry & -> & ->)]; reflexivity.
Qed.

Lemma app_singleton_neq {A : Type} (l : list A) (x : A) : l ≠ l ++ [x].
Proof.
  intros H. apply (f_equal length) in H. rewrite length_app in H. simpl in H. lia.
Qed.

(** Every retained line parsed to an entry with content. *)
Lemma process_line_kept_readable env line acc w acc' w' :
  process_line env line acc w = (Ok acc', w') →
  acc'.2 = acc.2 ++ [line] →
  ∃ entry text, json_loads env line = Some (JObj entry)
                ∧ dict_get entry "content" = Some text.
Proof.
  unfold process_line. intros H Hk.
  destruct (json_loads env line) as [[| | | | |entry]|] eqn:Hj;
    try discriminate H.
  - destruct (dict_get entry "content") as [text|] eqn:Hc; [by eauto |].
    injection H as <- _. by apply app_singleton_neq in Hk.
  - injection H as <- _. by apply app_singleton_neq in Hk.
Qed.

Lemma drain_lines_kept_readable env lines acc w acc' w' :
  drain_lines env lines acc w = (Ok acc', w') →
  ∀ kept, acc'.2 = acc.2 ++ kept →
  ∀ line, line ∈ kept →
  ∃ entry text, json_loads env line = Some (JObj entry)
                ∧ dict_get entry "content" = Some text.
Proof.
  revert acc w. induction lines as [|l ls IH]; intros acc w; simpl.
  - intros [= <- _] kept Hk line Hin.
    rewrite <- (app_nil_r acc.2) in Hk at 1. apply app_inv_head in Hk. subst.
    by apply elem_of_nil in Hin.
  - intros H kept Hk line Hin. inv_bind H as acc1 w1 Hl.
    pose proof (drain_lines_sublist _ _ _ _ _ _ H) as (k1 & Hk1 & _).
    pose proof (process_line_remaining _ _ _ _ _ _ Hl) as [Hr | Hr].
    + eapply (IH _ _ H kept); [by rewrite Hr | done].
    + rewrite Hk1, Hr, <- app_assoc in Hk. apply app_inv_head in Hk. subst kept.
      apply elem_of_cons in Hin as [-> | Hin].
      * by eapply process_line_kept_readable.
      * eapply (IH _ _ H k1); [done | done].
Qed.

Lemma drain_lines_app env l1 l2 acc w acc' w' :
  drain_lines env (l1 ++ l2) acc w = (Ok acc', w') →
  ∃ acc1 w1, drain_lines env l1 acc w = (Ok acc1, w1)
             ∧ drain_lines env l2 acc1 w1 = (Ok acc', w').
Proof.
  revert acc w. induction l1 as [|l l1 IH]; intros acc w; simpl.
  - intros H. by exists acc, w.
  - intros H. inv_bind H as acc0 w0 Hl.
    apply IH in H as (acc1 & w1 & H1 & H2). exists acc1, w1.
    split; [by rewrite (bind_run_Ok _ _ _ _ _ Hl) | done].
Qed.

Lemma drain_lines_in_turn env lines w n kept w' :
  drain_lines env lines (0, []) w = (Ok (n, kept), w') →
  each_record_in_turn env lines w kept.
Proof.
  intros H before line after ->.
  apply drain_lines_app in H as (acc_b & w_b & Hb & H). simpl in H.
  inv_bind H as acc_l w_l Hl.
  pose proof (drain_lines_sublist _ _ _ _ _ _ Hb) as (kb & Hkb & Hsb).
  pose proof (drain_lines_sublist _ _ _ _ _ _ H) as (ka & Hka & Hsa).
  simpl in *. subst. exists acc_b, w_b, acc_l, w_l, ka.
  repeat split; try done; by rewrite Hkb.
Qed.

(** What holds of a drain that passes the health check and completes: it
    rewrites the queue with a subsequence of its lines, in file order; every
    line it keeps parsed to an entry with a content; the state then has
    [consecutiveFailures] at 0, [lastSuccess] and [lastDrainAttempt]
    stamped and [pendingCount] at the number of lines kept, which is also
    the [remaining] of the answer.  Every record goes through the loop body
    in its turn, and what the body appends is never removed: the loop keeps
    the line whose embedding comes back empty and the line of a well-formed
    record that the vector store refuses, and it drops the line of a record
    without id once its embedding succeeded. *)
Theorem drain_keeps_failed_records env w text r w' :
  queue_file w = Some text →
  queue_lines text ≠ [] →
  (consecutiveFailures (queue (current_state w)) < MAX_QUEUE_FAILURES)%Z →
  (chroma_health_check env w).1 = Ok true →
  drain_queue env w = (Ok r, w') →
  ∃ kept state' w_loop,
    drain_lines env (queue_lines text) (0, []) (chroma_health_check env w).2
      = (Ok (processed r, kept), w_loop) ∧
    sublist kept (queue_lines text) ∧
    each_record_in_turn env (queue_lines text) (chroma_health_check env w).2 kept ∧
    (∀ line, line ∈ kept →
       ∃ entry content, json_loads env line = Some (JObj entry)
                        ∧ dict_get entry "content" = Some content) ∧
    queue_file w' = Some (render_queue kept) ∧
    state_file w' = Some state' ∧
    consecutiveFailures (queue state') = 0%Z ∧
    lastSuccess (queue state') = Some (isoformat_at env (length (trace w_loop))) ∧
    lastDrainAttempt (queue state')
      = Some (isoformat_at env (S (length (trace w_loop)))) ∧
    pendingCount (queue state') = Z.of_nat (length kept) ∧
    remaining r = length kept ∧
    status r = "ok" ∧
    wal state' = wal (current_state w) ∧
    session state' = session (current_state w) ∧
    stats state' = stats (current_state w) ∧
    keeps_on_null_embedding env ∧
    keeps_on_failed_upsert env ∧
    drops_without_id env.
Proof.
  intros Hq Hne Hlt Hh. unfold drain_queue.
  rewrite (bind_run_Ok get_world _ w w w eq_refl), Hq.
  destruct (queue_lines text) as [|l ls] eqn:Hl; [done |]. clear Hne.
  generalize dependent (l :: ls). intros lines _.
  rewrite (bind_run_Ok load_state _ w _ w eq_refl).
  apply Z.leb_gt in Hlt. unfold current_state in *. rewrite Hlt.
  destruct (chroma_health_check env w) as [[h|e] wh] eqn:Hrun; simpl in *; simplify_eq.
  rewrite (bind_run_Ok _ _ _ _ _ Hrun). simpl. intros H.
  inv_bind H as acc wl Hloop. destruct acc as [n kept].
  inv_bind H as u1 wq Hwrite. injection Hwrite as _ <-.
  inv_bind H as t1 w1 Ht1. injection Ht1 as <- <-.
  inv_bind H as t2 w2 Ht2. injection Ht2 as <- <-.
  inv_bind H as u2 w3 Hsave. injection Hsave as _ <-.
  injection H as <- <-. simpl.
  exists kept. eexists. exists wl.
  pose proof (drain_lines_sublist _ _ _ _ _ _ Hloop) as (k & Hk & Hsub).
  simpl in Hk. subst k.
  split; [done |]. split; [done |].
  split; [by eapply drain_lines_in_turn |].
  split; [by eapply (drain_lines_kept_readable _ _ _ _ _ _ Hloop kept) |].
  split; [done |]. split; [reflexivity |]. simpl.
  rewrite length_app, Nat.add_1_r.
  repeat (split; [done |]).
  split; [apply process_line_null_embedding |].
  split; [apply process_line_failed_upsert | apply process_line_no_id].
Qed.

(** C6, where the code departs from it.  A queued line that is JSON and not
    a mapping is a malformed record, and the drain does not drop it: the
    subscript raises a [TypeError] that the loop does not catch, the drain
    aborts right after the health check, and neither the queue nor the state
    is rewritten. *)
Theorem drain_aborts_on_non_mapping env w text line rest v :
  queue_file w = Some text →
  queue_lines text = line :: rest →
  (consecutiveFailures (queue (current_state w)) < MAX_QUEUE_FAILURES)%Z →
  (chroma_health_check env w).1 = Ok true →
  json_loads env line = Some v →
  (∀ entry, v ≠ JObj entry) →
  drain_queue env w = (Raise TypeError, (chroma_health_check env w).2) ∧
  queue_file (chroma_health_check env w).2 = queue_file w ∧
  state_file (chroma_health_check env w).2 = state_file w.
Proof.
  intros Hq Hl Hlt Hh Hj Hv. split; [| split].
  - unfold drain_queue. rewrite (bind_run_Ok get_world _ w w w eq_refl), Hq, Hl.
    rewrite (bind_run_Ok load_state _ w _ w eq_refl).
    apply Z.leb_gt in Hlt. unfold current_state in Hlt. rewrite Hlt.
    destruct (chroma_health_check env w) as [[h|e] wh] eqn:Hrun; simpl in *;
      simplify_eq.
    rewrite (bind_run_Ok _ _ _ _ _ Hrun). simpl.
    unfold mbind, M_bind, process_line. rewrite Hj.
    destruct v; try reflexivity. by destruct (Hv fields).
  - apply (chroma_health_check_preserves env queue_file). ign.
  - apply (chroma_health_check_preserves env state_file). ign.
Qed.

(** * Fulltext queries *)

Lemma lucene_escape_well_escaped s : well_escaped (lucene_escape s) = true.
Proof.
  induction s as [|c s IH]; [done |]. simpl.
  destruct (lucene_special c) eqn:Hc.
  - simpl. by rewrite Hc, IH.
  - assert (c ≠ "\"%char) by (by intros ->).
    destruct c as [[] [] [] [] [] [] [] []]; simpl in *; rewrite ?IH; try done.
    all: try (rewrite Hc; done).
Qed.

Lemma get_driver_connects env q : emits (sends_only q) (get_driver env).
Proof. unfold get_driver. emits. by left. Qed.

(** The fallback of the duplicate check escapes its query and sends nothing
    when nothing is left of it. *)
Lemma fulltext_duplicate_escapes env content :
  emits (sends_only (lucene_escape (str_take 200 content)))
    (fulltext_duplicate env content).
Proof.
  pose proof (get_driver_connects env). unfold fulltext_duplicate, fulltext_query.
  emits. right. split; [done |]. by apply String.eqb_neq.
Qed.

(** So does [cmd_summarize] with its topic. *)
Lemma cmd_summarize_escapes env args topic :
  truthy (s_topic args) = Some topic →
  emits (sends_only (lucene_escape topic)) (cmd_summarize env args).
Proof.
  intros Ht. pose proof (get_driver_connects env).
  unfold cmd_summarize, fulltext_query. rewrite Ht.
  emits. right. split; [done |]. by apply String.eqb_neq.
Qed.

(** C5, where the code departs from it.  [neo4j_search], the surface behind
    [search] and [forget] by query, hands the query to the memory index as
    it received it. *)
Theorem neo4j_search_sends_raw_query env query w :
  driver w = true →
  ∃ rest,
    trace (neo4j_search env query w).2
    = trace w ++ EvFulltext "memory_fulltext" query :: rest.
Proof.
  intros Hd. unfold neo4j_search, get_driver, mbind, M_bind, try_except, fmap, M_fmap,
    fulltext_query, mbind, M_bind. simpl. rewrite Hd. simpl.
  destruct (fulltext_at env (length (trace w)) "memory_fulltext" query) as [rows|]; simpl.
  - destruct (fulltext_at env _ "entity_fulltext" query) as [rows'|]; simpl;
      rewrite <- app_assoc; by eexists.
  - by eexists.
Qed.

(** * Maintenance *)

(** [maxAgeDays] is read and never used. *)
Lemma cmd_maintain_ignores_max_age env a1 a2 minImp w :
  cmd_maintain env {| maxAgeDays := a1; minImportance := minImp |} w
  = cmd_maintain env {| maxAgeDays := a2; minImportance := minImp |} w.
Proof. reflexivity. Qed.

(** C2, where the code departs from it.  [cmd_maintain] prunes every active
    memory below the importance threshold that was created before the
    moment of the call, whatever [maxAgeDays] says. *)
Theorem maintain_prunes_whatever_the_age env args w id n :
  driver w = true →
  cypher_ok_at env (length (trace w) + 2) = true →
  memories (graph w) !! id = Some n →
  active env (length (trace w) + 2) n = true →
  importance_below (default 3%Z (minImportance args)) n = true →
  created_before (strftime_at env (length (trace w)) "%Y-%m-%dT%H:%M:%SZ") n = true →
  memories (graph (cmd_maintain env args w).2) !! id
  = Some (forgotten_node (isoformat_at env (length (trace w) + 1))
            (Some "maintenance-pruned") n).
Proof.
  intros Hd Hok Hn Ha Hi Hc.
  unfold cmd_maintain, get_driver, try_except, now_strftime, now_iso, session_run,
    mbind, M_bind. simpl. rewrite Hd. simpl.
  rewrite !length_app. simpl. rewrite <- Nat.add_assoc. simpl.
  rewrite Hok. simpl. rewrite lookup_fmap, Hn. simpl.
  unfold prune_node, prunable. by rewrite Hi, Hc, Ha.
Qed.

(** * Forgotten memories *)

Lemma forgotten_node_tombstone now reason n : tombstone (forgotten_node now reason n).
Proof. intros _. simpl. eauto. Qed.

Lemma prune_node_tombstone env t minImp cutoff now n :
  tombstone n → tombstone (prune_node env t minImp cutoff now n).
Proof.
  unfold prune_node. destruct (prunable _ _ _ _ _); [| done].
  intros _. apply forgotten_node_tombstone.
Qed.

(** An explicit forget keeps the invariant. *)
Lemma forget_keeps_tombstones now reason id g :
  tombstones g → tombstones (alter_memory (forgotten_node now reason) id g).
Proof.
  intros Hg id' n. unfold alter_memory. simpl. rewrite lookup_alter.
  destruct (decide (id = id')) as [<- | Hne].
  - destruct (memories g !! id) as [n0|]; simpl; [| done].
    intros [= <-]. apply forgotten_node_tombstone.
  - apply Hg.
Qed.

(** So does the pruning query. *)
Lemma prune_keeps_tombstones env minImp cutoff now t g :
  tombstones g → tombstones (prune env minImp cutoff now t g).
Proof.
  intros Hg id n. unfold prune. simpl. rewrite lookup_fmap.
  destruct (memories g !! id) as [n0|] eqn:Hn; simpl; [| done].
  intros [= <-]. apply prune_node_tombstone. by eapply Hg.
Qed.

(** The supersedes query sets [forgotten] and [deleteReason] and nothing else. *)
Lemma mark_superseded_keeps_content newId oldId g new old :
  memories g !! newId = Some new →
  memories g !! oldId = Some old →
  memories (mark_superseded newId oldId g) !! oldId = Some (superseded_node newId old).
Proof.
  intros Hnew Hold. unfold mark_superseded. rewrite Hnew, Hold. simpl.
  by rewrite lookup_insert_eq.
Qed.

(** C4, where the code departs from it.  Storing a memory that supersedes
    [m-old] marks [m-old] forgotten with its reason, and leaves its content
    and summary in place and [forgottenAt] absent. *)
Theorem supersede_leaves_content :
  let run := neo4j_store (sample_env false "secret" true false None)
               superseding_memory world_with_memory in
  run.1 = Ok true ∧
  ∃ old, memories (graph run.2) !! "m-old" = Some old ∧
         n_forgotten old = Some true ∧
         n_deleteReason old = Some "superseded by m-new" ∧
         n_content old = Some "The API key is in vault" ∧
         n_summary old = Some "The API key" ∧
         n_forgottenAt old = None ∧
         ¬ tombstone old.
Proof.
  split; [by vm_compute |].
  exists (superseded_node "m-new" (sample_node "2026-11-02T10:00:00+00:00" 1)).
  split; [by vm_compute |]. repeat (split; [reflexivity |]).
  intros H. by destruct (H eq_refl) as [? _].
Qed.

(** * The extractor *)




Lemma all_chars_impl (p q : ascii → bool) s :
  (∀ c, p c = true → q c = true) → all_chars p s = true → all_chars q s = true.
Proof.
  intros Hpq. induction s as [|c s IH]; simpl; [done |].
  rewrite !andb_true_iff. intros [Hc Hs]. auto.
Qed.

Lemma all_chars_app p a b :
  all_chars p (a +:+ b) = all_chars p a && all_chars p b.
Proof. induction a as [|c a IH]; simpl; [done |]. by rewrite IH, andb_assoc. Qed.















Lemma elem_of_insert_by_key x y l : x ∈ insert_by_key y l ↔ x = y ∨ x ∈ l.
Proof.
  induction l as [|z l IH]; simpl.
  - by rewrite elem_of_cons.
  - destruct (key_leb _ _); [by rewrite elem_of_cons |].
    rewrite !elem_of_cons, IH. tauto.
Qed.

Lemma elem_of_sorted_by_key x l : x ∈ sorted_by_key l ↔ x ∈ l.
Proof.
  unfold sorted_by_key. induction l as [|y l IH]; simpl; [done |].
  by rewrite elem_of_insert_by_key, IH, elem_of_cons.
Qed.

Lemma elem_of_merge keep l st x :
  x ∈ (fold_left (merge_step keep) l st).2 → x ∈ st.2 ∨ (x ∈ l ∧ keep x = true).
Proof.
  revert st. induction l as [|e l IH]; intros st; simpl; [by left |].
  intros H. apply IH in H as [H | [H Hk]].
  - unfold merge_step in H. destruct (keep e && negb (mem e st.1)) eqn:Hc; simpl in H.
    + apply elem_of_app in H as [H | H]; [by left |].
      apply list_elem_of_singleton in H as ->. right.
      apply andb_true_iff in Hc as [Hc _]. split; [by left | done].
    + by left.
  - right. split; [by right | done].
Qed.

Section ExtractorFacts.

Variable dumps : jdict → string.
Variable iter : list string → list string.
(** The iteration of a set yields elements of the set. *)
Hypothesis iter_sound : ∀ l x, x ∈ iter l → x ∈ l.


Lemma sorted_generic_elem c x :
  x ∈ sorted_generic dumps iter c →
  x ∈ generic_candidates dumps c ∧ keep_generic x = true.
Proof.
  unfold sorted_generic. rewrite elem_of_sorted_by_key. intros H.
  apply iter_sound, elem_of_List_filter in H as [H Hk].
  by apply iter_sound in H.
Qed.




End ExtractorFacts.

(** * The statements at sample inputs *)





Lemma drain_backoff_gate_witness :
  let env := sample_env true "" true true None in
  let w := world_with_queue 10 in
  let text := line_without_id +:+ newline in
  queue_file w = Some text ∧
  queue_lines text ≠ [] ∧
  (MAX_QUEUE_FAILURES ≤ consecutiveFailures (queue (current_state w)))%Z ∧
  drain_queue env w
  = (Ok {| processed := 0; remaining := length (queue_lines text);
           status := "skipped-max-failures" |}, w).
Proof.
  intros env w text.
  assert (H1 : queue_file w = Some text) by reflexivity.
  assert (H2 : queue_lines text ≠ []) by (vm_compute; discriminate).
  assert (H3 : (MAX_QUEUE_FAILURES ≤ consecutiveFailures (queue (current_state w)))%Z)
    by (vm_compute; discriminate).
  repeat (split; [assumption |]).
  exact (drain_backoff_gate env w text H1 H2 H3).
Defined.

Lemma drain_vector_offline_witness :
  let env := sample_env true "" false false None in
  let w := world_with_queue 2 in
  let text := line_without_id +:+ newline in
  queue_file w = Some text ∧
  queue_lines text ≠ [] ∧
  (consecutiveFailures (queue (current_state w)) < MAX_QUEUE_FAILURES)%Z ∧
  (chroma_health_check env w).1 = Ok false ∧
  ∃ w' state',
    drain_queue env w
    = (Ok {| processed := 0; remaining := length (queue_lines text);
             status := "chromadb-offline" |}, w') ∧
    state_file w' = Some state' ∧
    consecutiveFailures (queue state')
      = (consecutiveFailures (queue (current_state w)) + 1)%Z ∧
    lastDrainAttempt (queue state')
      = Some (isoformat_at env (length (trace (chroma_health_check env w).2))) ∧
    pendingCount (queue state') = pendingCount (queue (current_state w)) ∧
    lastSuccess (queue state') = lastSuccess (queue (current_state w)) ∧
    wal state' = wal (current_state w) ∧
    session state' = session (current_state w) ∧
    stats state' = stats (current_state w) ∧
    queue_file w' = queue_file w.
Proof.
  intros env w text.
  assert (H1 : queue_file w = Some text) by reflexivity.
  assert (H2 : queue_lines text ≠ []) by (vm_compute; discriminate).
  assert (H3 : (consecutiveFailures (queue (current_state w)) < MAX_QUEUE_FAILURES)%Z)
    by (vm_compute; reflexivity).
  assert (H4 : (chroma_health_check env w).1 = Ok false) by reflexivity.
  repeat (split; [assumption |]).
  exact (drain_vector_offline env w text H1 H2 H3 H4).
Defined.

(** With the vector store up and the embedder down, the record without id,
    which is not well formed, stays in the queue. *)
Lemma drain_keeps_record_without_id :
  let env := sample_env true "" true false None in
  let run := drain_queue env (world_with_queue 0) in
  ¬ well_formed_record env line_without_id ∧
  run.1 = Ok {| processed := 0; remaining := 1; status := "ok" |} ∧
  queue_file run.2 = Some (line_without_id +:+ newline) ∧
  line_without_id ∈ queue_lines (line_without_id +:+ newline).
Proof.
  intros env run. split; [| split; [by vm_compute | split; [by vm_compute |]]].
  - intros (entry & id & text & metadata & Hj & Hid & _).
    vm_compute in Hj. injection Hj as <-. discriminate Hid.
  - vm_compute. apply list_elem_of_here.
Qed.

Lemma drain_keeps_failed_records_witness :
  let env := sample_env true "" true false None in
  let w := world_with_queue 0 in
  let text := line_without_id +:+ newline in
  let r := {| processed := 0; remaining := 1; status := "ok" |} in
  let w' := (drain_queue env w).2 in
  queue_file w = Some text ∧
  queue_lines text ≠ [] ∧
  (consecutiveFailures (queue (current_state w)) < MAX_QUEUE_FAILURES)%Z ∧
  (chroma_health_check env w).1 = Ok true ∧
  drain_queue env w = (Ok r, w') ∧
  ∃ kept state' w_loop,
    drain_lines env (queue_lines text) (0, []) (chroma_health_check env w).2
      = (Ok (processed r, kept), w_loop) ∧
    sublist kept (queue_lines text) ∧
    each_record_in_turn env (queue_lines text) (chroma_health_check env w).2 kept ∧
    (∀ line, line ∈ kept →
       ∃ entry content, json_loads env line = Some (JObj entry)
                        ∧ dict_get entry "content" = Some content) ∧
    queue_file w' = Some (render_queue kept) ∧
    state_file w' = Some state' ∧
    consecutiveFailures (queue state') = 0%Z ∧
    lastSuccess (queue state') = Some (isoformat_at env (length (trace w_loop))) ∧
    lastDrainAttempt (queue state')
      = Some (isoformat_at env (S (length (trace w_loop)))) ∧
    pendingCount (queue state') = Z.of_nat (length kept) ∧
    remaining r = length kept ∧
    status r = "ok" ∧
    wal state' = wal (current_state w) ∧
    session state' = session (current_state w) ∧
    stats state' = stats (current_state w) ∧
    keeps_on_null_embedding env ∧
    keeps_on_failed_upsert env ∧
    drops_without_id env.
Proof.
  intros env w text r w'.
  assert (H1 : queue_file w = Some text) by reflexivity.
  assert (H2 : queue_lines text ≠ []) by (vm_compute; discriminate).
  assert (H3 : (consecutiveFailures (queue (current_state w)) < MAX_QUEUE_FAILURES)%Z)
    by (vm_compute; reflexivity).
  assert (H4 : (chroma_health_check env w).1 = Ok true) by reflexivity.
  assert (H5 : drain_queue env w = (Ok r, w')) by (vm_compute; reflexivity).
  repeat (split; [assumption |]).
  exact (drain_keeps_failed_records env w text r w' H1 H2 H3 H4 H5).
Defined.

(** The query [a:b] reaches the index with its colon unescaped. *)
Lemma neo4j_search_sends_raw_query_witness :
  let env := sample_env false "secret" true false None in
  driver world_with_memory = true ∧
  lucene_escape "a:b" ≠ "a:b" ∧
  ∃ rest,
    trace (neo4j_search env "a:b" world_with_memory).2
    = trace world_with_memory ++ EvFulltext "memory_fulltext" "a:b" :: rest.
Proof.
  intros env. split; [reflexivity |]. split; [discriminate |].
  apply (neo4j_search_sends_raw_query env "a:b" world_with_memory). reflexivity.
Defined.

(** A memory of importance 1 written the day before is pruned by a
    maintenance with [maxAgeDays] at 90. *)
Lemma maintain_prunes_whatever_the_age_witness :
  let env := sample_env false "secret" true false None in
  let args := {| maxAgeDays := Some 90%Z; minImportance := Some 3%Z |} in
  let n := sample_node "2026-11-02T10:00:00+00:00" 1 in
  let w := world_with_memory in
  driver w = true ∧
  cypher_ok_at env (length (trace w) + 2) = true ∧
  memories (graph w) !! "m-old" = Some n ∧
  active env (length (trace w) + 2) n = true ∧
  importance_below (default 3%Z (minImportance args)) n = true ∧
  created_before (strftime_at env (length (trace w)) "%Y-%m-%dT%H:%M:%SZ") n = true ∧
  memories (graph (cmd_maintain env args w).2) !! "m-old"
  = Some (forgotten_node (isoformat_at env (length (trace w) + 1))
            (Some "maintenance-pruned") n).
Proof.
  intros env args n w.
  assert (H1 : driver w = true) by reflexivity.
  assert (H2 : cypher_ok_at env (length (trace w) + 2) = true) by reflexivity.
  assert (H3 : memories (graph w) !! "m-old" = Some n) by (vm_compute; reflexivity).
  assert (H4 : active env (length (trace w) + 2) n = true) by reflexivity.
  assert (H5 : importance_below (default 3%Z (minImportance args)) n = true)
    by reflexivity.
  assert (H6 : created_before
                 (strftime_at env (length (trace w)) "%Y-%m-%dT%H:%M:%SZ") n = true)
    by (vm_compute; reflexivity).
  repeat (split; [assumption |]).
  exact (maintain_prunes_whatever_the_age env args w "m-old" n H1 H2 H3 H4 H5 H6).
Defined.

(** A queue holding the line [[1]], with the vector store up. *)
Lemma drain_aborts_on_non_mapping_witness :
  let env := sample_env true "" true true None in
  let w := world_with_line line_not_a_mapping 0 in
  let text := line_not_a_mapping +:+ newline in
  let v := JArr [JInt 1] in
  queue_file w = Some text ∧
  queue_lines text = [line_not_a_mapping] ∧
  (consecutiveFailures (queue (current_state w)) < MAX_QUEUE_FAILURES)%Z ∧
  (chroma_health_check env w).1 = Ok true ∧
  json_loads env line_not_a_mapping = Some v ∧
  (∀ entry, v ≠ JObj entry) ∧
  drain_queue env w = (Raise TypeError, (chroma_health_check env w).2) ∧
  queue_file (chroma_health_check env w).2 = queue_file w ∧
  state_file (chroma_health_check env w).2 = state_file w.
Proof.
  intros env w text v.
  assert (H1 : queue_file w = Some text) by reflexivity.
  assert (H2 : queue_lines text = [line_not_a_mapping]) by (vm_compute; reflexivity).
  assert (H3 : (consecutiveFailures (queue (current_state w)) < MAX_QUEUE_FAILURES)%Z)
    by (vm_compute; reflexivity).
  assert (H4 : (chroma_health_check env w).1 = Ok true) by reflexivity.
  assert (H5 : json_loads env line_not_a_mapping = Some v) by reflexivity.
  assert (H6 : ∀ entry, v ≠ JObj entry) by discriminate.
  repeat (split; [assumption |]).
  exact (drain_aborts_on_non_mapping env w text line_not_a_mapping [] v
           H1 H2 H3 H4 H5 H6).
Defined.

(** * More frames *)

Lemma neo4j_search_preserves env {B : Type} (f : World → B) query :
  ignores_trace f → ignores_driver f → preserves f (neo4j_search env query).
Proof.
  intros Ht Hd. unfold neo4j_search.
  pose proof (get_driver_preserves env f). pose proof (fulltext_query_preserves env f).
  frame.
Qed.

(** * The stores only grow *)

Section Advances.

Context (R : World → World → Prop) `{!PreOrder R}.

Lemma advances_ret {A : Type} (a : A) : advances R (mret a).
Proof. intros w. simpl. reflexivity. Qed.

Lemma advances_raise {A : Type} (e : exn) : advances R (raise (A := A) e).
Proof. intros w. simpl. reflexivity. Qed.

Lemma advances_get_world : advances R get_world.
Proof. intros w. simpl. reflexivity. Qed.

Lemma advances_bind {A C : Type} (c : M A) (k : A → M C) :
  advances R c → (∀ a, advances R (k a)) → advances R (c ≫= k).
Proof.
  intros Hc Hk w. unfold mbind, M_bind. specialize (Hc w).
  destruct (c w) as [[a|e] w1]; simpl in *; [| done].
  etrans; [exact Hc | apply Hk].
Qed.

Lemma advances_fmap {A C : Type} (g : A → C) (c : M A) :
  advances R c → advances R (g <$> c).
Proof. intros Hc. apply advances_bind; [done | intros; apply advances_ret]. Qed.

Lemma advances_try {A : Type} (c : M A) caught (h : M A) :
  advances R c → advances R h → advances R (try_except c caught h).
Proof.
  intros Hc Hh w. unfold try_except. specialize (Hc w).
  destruct (c w) as [[a|e] w1]; simpl in *; [done |].
  destruct (caught e); simpl; [| done]. etrans; [exact Hc | apply Hh].
Qed.

Lemma advances_modify (g : World → World) :
  (∀ w, R w (g w)) → advances R (modify g).
Proof. intros Hg w. apply Hg. Qed.

Lemma advances_tick (e : event) :
  (∀ t w, R w (with_trace t w)) → advances R (tick e).
Proof. intros Ht w. apply Ht. Qed.

Lemma advances_for_each {A : Type} (l : list A) (body : A → M unit) :
  (∀ x, advances R (body x)) → advances R (for_each l body).
Proof.
  intros Hb. induction l as [|x l IH]; simpl.
  - apply advances_ret.
  - apply advances_bind; [apply Hb | intros; apply IH].
Qed.

End Advances.

#[global] Instance graph_grows_preorder : PreOrder graph_grows.
Proof.
  split.
  - intros g. split; [intros id n Hn; by exists n | done].
  - intros g1 g2 g3 [Hn12 He12] [Hn23 He23]. split; [| by auto].
    intros id n Hn. destruct (Hn12 id n Hn) as (n2 & Hn2 & Hf2).
    destruct (Hn23 id n2 Hn2) as (n3 & Hn3 & Hf3). exists n3. by auto.
Qed.

#[global] Instance stores_grow_preorder : PreOrder stores_grow.
Proof.
  split.
  - intros w. split; [reflexivity | split; reflexivity].
  - intros w1 w2 w3 (Hg12 & Hm12 & Hc12) (Hg23 & Hm23 & Hc23).
    split; [by etrans | split; by etrans].
Qed.

Lemma stores_grow_same w w' :
  graph w' = graph w → markdown w' = markdown w → chroma w' = chroma w →
  stores_grow w w'.
Proof.
  intros Hg Hm Hc. unfold stores_grow. rewrite Hg, Hm, Hc.
  split; [reflexivity | split; reflexivity].
Qed.

Lemma preserves_stores_grow {A : Type} (c : M A) :
  preserves graph c → preserves markdown c → preserves chroma c →
  advances stores_grow c.
Proof. intros Hg Hm Hc w. by apply stores_grow_same. Qed.

Lemma add_edge_keeps e l e' : e' ∈ l → e' ∈ add_edge e l.
Proof.
  unfold add_edge. destruct (decide (e ∈ l)); [done |].
  intros H. apply elem_of_app. by left.
Qed.

Lemma graph_grows_alter f id g :
  (∀ n, n_forgotten n = Some true → n_forgotten (f n) = Some true) →
  graph_grows g (alter_memory f id g).
Proof.
  intros Hf. split; [| done]. intros id' n Hn. simpl.
  destruct (decide (id = id')) as [->|Hne].
  - exists (f n). rewrite lookup_alter_eq, Hn. by auto.
  - exists n. rewrite lookup_alter_ne by done. by auto.
Qed.

Lemma graph_grows_merge m g : graph_grows g (merge_memory m g).
Proof.
  split; [| done]. intros id n Hn. unfold merge_memory. simpl.
  destruct (decide (m_id m = id)) as [<-|Hne].
  - rewrite lookup_insert_eq, Hn. eexists. split; [reflexivity | done].
  - exists n. rewrite lookup_insert_ne by done. by auto.
Qed.

Lemma graph_grows_link memId kind target g : graph_grows g (link memId kind target g).
Proof.
  unfold link. destruct (memories g !! memId) as [m|]; [| reflexivity].
  split; [intros id n Hn; by exists n |]. intros e. apply add_edge_keeps.
Qed.

Lemma graph_grows_supersede newId oldId g :
  graph_grows g (mark_superseded newId oldId g).
Proof.
  unfold mark_superseded.
  destruct (memories g !! newId) as [m|]; [| reflexivity].
  destruct (memories g !! oldId) as [old|] eqn:Hold; [| reflexivity].
  split; [| intros e; apply add_edge_keeps]. intros id n Hn. simpl.
  destruct (decide (oldId = id)) as [<-|Hne].
  - rewrite lookup_insert_eq. eexists. split; [reflexivity | done].
  - exists n. rewrite lookup_insert_ne by done. by auto.
Qed.

Lemma graph_grows_prune env t minImp cutoff now g :
  graph_grows g (prune env minImp cutoff now t g).
Proof.
  split; [| done]. intros id n Hn. unfold prune. simpl.
  rewrite lookup_fmap, Hn. simpl. eexists. split; [reflexivity |].
  unfold prune_node. by destruct (prunable env t minImp cutoff n).
Qed.

Lemma stores_grow_trace t w : stores_grow w (with_trace t w).
Proof. by apply stores_grow_same. Qed.

Create HintDb grows.

Ltac grows :=
  repeat first
    [ solve [eauto with grows]
    | match goal with
      | |- advances _ (mret _) => apply advances_ret; apply _
      | |- advances _ (raise _) => apply advances_raise; apply _
      | |- advances _ get_world => apply advances_get_world; apply _
      | |- advances _ (mbind _ _) => apply advances_bind; [apply _ | | intros]
      | |- advances _ (fmap _ _) => apply advances_fmap; [apply _ |]
      | |- advances _ (try_except _ _ _) => apply advances_try; [apply _ | |]
      | |- advances _ (tick _) =>
          apply advances_tick; apply stores_grow_trace
      | |- advances _ (for_each _ _) => apply advances_for_each; [apply _ | intros]
      | |- advances _ (let _ := _ in _) => cbv zeta
      | |- advances _ (if ?b then _ else _) => destruct b
      | |- advances _ (match ?x with _ => _ end) => destruct x
      end ].

Section StoresGrow.

Context (env : Env).

Lemma session_run_grows query :
  (∀ t g, graph_grows g (query t g)) → advances stores_grow (session_run env query).
Proof.
  intros Hq. unfold session_run. grows.
  apply advances_modify. intros w. split; [apply Hq | split; reflexivity].
Qed.

Lemma get_driver_grows : advances stores_grow (get_driver env).
Proof.
  apply preserves_stores_grow; apply get_driver_preserves; ign.
Qed.

Lemma now_iso_grows : advances stores_grow (now_iso env).
Proof. apply preserves_stores_grow; apply now_iso_preserves; ign. Qed.

Lemma now_strftime_grows fmt : advances stores_grow (now_strftime env fmt).
Proof. apply preserves_stores_grow; apply now_strftime_preserves; ign. Qed.

Lemma load_state_grows : advances stores_grow load_state.
Proof. apply preserves_stores_grow; apply load_state_preserves. Qed.

Lemma save_state_grows s : advances stores_grow (save_state s).
Proof. apply advances_modify. intros w. by apply stores_grow_same. Qed.

Lemma neo4j_store_grows memory : advances stores_grow (neo4j_store env memory).
Proof.
  pose proof get_driver_grows.
  assert (∀ name kind, advances stores_grow
            (session_run env (λ _, link (m_id memory) kind name))).
  { intros. apply session_run_grows. intros. apply graph_grows_link. }
  assert (advances stores_grow (session_run env (λ _, merge_memory memory))).
  { apply session_run_grows. intros. apply graph_grows_merge. }
  assert (∀ oldId, advances stores_grow
            (session_run env (λ _, mark_superseded (m_id memory) oldId))).
  { intros. apply session_run_grows. intros. apply graph_grows_supersede. }
  unfold neo4j_store. grows.
Qed.

Lemma forgotten_node_forgotten now reason n :
  n_forgotten (forgotten_node now reason n) = Some true.
Proof. done. Qed.

Lemma neo4j_forget_with_reason_grows memory_id reason :
  advances stores_grow (neo4j_forget_with_reason env memory_id reason).
Proof.
  pose proof get_driver_grows. pose proof now_iso_grows.
  assert (∀ now, advances stores_grow
            (session_run env (λ _, alter_memory (forgotten_node now reason) memory_id))).
  { intros. apply session_run_grows. intros. by apply graph_grows_alter. }
  unfold neo4j_forget_with_reason. grows.
Qed.

Lemma neo4j_forget_grows memory_id : advances stores_grow (neo4j_forget env memory_id).
Proof.
  pose proof get_driver_grows. pose proof now_iso_grows.
  assert (∀ now, advances stores_grow
            (session_run env
               (λ _, alter_memory (forgotten_node_keep_reason now) memory_id))).
  { intros. apply session_run_grows. intros. by apply graph_grows_alter. }
  unfold neo4j_forget. grows.
Qed.

Lemma neo4j_evolve_grows memory_id updates :
  advances stores_grow (neo4j_evolve env memory_id updates).
Proof.
  pose proof get_driver_grows. pose proof now_iso_grows.
  assert (∀ now, advances stores_grow
            (session_run env (λ _, alter_memory (evolved_node now updates) memory_id))).
  { intros. apply session_run_grows. intros. by apply graph_grows_alter. }
  assert (∀ name, advances stores_grow
            (session_run env (λ _, link memory_id MENTIONS name))).
  { intros. apply session_run_grows. intros. apply graph_grows_link. }
  unfold neo4j_evolve. grows.
Qed.

Lemma append_block_grows path memory : advances stores_grow (append_block env path memory).
Proof.
  unfold append_block. grows.
  apply advances_modify. intros w.
  split; [reflexivity | split; [by apply prefix_app_r | reflexivity]].
Qed.

Lemma markdown_store_grows memory : advances stores_grow (markdown_store env memory).
Proof.
  pose proof now_iso_grows. pose proof now_strftime_grows. pose proof append_block_grows.
  unfold markdown_store. grows.
Qed.

Lemma chroma_store_grows id document : advances stores_grow (chroma_store env id document).
Proof.
  unfold chroma_store. grows.
  apply advances_modify. intros w.
  split; [reflexivity | split; [reflexivity | by apply prefix_app_r]].
Qed.

Lemma ollama_embed_grows text : advances stores_grow (ollama_embed env text).
Proof. apply preserves_stores_grow; apply ollama_embed_preserves; ign. Qed.

Lemma queue_for_embedding_grows memory :
  advances stores_grow (queue_for_embedding env memory).
Proof. apply preserves_stores_grow; apply queue_for_embedding_preserves; ign. Qed.

Lemma vector_layer_grows memory : advances stores_grow (vector_layer env memory).
Proof.
  pose proof ollama_embed_grows. pose proof chroma_store_grows.
  pose proof queue_for_embedding_grows.
  unfold vector_layer. grows.
Qed.

Lemma check_duplicates_grows content mem_type project :
  advances stores_grow (check_duplicates env content mem_type project).
Proof. apply preserves_stores_grow; apply check_duplicates_preserves; ign. Qed.

Lemma wal_write_grows memory : advances stores_grow (wal_write memory).
Proof.
  pose proof load_state_grows. pose proof save_state_grows.
  unfold wal_write. grows.
Qed.

Lemma wal_flush_grows memory_id : advances stores_grow (wal_flush env memory_id).
Proof.
  pose proof load_state_grows. pose proof save_state_grows. pose proof now_iso_grows.
  unfold wal_flush. grows.
Qed.

Lemma cmd_remember_grows args : advances stores_grow (cmd_remember env args).
Proof.
  pose proof load_state_grows. pose proof save_state_grows. pose proof now_iso_grows.
  pose proof wal_write_grows. pose proof wal_flush_grows.
  pose proof markdown_store_grows. pose proof neo4j_store_grows.
  pose proof vector_layer_grows. pose proof check_duplicates_grows.
  unfold cmd_remember. grows.
Qed.

Lemma neo4j_search_grows query : advances stores_grow (neo4j_search env query).
Proof.
  apply preserves_stores_grow; apply neo4j_search_preserves; ign.
Qed.

Lemma cmd_forget_grows args : advances stores_grow (cmd_forget env args).
Proof.
  pose proof neo4j_search_grows. pose proof neo4j_forget_with_reason_grows.
  unfold cmd_forget. grows.
Qed.

Lemma cmd_maintain_grows args : advances stores_grow (cmd_maintain env args).
Proof.
  pose proof get_driver_grows. pose proof now_iso_grows. pose proof now_strftime_grows.
  assert (∀ minImp cutoff now, advances stores_grow
            (session_run env (prune env minImp cutoff now))).
  { intros. apply session_run_grows. intros. apply graph_grows_prune. }
  unfold cmd_maintain. grows.
Qed.

Lemma process_line_grows line acc : advances stores_grow (process_line env line acc).
Proof.
  pose proof ollama_embed_grows. pose proof chroma_store_grows.
  unfold process_line, store_entry. grows.
Qed.

Lemma drain_lines_grows lines acc : advances stores_grow (drain_lines env lines acc).
Proof.
  revert acc. induction lines as [|l ls IH]; intros acc; simpl.
  - apply advances_ret. apply _.
  - pose proof process_line_grows. grows.
Qed.

Lemma drain_queue_grows : advances stores_grow (drain_queue env).
Proof.
  pose proof load_state_grows. pose proof save_state_grows. pose proof now_iso_grows.
  pose proof drain_lines_grows.
  assert (advances stores_grow (chroma_health_check env)).
  { apply preserves_stores_grow; apply chroma_health_check_preserves; ign. }
  assert (∀ q, advances stores_grow (modify (with_queue_file q))).
  { intros. apply advances_modify. intros w. by apply stores_grow_same. }
  unfold drain_queue. grows.
Qed.

Lemma replay_grows pending recovered : advances stores_grow (replay env pending recovered).
Proof.
  pose proof markdown_store_grows. pose proof neo4j_store_grows.
  pose proof wal_flush_grows.
  revert recovered. induction pending as [|m l IH]; intros recovered; simpl; grows.
Qed.

Lemma wal_replay_grows : advances stores_grow (wal_replay env).
Proof.
  pose proof replay_grows. pose proof load_state_grows.
  unfold wal_replay, wal_recover. grows.
Qed.

End StoresGrow.

Section MoreFrames.

Context (env : Env) {B : Type} (f : World → B).

Lemma score_hits_preserves ids distances : preserves f (score_hits ids distances).
Proof.
  revert distances. induction ids as [|i ids IH]; intros distances; simpl.
  - apply preserves_ret.
  - pose proof (similarity_of_preserves f). frame.
Qed.

Lemma chroma_search_preserves query :
  ignores_trace f → preserves f (chroma_search env query).
Proof.
  intros Ht. unfold chroma_search.
  pose proof (ollama_embed_preserves env f). pose proof score_hits_preserves.
  frame.
Qed.

Lemma neo4j_filter_active_ids_preserves ids :
  ignores_trace f → ignores_driver f → preserves f (neo4j_filter_active_ids env ids).
Proof.
  intros Ht Hd. unfold neo4j_filter_active_ids.
  pose proof (get_driver_preserves env f). frame.
Qed.

Lemma save_state_preserves s :
  (∀ x w, f (with_state_file x w) = f w) → preserves f (save_state s).
Proof. intros Hs. unfold save_state. by apply preserves_modify. Qed.

Lemma cmd_search_preserves args :
  ignores_trace f → ignores_driver f → (∀ x w, f (with_state_file x w) = f w) →
  preserves f (cmd_search env args).
Proof.
  intros Ht Hd Hs. unfold cmd_search.
  pose proof (neo4j_search_preserves env f). pose proof chroma_search_preserves.
  pose proof neo4j_filter_active_ids_preserves. pose proof (load_state_preserves f).
  pose proof save_state_preserves. frame.
Qed.

Lemma cmd_list_preserves count_at page_at args :
  ignores_trace f → ignores_driver f →
  preserves f (cmd_list env count_at page_at args).
Proof.
  intros Ht Hd. unfold cmd_list. pose proof (get_driver_preserves env f). frame.
Qed.

Lemma cmd_summarize_preserves args :
  ignores_trace f → ignores_driver f → preserves f (cmd_summarize env args).
Proof.
  intros Ht Hd. unfold cmd_summarize.
  pose proof (get_driver_preserves env f). pose proof (fulltext_query_preserves env f).
  frame.
Qed.

End MoreFrames.

(** X1.  No command takes anything out of a store.  Whatever the services
    answer and whether the command returns or raises, every memory node of
    the graph is still there afterwards, a node that was forgotten is still
    forgotten, every relationship is still there, and the markdown log and
    the vector store have only been appended to. *)
Theorem stores_only_grow env :
  (∀ args, advances stores_grow (cmd_remember env args)) ∧
  (∀ args, advances stores_grow (cmd_forget env args)) ∧
  (∀ args, advances stores_grow (cmd_maintain env args)) ∧
  (∀ args, advances stores_grow (cmd_search env args)) ∧
  (∀ args, advances stores_grow (cmd_summarize env args)) ∧
  (∀ count_at page_at args, advances stores_grow (cmd_list env count_at page_at args)) ∧
  (∀ id updates, advances stores_grow (neo4j_evolve env id updates)) ∧
  (∀ id, advances stores_grow (neo4j_forget env id)) ∧
  advances stores_grow (drain_queue env) ∧
  advances stores_grow (wal_replay env).
Proof.
  repeat apply conj; intros.
  - apply cmd_remember_grows.
  - apply cmd_forget_grows.
  - apply cmd_maintain_grows.
  - apply preserves_stores_grow; apply cmd_search_preserves; ign.
  - apply preserves_stores_grow; apply cmd_summarize_preserves; ign.
  - apply preserves_stores_grow; apply cmd_list_preserves; ign.
  - apply neo4j_evolve_grows.
  - apply neo4j_forget_grows.
  - apply drain_queue_grows.
  - apply wal_replay_grows.
Qed.

(** * The graph after a store *)

Lemma session_run_Ok env query w u w' :
  session_run env query w = (Ok u, w') →
  graph w' = query (length (trace w)) (graph w).
Proof.
  unfold session_run. intros H. inv_bind H as t w1 Ht.
  injection Ht as <- <-. simpl in H.
  destruct (cypher_ok_at env (length (trace w))); [| discriminate].
  by injection H as _ <-.
Qed.

Lemma for_each_run_steps env {A : Type} (l : list A) (q : A → Graph → Graph) w u w' :
  for_each l (λ x, session_run env (λ _, q x)) w = (Ok u, w') →
  graph w' = run_steps (map q l) (graph w).
Proof.
  revert w. induction l as [|x l IH]; intros w H; simpl in *.
  - by injection H as _ <-.
  - inv_bind H as u1 w1 H1. apply session_run_Ok in H1.
    rewrite (IH _ H). unfold run_steps. simpl. by rewrite H1.
Qed.

Lemma run_steps_app l1 l2 g : run_steps (l1 ++ l2) g = run_steps l2 (run_steps l1 g).
Proof. apply foldl_app. Qed.

(** A store that answers true ran every query of the memory. *)
Lemma neo4j_store_true env memory w w' :
  neo4j_store env memory w = (Ok true, w') →
  graph w' = run_steps (store_steps memory) (graph w).
Proof.
  unfold neo4j_store. intros H. inv_bind H as drv w0 Hd.
  assert (Hg0 : graph w0 = graph w).
  { apply (run_preserved graph _ _ _ _
             (get_driver_preserves env graph ltac:(ign) ltac:(ign)) Hd). }
  destruct drv; [| discriminate]. simpl in H. unfold try_except in H.
  match type of H with
  | match ?c w0 with _ => _ end = _ => destruct (c w0) as [[b|e] w9] eqn:Hrun
  end; [| discriminate].
  injection H as -> ->. rewrite <- Hg0. clear Hd Hg0.
  inv_bind Hrun as u1 w1 H1. apply session_run_Ok in H1.
  inv_bind Hrun as u2 w2 H2.
  inv_bind Hrun as u3 w3 H3. apply for_each_run_steps in H3.
  inv_bind Hrun as u4 w4 H4. apply for_each_run_steps in H4.
  inv_bind Hrun as u5 w5 H5.
  inv_bind Hrun as u6 w6 H6. injection Hrun as <-.
  unfold store_steps. rewrite !run_steps_app.
  assert (E2 : graph w2 = run_steps
            (map (mark_superseded (m_id memory))
               (option_list (truthy (m_supersedes memory)))) (graph w1)).
  { destruct (truthy (m_supersedes memory)).
    - by apply session_run_Ok in H2.
    - by injection H2 as _ <-. }
  assert (E5 : graph w5 = run_steps
            (map (link (m_id memory) BELONGS_TO)
               (option_list (truthy (m_project memory)))) (graph w4)).
  { destruct (truthy (m_project memory)).
    - by apply session_run_Ok in H5.
    - by injection H5 as _ <-. }
  assert (E6 : graph w6 = run_steps
            (map (link (m_id memory) RECORDED_IN)
               (option_list (truthy (m_sessionId memory)))) (graph w5)).
  { destruct (truthy (m_sessionId memory)).
    - by apply session_run_Ok in H6.
    - by injection H6 as _ <-. }
  rewrite E6, E5, H4, H3, E2, H1. reflexivity.
Qed.

Lemma link_memories a k t g : memories (link a k t g) = memories g.
Proof. unfold link. by destruct (memories g !! a). Qed.

Lemma link_edge a k t g :
  is_Some (memories g !! a) → (a, k, t) ∈ edges (link a k t g).
Proof.
  intros [n Hn]. unfold link. rewrite Hn. simpl. unfold add_edge.
  destruct (decide ((a, k, t) ∈ edges g)); [done |].
  apply elem_of_app. right. by apply list_elem_of_singleton.
Qed.

Lemma link_fixed a k t g : (a, k, t) ∈ edges g → link a k t g = g.
Proof.
  intros He. unfold link. destruct (memories g !! a); [| done].
  unfold add_edge. rewrite decide_True by done. by destruct g.
Qed.

Lemma run_links a k l g :
  let g' := run_steps (map (link a k) l) g in
  memories g' = memories g ∧
  (∀ e, e ∈ edges g → e ∈ edges g') ∧
  (is_Some (memories g !! a) → ∀ t, t ∈ l → (a, k, t) ∈ edges g').
Proof.
  revert g. induction l as [|t l IH]; intros g; simpl.
  - split; [done |]. split; [done |]. intros _ t Ht. by apply elem_of_nil in Ht.
  - destruct (IH (link a k t g)) as (Hm & He & Hl). fold (run_steps (map (link a k) l)).
    rewrite link_memories in Hm, Hl.
    split; [done |]. split.
    + intros e Hin. apply He. by apply graph_grows_link.
    + intros Ha t' Ht'. apply elem_of_cons in Ht' as [->|Ht'].
      * apply He. by apply link_edge.
      * by apply Hl.
Qed.

Lemma merge_memory_node m g :
  ∃ n, memories (merge_memory m g) !! m_id m = Some n ∧ node_of m n.
Proof.
  unfold merge_memory. simpl. rewrite lookup_insert_eq. eexists.
  split; [reflexivity |]. by repeat split.
Qed.

Lemma merge_memory_fixed m g n :
  memories g !! m_id m = Some n → node_of m n → merge_memory m g = g.
Proof.
  intros Hn (H1 & H2 & H3 & H4 & H5 & H6 & H7 & H8 & H9 & H10 & H11 & H12 & H13).
  unfold merge_memory. rewrite Hn. simpl.
  rewrite <- H1, <- H2, <- H3, <- H4, <- H5, <- H6, <- H7, <- H8, <- H9, <- H10,
    <- H11, <- H12, <- H13.
  replace {| n_content := n_content n; n_summary := n_summary n; n_type := n_type n;
             n_importance := n_importance n; n_project := n_project n;
             n_created := n_created n; n_updated := n_updated n;
             n_sessionId := n_sessionId n; n_source := n_source n;
             n_confidence := n_confidence n; n_decayDays := n_decayDays n;
             n_sourceChannel := n_sourceChannel n;
             n_sourceMessageId := n_sourceMessageId n;
             n_forgotten := n_forgotten n; n_forgottenAt := n_forgottenAt n;
             n_deleteReason := n_deleteReason n |} with n by (by destruct n).
  rewrite insert_id by done. by destruct g.
Qed.

Lemma superseded_node_of m newId n : node_of m n → node_of m (superseded_node newId n).
Proof. done. Qed.

Lemma mark_superseded_node m newId oldId g n :
  memories g !! m_id m = Some n → node_of m n →
  ∃ n', memories (mark_superseded newId oldId g) !! m_id m = Some n' ∧ node_of m n'.
Proof.
  intros Hn Hm. unfold mark_superseded.
  destruct (memories g !! newId) as [new|]; [| by exists n].
  destruct (memories g !! oldId) as [old|] eqn:Hold; [| by exists n]. simpl.
  destruct (decide (oldId = m_id m)) as [->|Hne].
  - rewrite lookup_insert_eq. eexists. split; [reflexivity |].
    rewrite Hn in Hold. injection Hold as <-. by apply superseded_node_of.
  - rewrite lookup_insert_ne by done. by exists n.
Qed.

(** After its first run the supersedes query changes nothing. *)
Lemma mark_superseded_twice newId oldId g g' :
  memories g' = memories (mark_superseded newId oldId g) →
  (∀ e, e ∈ edges (mark_superseded newId oldId g) → e ∈ edges g') →
  mark_superseded newId oldId g' = g'.
Proof.
  intros Hm He. unfold mark_superseded in *. rewrite Hm.
  destruct (memories g !! newId) as [new|] eqn:Hnew; cycle 1.
  { by rewrite Hnew. }
  destruct (memories g !! oldId) as [old|] eqn:Hold; cycle 1.
  { by rewrite Hnew, Hold. }
  simpl in *.
  assert (Hold' : <[oldId:=superseded_node newId old]> (memories g) !! oldId
                  = Some (superseded_node newId old)) by apply lookup_insert_eq.
  rewrite Hold'.
  destruct (<[oldId:=superseded_node newId old]> (memories g) !! newId) eqn:Hnew';
    [| done].
  rewrite insert_insert_eq.
  unfold add_edge at 1. rewrite decide_True; cycle 1.
  { apply He. unfold add_edge. destruct (decide _); [done |].
    apply elem_of_app. right. by apply list_elem_of_singleton. }
  destruct g' as [mem' edges']. simpl in *. by rewrite Hm.
Qed.

Lemma run_steps_fixed steps g :
  (∀ f, f ∈ steps → f g = g) → run_steps steps g = g.
Proof.
  induction steps as [|f steps IH]; intros Hfix; [done |]. unfold run_steps. simpl.
  rewrite (Hfix f) by (apply elem_of_cons; by left).
  apply IH. intros h Hh. apply Hfix. apply elem_of_cons. by right.
Qed.

(** The graph after the queries of a memory: the node carries the memory,
    its relationships are there, and no query of the memory changes it. *)
Lemma store_steps_facts m g :
  let g' := run_steps (store_steps m) g in
  (∃ n, memories g' !! m_id m = Some n ∧ node_of m n) ∧
  (∀ e, e ∈ edges_of m → e ∈ edges g') ∧
  (∀ f, f ∈ store_steps m → f g' = g').
Proof.
  cbv zeta. unfold store_steps. rewrite !run_steps_app.
  set (g1 := run_steps [merge_memory m] g).
  set (g2 := run_steps (map (mark_superseded (m_id m))
                          (option_list (truthy (m_supersedes m)))) g1).
  destruct (run_links (m_id m) MENTIONS (m_entities m) g2) as (Hm3 & He3 & Hl3).
  set (g3 := run_steps (map (link (m_id m) MENTIONS) (m_entities m)) g2) in *.
  destruct (run_links (m_id m) TAGGED (m_tags m) g3) as (Hm4 & He4 & Hl4).
  set (g4 := run_steps (map (link (m_id m) TAGGED) (m_tags m)) g3) in *.
  destruct (run_links (m_id m) BELONGS_TO (option_list (truthy (m_project m))) g4)
    as (Hm5 & He5 & Hl5).
  set (g5 := run_steps (map (link (m_id m) BELONGS_TO)
                          (option_list (truthy (m_project m)))) g4) in *.
  destruct (run_links (m_id m) RECORDED_IN (option_list (truthy (m_sessionId m))) g5)
    as (Hm6 & He6 & Hl6).
  set (g6 := run_steps (map (link (m_id m) RECORDED_IN)
                          (option_list (truthy (m_sessionId m)))) g5) in *.
  assert (Hn2 : ∃ n, memories g2 !! m_id m = Some n ∧ node_of m n).
  { subst g2 g1. unfold run_steps at 2. simpl.
    destruct (merge_memory_node m g) as (n & Hn & Hof).
    destruct (truthy (m_supersedes m)) as [old|]; simpl.
    - by eapply mark_superseded_node.
    - by exists n. }
  assert (Hmem : memories g6 = memories g2) by (by rewrite Hm6, Hm5, Hm4, Hm3).
  destruct Hn2 as (n & Hn & Hof).
  assert (Hs3 : is_Some (memories g3 !! m_id m)) by (rewrite Hm3, Hn; by eexists).
  assert (Hs4 : is_Some (memories g4 !! m_id m)) by (by rewrite Hm4).
  assert (Hs5 : is_Some (memories g5 !! m_id m)) by (by rewrite Hm5).
  assert (Hs2 : is_Some (memories g2 !! m_id m)) by (rewrite Hn; by eexists).
  assert (Hedges : ∀ e, e ∈ edges_of m → e ∈ edges g6).
  { intros e. unfold edges_of. rewrite !elem_of_app, !list_elem_of_fmap.
    intros [(t & -> & Ht)|[(t & -> & Ht)|[(t & -> & Ht)|(t & -> & Ht)]]].
    - apply He6, He5, He4. by apply Hl3.
    - apply He6, He5. by apply Hl4.
    - apply He6. by apply Hl5.
    - by apply Hl6. }
  split; [exists n; by rewrite Hmem |]. split; [done |].
  intros f. rewrite !elem_of_app, !list_elem_of_fmap, list_elem_of_singleton.
  intros [->|[(old & -> & Hold)|[(t & -> & Ht)|[(t & -> & Ht)|[(t & -> & Ht)|(t & -> & Ht)]]]]].
  - apply merge_memory_fixed with n; [by rewrite Hmem | done].
  - apply mark_superseded_twice with g1.
    + rewrite Hmem. subst g2. destruct (truthy (m_supersedes m)) as [old'|]; simpl in *.
      * apply list_elem_of_singleton in Hold as ->. done.
      * by apply elem_of_nil in Hold.
    + intros e He. apply He6, He5, He4, He3. subst g2.
      destruct (truthy (m_supersedes m)) as [old'|]; simpl in *.
      * apply list_elem_of_singleton in Hold as ->. done.
      * by apply elem_of_nil in Hold.
  - apply link_fixed, Hedges. unfold edges_of. rewrite !elem_of_app, !list_elem_of_fmap.
    left. by exists t.
  - apply link_fixed, Hedges. unfold edges_of. rewrite !elem_of_app, !list_elem_of_fmap.
    right. left. by exists t.
  - apply link_fixed, Hedges. unfold edges_of. rewrite !elem_of_app, !list_elem_of_fmap.
    right. right. left. by exists t.
  - apply link_fixed, Hedges. unfold edges_of. rewrite !elem_of_app, !list_elem_of_fmap.
    right. right. right. by exists t.
Qed.

(** X2.  When [neo4j_store] answers true, the graph holds a node under the
    id of the memory that carries its thirteen properties, and every
    relationship of the memory (entities, tags, project, session) leaves
    that node. *)
Theorem neo4j_store_round_trip env memory w w' :
  neo4j_store env memory w = (Ok true, w') →
  (∃ n, memories (graph w') !! m_id memory = Some n ∧ node_of memory n) ∧
  (∀ e, e ∈ edges_of memory → e ∈ edges (graph w')).
Proof.
  intros H. rewrite (neo4j_store_true _ _ _ _ H).
  destruct (store_steps_facts memory (graph w)) as (Hn & He & _). done.
Qed.

(** X3.  Storing a memory again is harmless: when [neo4j_store] answered
    true for a memory and answers true for it once more, as a replay of the
    WAL does, the second store leaves the graph exactly as the first made
    it. *)
Theorem neo4j_store_replay env memory w w1 w1' w2 :
  neo4j_store env memory w = (Ok true, w1) →
  graph w1' = graph w1 →
  neo4j_store env memory w1' = (Ok true, w2) →
  graph w2 = graph w1.
Proof.
  intros H1 Hsame H2.
  rewrite (neo4j_store_true _ _ _ _ H2), Hsame, (neo4j_store_true _ _ _ _ H1).
  apply run_steps_fixed. apply store_steps_facts.
Qed.

(** * Forgetting, pruning and updating *)

Lemma bind_run_Raise {A B : Type} (c : M A) (f : A → M B) w e w1 :
  c w = (Raise e, w1) → (c ≫= f) w = (Raise e, w1).
Proof. intros H. unfold mbind, M_bind. by rewrite H. Qed.

Lemma session_run_graph env query w :
  let r := session_run env query w in
  (r.1 = Ok tt ∧ graph r.2 = query (length (trace w)) (graph w)) ∨
  (r.1 = Raise Neo4jError ∧ graph r.2 = graph w).
Proof.
  unfold session_run, mbind, M_bind, tick. simpl.
  destruct (cypher_ok_at env (length (trace w))); simpl; by auto.
Qed.

Lemma get_driver_run env w :
  ∃ drv w0, get_driver env w = (Ok drv, w0) ∧ graph w0 = graph w ∧
            (driver w = true → drv = true ∧ w0 = w).
Proof.
  destruct (get_driver_total env w) as (drv & w0 & Hd). exists drv, w0.
  split; [done |]. split.
  - apply (run_preserved graph _ _ _ _
             (get_driver_preserves env graph ltac:(ign) ltac:(ign)) Hd).
  - intros Hdrv. unfold get_driver, mbind, M_bind, get_world in Hd. simpl in Hd.
    rewrite Hdrv in Hd. by injection Hd as <- <-.
Qed.

(** The graph after [neo4j_forget_with_reason]: the answer is true exactly
    when the query ran. *)
Lemma neo4j_forget_with_reason_graph env memory_id reason w :
  let r := neo4j_forget_with_reason env memory_id reason w in
  (r.1 = Ok true ∧
   ∃ now, graph r.2 = alter_memory (forgotten_node now reason) memory_id (graph w)) ∨
  (r.1 = Ok false ∧ graph r.2 = graph w).
Proof.
  cbv zeta. unfold neo4j_forget_with_reason.
  destruct (get_driver_run env w) as (drv & w0 & Hd & Hg0 & _).
  rewrite (bind_run_Ok _ _ _ _ _ Hd). destruct drv; simpl; [| by right].
  unfold try_except. rewrite (bind_run_Ok (now_iso env) _ w0 _ _ eq_refl).
  set (w1 := with_trace (trace w0 ++ [EvClock]) w0).
  set (q := λ _ : nat, alter_memory
              (forgotten_node (isoformat_at env (length (trace w0))) reason) memory_id).
  destruct (session_run_graph env q w1) as [[Hr Hg]|[Hr Hg]];
    destruct (session_run env q w1) as [[[]|e] w2] eqn:Hs; simpl in *;
    try discriminate.
  - rewrite (bind_run_Ok _ _ _ _ _ Hs). simpl. left. split; [done |].
    eexists. by rewrite Hg, <- Hg0.
  - rewrite (bind_run_Raise _ _ _ _ _ Hs). simpl. right. split; [done |].
    by rewrite Hg, <- Hg0.
Qed.

Lemma alter_memory_other f id g id' :
  id' ≠ id → memories (alter_memory f id g) !! id' = memories g !! id'.
Proof. intros Hne. simpl. by rewrite lookup_alter_ne. Qed.

Lemma alter_memory_absent f id g :
  memories g !! id = None → alter_memory f id g = g.
Proof.
  intros Hn. unfold alter_memory. destruct g as [mem es]. simpl in *. f_equal.
  apply map_eq. intros i. destruct (decide (i = id)) as [->|Hne].
  - by rewrite lookup_alter_eq, Hn.
  - by rewrite lookup_alter_ne.
Qed.

(** X4.  A forget by id touches that memory and nothing else: every other
    node and every relationship of the graph is as before, whatever the
    graph answers.  When the call reports [forgotten] true, the memory, if
    the graph has it, is a tombstone: forgotten, without content and
    summary, stamped, with the reason of the call. *)
Theorem forget_by_id_touches_one env args id w :
  truthy (f_id args) = Some id →
  let r := cmd_forget env args w in
  (∀ id', id' ≠ id → memories (graph r.2) !! id' = memories (graph w) !! id') ∧
  edges (graph r.2) = edges (graph w) ∧
  (∃ ok, r.1 = Ok (Forgot id ok (f_reason args)) ∧
     (ok = true → ∀ n, memories (graph w) !! id = Some n →
        ∃ n', memories (graph r.2) !! id = Some n' ∧
              n_forgotten n' = Some true ∧ n_content n' = None ∧
              n_summary n' = None ∧ is_Some (n_forgottenAt n') ∧
              n_deleteReason n' = f_reason args)).
Proof.
  intros Hid. cbv zeta. unfold cmd_forget. rewrite Hid.
  destruct (neo4j_forget_with_reason_graph env id (f_reason args) w)
    as [[Hr (now & Hg)]|[Hr Hg]];
    destruct (neo4j_forget_with_reason env id (f_reason args) w) as [[ok|e] w1] eqn:Hf;
    simpl in *; try discriminate; injection Hr as ->;
    rewrite !(bind_run_Ok _ _ _ _ _ Hf); simpl.
  - rewrite Hg. split; [intros; by apply alter_memory_other |]. split; [done |].
    exists true. split; [done |]. intros _ n Hn. simpl.
    rewrite lookup_alter_eq, Hn. simpl. eexists. split; [reflexivity |].
    repeat split; try done; by eexists.
  - rewrite Hg. split; [done |]. split; [done |]. exists false. by split.
Qed.

(** X5.  A forget by an id that no memory has is reported as done: with the
    graph connected and the query accepted, the call answers [forgotten]
    true and the graph is what it was. *)
Theorem forget_unknown_id_reports_true env args id w :
  truthy (f_id args) = Some id →
  memories (graph w) !! id = None →
  driver w = true →
  cypher_ok_at env (S (length (trace w))) = true →
  ∃ w', cmd_forget env args w = (Ok (Forgot id true (f_reason args)), w') ∧
        graph w' = graph w.
Proof.
  intros Hid Hnone Hdrv Hok. unfold cmd_forget. rewrite Hid.
  unfold neo4j_forget_with_reason, get_driver, get_world, try_except, now_iso,
    session_run, tick, mbind, M_bind, mret, M_ret, modify. simpl.
  rewrite Hdrv. simpl. rewrite length_app. simpl.
  replace (length (trace w) + 1) with (S (length (trace w))) by lia.
  rewrite Hok. simpl. eexists. split; [reflexivity |]. simpl.
  by apply alter_memory_absent.
Qed.

Lemma cmd_maintain_graph env args w :
  graph (cmd_maintain env args w).2 = graph w ∨
  ∃ t cutoff now,
    graph (cmd_maintain env args w).2
    = prune env (default 3%Z (minImportance args)) cutoff now t (graph w).
Proof.
  unfold cmd_maintain. cbv zeta.
  destruct (get_driver_run env w) as (drv & w0 & Hd & Hg0 & _).
  rewrite (bind_run_Ok _ _ _ _ _ Hd). destruct drv; simpl; [| by left].
  unfold try_except.
  rewrite (bind_run_Ok (now_strftime env _) _ w0 _ _ eq_refl).
  rewrite (bind_run_Ok (now_iso env) _ _ _ _ eq_refl).
  rewrite (bind_run_Ok get_world _ _ _ _ eq_refl).
  match goal with
  | |- context [(session_run env ?q ≫= _) ?w1] =>
      destruct (session_run_graph env q w1) as [[Hr Hg]|[Hr Hg]];
      destruct (session_run env q w1) as [[[]|e] w2] eqn:Hs; simpl in *;
      try discriminate
  end.
  - rewrite (bind_run_Ok _ _ _ _ _ Hs). simpl. right. rewrite Hg, Hg0. by eexists _, _, _.
  - rewrite (bind_run_Raise _ _ _ _ _ Hs). simpl. left. by rewrite Hg.
Qed.

(** X6.  Maintenance never touches a memory whose importance is not below
    the threshold (3 unless [minImportance] says otherwise) or that is
    already forgotten, and it never touches a relationship: such a node is
    the same after the call, and so is the list of relationships. *)
Theorem maintain_spares env args w id n :
  memories (graph w) !! id = Some n →
  importance_below (default 3%Z (minImportance args)) n = false
    ∨ n_forgotten n = Some true →
  memories (graph (cmd_maintain env args w).2) !! id = Some n ∧
  edges (graph (cmd_maintain env args w).2) = edges (graph w).
Proof.
  intros Hn Hspare.
  destruct (cmd_maintain_graph env args w) as [->|(t & cutoff & now & ->)]; [done |].
  split; [| done]. unfold prune. simpl. rewrite lookup_fmap, Hn. simpl. f_equal.
  unfold prune_node, prunable, active.
  destruct Hspare as [-> | ->]; simpl; [done |]. by rewrite andb_false_r.
Qed.

(** ** Updates *)

Lemma for_each_links_graph env {A : Type} (l : list A) (q : A → Graph → Graph) w :
  ∃ l', l' `prefix_of` l ∧
    graph (for_each l (λ x, session_run env (λ _, q x)) w).2
    = run_steps (map q l') (graph w) ∧
    ((for_each l (λ x, session_run env (λ _, q x)) w).1 = Ok tt → l' = l).
Proof.
  revert w. induction l as [|x l IH]; intros w; simpl.
  - exists []. by repeat split.
  - destruct (session_run_graph env (λ _, q x) w) as [[Hr Hg]|[Hr Hg]];
      destruct (session_run env (λ _, q x) w) as [[[]|e] w1] eqn:Hs; simpl in *;
      try discriminate.
    + rewrite (bind_run_Ok _ _ _ _ _ Hs).
      destruct (IH w1) as (l' & Hpre & Hgl & Hok). exists (x :: l').
      split; [by apply prefix_cons |]. split.
      * rewrite Hgl, Hg. done.
      * intros H. by rewrite (Hok H).
    + rewrite (bind_run_Raise _ _ _ _ _ Hs). exists [].
      split; [apply prefix_nil |]. split; [done |]. simpl. discriminate.
Qed.

(** The graph after [neo4j_evolve]: untouched, or the update followed by
    the links of some of the entities, of all of them when it answers true. *)
Lemma neo4j_evolve_graph env memory_id updates w :
  let r := neo4j_evolve env memory_id updates w in
  let names := match u_content updates with
               | Some text => extract_entities (json_dumps env) (set_iter env)
                                (Plain (default "None" text))
               | None => []
               end in
  (r.1 = Ok false ∧ graph r.2 = graph w) ∨
  ∃ now l ok,
    r.1 = Ok ok ∧ l `prefix_of` names ∧ (ok = true → l = names) ∧
    graph r.2 = run_steps (map (link memory_id MENTIONS) l)
                  (alter_memory (evolved_node now updates) memory_id (graph w)).
Proof.
  cbv zeta. unfold neo4j_evolve.
  destruct (get_driver_run env w) as (drv & w0 & Hd & Hg0 & _).
  rewrite (bind_run_Ok _ _ _ _ _ Hd). destruct drv; simpl; [| by left].
  unfold try_except. rewrite (bind_run_Ok (now_iso env) _ w0 _ _ eq_refl).
  set (now := isoformat_at env (length (trace w0))).
  match goal with
  | |- context [(session_run env ?q ≫= _) ?w1] =>
      destruct (session_run_graph env q w1) as [[Hr Hg]|[Hr Hg]];
      destruct (session_run env q w1) as [[[]|e] w2] eqn:Hs; simpl in *;
      try discriminate
  end.
  - rewrite (bind_run_Ok _ _ _ _ _ Hs). right. exists now.
    destruct (u_content updates) as [text|].
    + match goal with
      | |- context [(for_each ?l _ ≫= _) w2] =>
          destruct (for_each_links_graph env l (link memory_id MENTIONS) w2)
            as (l' & Hpre & Hgl & Hok);
          destruct (for_each l (λ x, session_run env (λ _, link memory_id MENTIONS x)) w2)
            as [[[]|e] w3] eqn:Hfor
      end; simpl in *.
      * rewrite (bind_run_Ok _ _ _ _ _ Hfor). simpl. exists l', true.
        rewrite Hgl, Hg, Hg0. by auto.
      * rewrite (bind_run_Raise _ _ _ _ _ Hfor). simpl. exists l', false.
        rewrite Hgl, Hg, Hg0. repeat split; [done | discriminate].
    + simpl. exists [], true. rewrite Hg, Hg0. by repeat split.
  - rewrite (bind_run_Raise _ _ _ _ _ Hs). simpl. left. by rewrite Hg.
Qed.



(** X8.  An update does not look at the forgotten flag.  When
    [neo4j_evolve] answers true for an update that carries a content and
    the memory is forgotten, the node is still forgotten and has the new
    content: it is no longer a tombstone. *)
Theorem evolve_writes_into_tombstone env memory_id updates w w' text n :
  neo4j_evolve env memory_id updates w = (Ok true, w') →
  u_content updates = Some (Some text) →
  memories (graph w) !! memory_id = Some n →
  n_forgotten n = Some true →
  ∃ n', memories (graph w') !! memory_id = Some n' ∧
        n_forgotten n' = Some true ∧ n_content n' = Some text ∧ ¬ tombstone n'.
Proof.
  intros Hrun Hc Hn Hf.
  destruct (neo4j_evolve_graph env memory_id updates w)
    as [[Hr _]|(now & l & ok & _ & _ & _ & Hg)]; rewrite Hrun in *; simpl in *.
  { discriminate. }
  destruct (run_links memory_id MENTIONS l
              (alter_memory (evolved_node now updates) memory_id (graph w)))
    as (Hm & _ & _).
  rewrite Hg, Hm. simpl. rewrite lookup_alter_eq, Hn. simpl.
  eexists. split; [reflexivity |]. unfold tombstone. simpl. rewrite Hc, Hf. simpl.
  split; [done |]. split; [done |]. intros Ht. by destruct (Ht eq_refl) as [? _].
Qed.

(** * The vector store and its queue *)

Lemma chroma_store_run env id document w :
  ∃ b w', chroma_store env id document w = (Ok b, w') ∧
          queue_file w' = queue_file w ∧
          chroma w' = (if b then chroma w ++ [(id, document)] else chroma w).
Proof.
  unfold chroma_store.
  destruct (String.eqb (CHROMA_URL env) "" || String.eqb (CHROMA_COLLECTION env) "").
  { by exists false, w. }
  rewrite (bind_run_Ok (tick _) _ w _ _ eq_refl).
  destruct (chroma_add_at env (length (trace w)) id); by eexists _, _.
Qed.

Lemma ollama_embed_run env text w :
  ∃ e w', ollama_embed env text w = (Ok e, w') ∧
          queue_file w' = queue_file w ∧ chroma w' = chroma w.
Proof.
  unfold ollama_embed. destruct (String.eqb (OLLAMA_URL env) "").
  - by exists None, w.
  - by eexists _, _.
Qed.


Lemma process_line_count env line acc w acc' w' :
  process_line env line acc w = (Ok acc', w') →
  length (chroma w') + acc.1 = length (chroma w) + acc'.1 ∧
  acc'.1 + length acc'.2 ≤ acc.1 + length acc.2 + 1.
Proof.
  unfold process_line. intros H.
  destruct (json_loads env line) as [[| | | | |entry]|]; try discriminate;
    [| injection H as <- <-; lia].
  destruct (dict_get entry "content") as [text|]; [| injection H as <- <-; lia].
  destruct (ollama_embed_run env text w) as (e & w1 & He & _ & Hc1).
  rewrite (bind_run_Ok _ _ _ _ _ He) in H.
  destruct (embedding_ok e); simpl in H;
    [| injection H as <- <-; simpl; rewrite length_app, Hc1; simpl; lia].
  destruct (dict_get entry "id") as [id|];
    [| injection H as <- <-; rewrite Hc1; lia].
  assert (Hstore : ∀ metadata,
            store_entry env line acc id text metadata w1 = (Ok acc', w') →
            length (chroma w') + acc.1 = length (chroma w) + acc'.1 ∧
            acc'.1 + length acc'.2 ≤ acc.1 + length acc.2 + 1).
  { intros metadata. unfold store_entry. cbv zeta.
    match goal with
    | |- context [chroma_store env ?i ?d] =>
        destruct (chroma_store_run env i d w1) as (b & w2 & Hs & _ & Hc2);
        rewrite (bind_run_Ok _ _ _ _ _ Hs)
    end.
    destruct b; intros [= <- <-]; simpl; rewrite Hc2, ?length_app, Hc1; simpl; lia. }
  destruct (dict_get entry "metadata") as [[| | | | |metadata]|]; try discriminate;
    by eapply Hstore.
Qed.

Lemma drain_lines_count env lines acc w acc' w' :
  drain_lines env lines acc w = (Ok acc', w') →
  length (chroma w') + acc.1 = length (chroma w) + acc'.1 ∧
  acc'.1 + length acc'.2 ≤ acc.1 + length acc.2 + length lines.
Proof.
  revert acc w. induction lines as [|l ls IH]; intros acc w; simpl.
  - intros [= <- <-]. lia.
  - intros H. inv_bind H as acc1 w1 Hl.
    apply process_line_count in Hl. apply IH in H. lia.
Qed.

(** X10.  The accounts of a drain balance.  Whatever its status, the vector
    store has gained exactly as many documents as the drain reports
    processed, and processed plus remaining never exceeds the number of
    records the queue held. *)
Theorem drain_accounts env w r w' :
  drain_queue env w = (Ok r, w') →
  length (chroma w') = length (chroma w) + processed r ∧
  processed r + remaining r ≤ length (queue_lines (default "" (queue_file w))).
Proof.
  unfold drain_queue. rewrite (bind_run_Ok get_world _ w w w eq_refl).
  destruct (queue_file w) as [text|]; [| intros [= <- <-]; simpl; lia].
  simpl. destruct (queue_lines text) as [|l ls] eqn:Hl; [intros [= <- <-]; simpl; lia |].
  generalize dependent (l :: ls). intros lines _.
  rewrite (bind_run_Ok load_state _ w _ w eq_refl).
  destruct (Z.leb _ _); [intros [= <- <-]; simpl; lia |].
  intros H. inv_bind H as healthy wh Hh.
  assert (Hch : chroma wh = chroma w).
  { apply (run_preserved chroma _ _ _ _
             (chroma_health_check_preserves env chroma ltac:(ign)) Hh). }
  destruct healthy; simpl in H.
  - inv_bind H as acc wl Hloop. apply drain_lines_count in Hloop. simpl in Hloop.
    inv_bind H as u1 wq Hwrite. injection Hwrite as _ <-.
    inv_bind H as t1 w1 Ht1. injection Ht1 as <- <-.
    inv_bind H as t2 w2 Ht2. injection Ht2 as <- <-.
    inv_bind H as u2 w3 Hsave. injection Hsave as _ <-.
    injection H as <- <-. simpl. rewrite <- Hch. lia.
  - inv_bind H as t1 w1 Ht1. injection Ht1 as <- <-.
    inv_bind H as u2 w3 Hsave. injection Hsave as _ <-.
    injection H as <- <-. simpl. rewrite Hch. lia.
Qed.

(** * Search *)



(** ** The filter on active memories *)

Lemma get_driver_connected env w :
  driver w = true → get_driver env w = (Ok true, w).
Proof.
  intros Hd. unfold get_driver. rewrite (bind_run_Ok get_world _ w w w eq_refl).
  by rewrite Hd.
Qed.

Lemma get_driver_down env w :
  driver w = false → NEO4J_PASS env = "" → get_driver env w = (Ok false, w).
Proof.
  intros Hd Hp. unfold get_driver. rewrite (bind_run_Ok get_world _ w w w eq_refl).
  by rewrite Hd, Hp.
Qed.

Lemma elem_of_active_ids env t g ids id :
  id ∈ active_ids env t g ids ↔ id ∈ ids ∧ active_in env t g id.
Proof.
  unfold active_ids, active_in. rewrite elem_of_List_filter.
  destruct (memories g !! id) as [n|]; split.
  - intros [Hin Ha]. split; [done |]. by exists n.
  - intros [Hin (n' & [= <-] & Ha)]. done.
  - intros [_ [=]].
  - intros [_ (n' & [=] & _)].
Qed.

(** X12.  With the graph connected and the query accepted,
    [neo4j_filter_active_ids] answers exactly the ids of the list whose
    memory is in the graph and active (not forgotten, not expired) at the
    moment of the query, and changes nothing in the stores. *)
Theorem filter_active_ids_exact env ids w :
  driver w = true →
  cypher_ok_at env (length (trace w)) = true →
  ∃ found w',
    neo4j_filter_active_ids env ids w = (Ok found, w') ∧
    graph w' = graph w ∧
    ∀ id, id ∈ found ↔ id ∈ ids ∧ active_in env (length (trace w)) (graph w) id.
Proof.
  intros Hd Hok. unfold neo4j_filter_active_ids. destruct ids as [|i ids].
  { exists ∅, w. split; [done |]. split; [done |]. intros id.
    rewrite elem_of_nil, elem_of_empty. tauto. }
  rewrite (bind_run_Ok _ _ _ _ _ (get_driver_connected env w Hd)). simpl.
  unfold try_except. rewrite (bind_run_Ok (tick _) _ w _ _ eq_refl), Hok.
  rewrite (bind_run_Ok get_world _ _ _ _ eq_refl). simpl.
  eexists _, _. split; [reflexivity |]. split; [done |]. intros id.
  rewrite elem_of_list_to_set.
  exact (elem_of_active_ids env (length (trace w)) (graph w) (i :: ids) id).
Qed.

(** X13.  The filter fails open: when the graph cannot be reached (no
    password and no connection yet) or the query raises, every id it was
    given counts as active, and the graph is as before. *)
Theorem filter_active_ids_fail_open env ids w :
  (driver w = false ∧ NEO4J_PASS env = "")
    ∨ (driver w = true ∧ cypher_ok_at env (length (trace w)) = false) →
  ∃ w', neo4j_filter_active_ids env ids w = (Ok (list_to_set ids), w') ∧
        graph w' = graph w.
Proof.
  intros Hdown. unfold neo4j_filter_active_ids. destruct ids as [|i ids].
  { by exists w. }
  destruct Hdown as [[Hd Hpass]|[Hd Hok]].
  - rewrite (bind_run_Ok _ _ _ _ _ (get_driver_down env w Hd Hpass)). by exists w.
  - rewrite (bind_run_Ok _ _ _ _ _ (get_driver_connected env w Hd)). simpl.
    unfold try_except. rewrite (bind_run_Ok (tick _) _ w _ _ eq_refl), Hok. simpl.
    by eexists.
Qed.

(** ** Merging the hits *)

Lemma mem_elem_of x l : mem x l = true ↔ x ∈ l.
Proof.
  unfold mem. rewrite existsb_exists. split.
  - intros (y & Hin & Heq). apply String.eqb_eq in Heq as ->. by apply list_elem_of_In.
  - intros Hin. exists x. split; [by apply list_elem_of_In | apply String.eqb_refl].
Qed.

(** The merging loop keeps the ids of [merged] distinct and in [seen_ids]. *)
Lemma merge_hit_fold l st :
  NoDup (hit_id <$> st.2) →
  (∀ id, id ∈ st.1 ↔ id ∈ hit_id <$> st.2) →
  let st' := fold_left merge_hit l st in
  NoDup (hit_id <$> st'.2) ∧
  (∀ id, id ∈ st'.1 ↔ id ∈ hit_id <$> st'.2) ∧
  (∀ h, h ∈ st'.2 → h ∈ st.2 ∨ h ∈ l) ∧
  length st'.2 ≤ length st.2 + length l.
Proof.
  revert st. induction l as [|r l IH]; intros st Hnd Hseen; simpl.
  { split; [done |]. split; [done |]. split; [by left | lia]. }
  assert (Hstep : NoDup (hit_id <$> (merge_hit st r).2) ∧
                  (∀ id, id ∈ (merge_hit st r).1 ↔ id ∈ hit_id <$> (merge_hit st r).2) ∧
                  (∀ h, h ∈ (merge_hit st r).2 → h ∈ st.2 ∨ h = r) ∧
                  length (merge_hit st r).2 ≤ length st.2 + 1).
  { unfold merge_hit. destruct (mem (hit_id r) st.1) eqn:Hmem; simpl.
    - split; [done |]. split; [done |]. split; [by left | lia].
    - assert (Hnew : hit_id r ∉ hit_id <$> st.2).
      { rewrite <- Hseen, <- mem_elem_of, Hmem. discriminate. }
      split; [| split; [| split]].
      + rewrite fmap_app. apply NoDup_app. split; [done |]. split.
        * intros id Hin Hin'. simpl in Hin'. apply list_elem_of_singleton in Hin' as ->.
          done.
        * simpl. apply NoDup_singleton.
      + intros id. rewrite fmap_app, elem_of_app, elem_of_cons, Hseen. simpl.
        rewrite list_elem_of_singleton. tauto.
      + intros h. rewrite elem_of_app, list_elem_of_singleton. tauto.
      + rewrite length_app. simpl. lia. }
  destruct Hstep as (Hnd1 & Hseen1 & Hin1 & Hlen1).
  destruct (IH (merge_hit st r) Hnd1 Hseen1) as (Hnd2 & Hseen2 & Hin2 & Hlen2).
  split; [done |]. split; [done |]. split.
  - intros h Hh. apply Hin2 in Hh as [Hh|Hh]; [| right; by right].
    apply Hin1 in Hh as [Hh| ->]; [by left | right; by left].
  - lia.
Qed.

Lemma insert_by_score_perm x l : insert_by_score x l ≡ₚ x :: l.
Proof.
  induction l as [|y l IH]; simpl; [done |].
  destruct (Qle_bool _ _); [done |]. rewrite IH. apply Permutation_swap.
Qed.

Lemma sort_by_score_perm l : sort_by_score l ≡ₚ l.
Proof.
  unfold sort_by_score. induction l as [|x l IH]; simpl; [done |].
  by rewrite insert_by_score_perm, IH.
Qed.

Lemma insert_by_score_descending x l :
  descending l → descending (insert_by_score x l).
Proof.
  induction l as [|y l IH]; simpl; [by intros _ |]. intros [Hy Hl].
  destruct (Qle_bool (hit_score y) (hit_score x)) eqn:Hle.
  - apply Qle_bool_iff in Hle. simpl. split; [| done]. constructor; [done |].
    eapply Forall_impl; [exact Hy |]. simpl. intros z Hz. by eapply Qle_trans.
  - simpl. split; [| by apply IH].
    rewrite insert_by_score_perm. constructor; [| done].
    apply Qlt_le_weak, Qnot_le_lt. intros Hxy. apply Qle_bool_iff in Hxy.
    by rewrite Hxy in Hle.
Qed.

Lemma sort_by_score_descending l : descending (sort_by_score l).
Proof.
  unfold sort_by_score. induction l as [|x l IH]; simpl; [done |].
  by apply insert_by_score_descending.
Qed.

Lemma descending_take n l : descending l → descending (take n l).
Proof.
  revert n. induction l as [|x l IH]; intros [|n]; simpl; try done.
  intros [Hx Hl]. split; [by apply Forall_take | by apply IH].
Qed.

Lemma slice_to_take {A : Type} (n : Z) (l : list A) : ∃ k, slice_to n l = take k l.
Proof. unfold slice_to. destruct (Z.leb 0 n); by eexists. Qed.

Lemma slice_to_length {A : Type} (n : Z) (l : list A) :
  length (slice_to n l)
  = if Z.leb 0 n then Nat.min (Z.to_nat n) (length l)
    else length l - Z.to_nat (- n).
Proof. unfold slice_to. destruct (Z.leb 0 n); rewrite length_take; lia. Qed.

(** ** The search command *)

(** A search that answers ran the three lookups in turn. *)
Lemma cmd_search_Found env args w r w' :
  cmd_search env args w = (Ok (Found r), w') →
  ∃ query neo_results found chroma_results w1 w2 w3,
    truthy (q_query args) = Some query ∧
    neo4j_search env query w = (Ok neo_results, w1) ∧
    chroma_search env query w1 = (Ok found, w2) ∧
    ((found = [] ∧ chroma_results = [] ∧ w3 = w2) ∨
     (∃ active, found ≠ [] ∧
        neo4j_filter_active_ids env (map hit_id found) w2 = (Ok active, w3) ∧
        chroma_results = List.filter (λ h, bool_decide (hit_id h ∈ active)) found)) ∧
    r = {| sr_results := slice_to (default 10%Z (q_limit args))
                           (merged_hits neo_results chroma_results);
           sr_count := length (merged_hits neo_results chroma_results);
           sr_neo4j := length neo_results;
           sr_chromadb := length chroma_results |} ∧
    w' = with_state_file (Some (count_search (current_state w3))) w3.
Proof.
  unfold cmd_search. destruct (truthy (q_query args)) as [query|]; [| discriminate].
  cbv zeta. intros H.
  inv_bind H as neo_results w1 Hneo. inv_bind H as found w2 Hfound.
  inv_bind H as chroma_results w3 Hfilter.
  inv_bind H as state w4 Hload. injection Hload as <- <-.
  inv_bind H as u w5 Hsave. injection Hsave as _ <-.
  injection H as <- <-.
  exists query, neo_results, found, chroma_results, w1, w2, w3.
  repeat (split; [done |]). split; [| done].
  destruct found as [|h found].
  - injection Hfilter as <- <-. by left.
  - right. inv_bind Hfilter as active w6 Hact. injection Hfilter as <- <-.
    by exists active.
Qed.

Lemma merged_hits_facts neo_results chroma_results :
  NoDup (hit_id <$> merged_hits neo_results chroma_results) ∧
  descending (merged_hits neo_results chroma_results) ∧
  (∀ h, h ∈ merged_hits neo_results chroma_results →
        h ∈ neo_results ∨ h ∈ chroma_results) ∧
  length (merged_hits neo_results chroma_results)
    ≤ length neo_results + length chroma_results.
Proof.
  unfold merged_hits.
  destruct (merge_hit_fold neo_results ([], [])) as (Hnd1 & Hseen1 & Hin1 & Hlen1);
    [apply NoDup_nil_2 | done |].
  destruct (merge_hit_fold chroma_results (fold_left merge_hit neo_results ([], []))
              Hnd1 Hseen1) as (Hnd2 & Hseen2 & Hin2 & Hlen2).
  simpl in *. split; [| split; [| split]].
  - by rewrite sort_by_score_perm.
  - apply sort_by_score_descending.
  - intros h. rewrite sort_by_score_perm. intros Hh.
    apply Hin2 in Hh as [Hh|Hh]; [| by right].
    apply Hin1 in Hh as [Hh|Hh]; [by apply elem_of_nil in Hh | by left].
  - rewrite sort_by_score_perm. lia.
Qed.

(** X14.  The results of a search have distinct ids and come in descending
    order of score; there are as many as the limit allows (the first
    [limit] of the merged hits, or all but the last [-limit] for a negative
    limit), and the merged hits are at most the hits of the two sources. *)
Theorem search_results_shape env args w r w' :
  cmd_search env args w = (Ok (Found r), w') →
  NoDup (hit_id <$> sr_results r) ∧
  descending (sr_results r) ∧
  length (sr_results r)
    = (if Z.leb 0 (default 10%Z (q_limit args))
       then Nat.min (Z.to_nat (default 10%Z (q_limit args))) (sr_count r)
       else sr_count r - Z.to_nat (- default 10%Z (q_limit args))) ∧
  sr_count r ≤ sr_neo4j r + sr_chromadb r.
Proof.
  intros H. apply cmd_search_Found in H
    as (query & neo & found & chroma_results & w1 & w2 & w3 & _ & _ & _ & _ & -> & _).
  destruct (merged_hits_facts neo chroma_results) as (Hnd & Hdesc & _ & Hlen).
  simpl. destruct (slice_to_take (default 10%Z (q_limit args))
                     (merged_hits neo chroma_results)) as [k Hk].
  split; [| split; [| split]].
  - rewrite Hk, fmap_take. eapply sublist_NoDup; [| apply sublist_take]. done.
  - rewrite Hk. by apply descending_take.
  - apply slice_to_length.
  - done.
Qed.




(** X16.  A search that answers counts itself and writes nothing else: the
    state file holds the state it read with [totalSearches] one higher, the
    WAL, the session, the queue and the other counters as they were; the
    queue file, the markdown log, the graph and the vector store are
    untouched. *)
Theorem search_counts_itself env args w r w' :
  cmd_search env args w = (Ok (Found r), w') →
  state_file w' = Some (count_search (current_state w)) ∧
  queue_file w' = queue_file w ∧ markdown w' = markdown w ∧
  graph w' = graph w ∧ chroma w' = chroma w.
Proof.
  intros H.
  pose proof (run_preserved queue_file _ _ _ _
                (cmd_search_preserves env queue_file args ltac:(ign) ltac:(ign)
                   ltac:(ign)) H) as Hq.
  pose proof (run_preserved markdown _ _ _ _
                (cmd_search_preserves env markdown args ltac:(ign) ltac:(ign)
                   ltac:(ign)) H) as Hm.
  pose proof (run_preserved graph _ _ _ _
                (cmd_search_preserves env graph args ltac:(ign) ltac:(ign)
                   ltac:(ign)) H) as Hg.
  pose proof (run_preserved chroma _ _ _ _
                (cmd_search_preserves env chroma args ltac:(ign) ltac:(ign)
                   ltac:(ign)) H) as Hc.
  repeat (split; [| done]).
  apply cmd_search_Found in H
    as (query & neo & found & chroma_results & w1 & w2 & w3
        & _ & Hneo & Hfound & Hfilter & _ & ->).
  simpl. do 2 f_equal. unfold current_state. f_equal.
  assert (Hs2 : state_file w2 = state_file w).
  { rewrite (run_preserved state_file _ _ _ _
               (chroma_search_preserves env state_file query ltac:(ign)) Hfound).
    apply (run_preserved state_file _ _ _ _
             (neo4j_search_preserves env state_file query ltac:(ign) ltac:(ign)) Hneo). }
  destruct Hfilter as [(_ & _ & ->)|(active & _ & Hact & _)]; [done |].
  rewrite <- Hs2.
  apply (run_preserved state_file _ _ _ _
           (neo4j_filter_active_ids_preserves env state_file _ ltac:(ign) ltac:(ign))
           Hact).
Qed.

(** * Replaying the write-ahead log *)

Lemma append_block_true env path memory w w' :
  append_block env path memory w = (Ok true, w') → (path, memory) ∈ markdown w'.
Proof.
  unfold append_block. rewrite (bind_run_Ok (tick _) _ w _ _ eq_refl).
  destruct (append_ok_at env (length (trace w))); [| discriminate].
  intros [= <-]. simpl. apply elem_of_app. right. by apply list_elem_of_singleton.
Qed.

Lemma markdown_store_true env memory w w' :
  markdown_store env memory w = (Ok true, w') →
  ∃ path, (path, memory) ∈ markdown w'.
Proof.
  unfold markdown_store. intros H.
  inv_bind H as today w1 H1. inv_bind H as now w2 H2. inv_bind H as ok w3 H3.
  destruct ok; [| discriminate]. simpl in H. apply append_block_true in H3.
  destruct (truthy (m_project memory)) as [p|].
  - apply append_block_true in H. by eexists.
  - injection H as <-. by eexists.
Qed.

Lemma stored_id_grows w w' id : stores_grow w w' → stored_id w id → stored_id w' id.
Proof.
  intros ([Hnodes _] & [l Hmd] & _) [(path & m & Hin & Hid)|[n Hn]].
  - left. exists path, m. split; [| done]. rewrite Hmd. apply elem_of_app. by left.
  - right. destruct (Hnodes id n Hn) as (n' & Hn' & _). by exists n'.
Qed.

Lemma wal_flush_run env memory_id w :
  ∃ w', wal_flush env memory_id w = (Ok tt, w') ∧
        pending (wal (current_state w'))
        = List.filter (λ m, negb (String.eqb (m_id m) memory_id))
            (pending (wal (current_state w))) ∧
        session (current_state w') = session (current_state w) ∧
        queue (current_state w') = queue (current_state w) ∧
        stats (current_state w') = stats (current_state w) ∧
        markdown w' = markdown w ∧ graph w' = graph w ∧ chroma w' = chroma w ∧
        queue_file w' = queue_file w.
Proof. exists (wal_flush env memory_id w).2. split; [reflexivity |]. by repeat split. Qed.

Lemma replay_total env pending recovered : total (replay env pending recovered).
Proof.
  pose proof (markdown_store_total env). pose proof (neo4j_store_total env).
  pose proof (wal_flush_total env).
  revert recovered. induction pending as [|m l IH]; intros recovered; simpl; total.
Qed.

(** One round of the replay loop. *)
Lemma replay_round env memory w :
  ∃ md_ok neo_ok w1 w2,
    markdown_store env memory w = (Ok md_ok, w1) ∧
    neo4j_store env memory w1 = (Ok neo_ok, w2) ∧
    state_file w2 = state_file w ∧ stores_grow w w2 ∧
    (md_ok || neo_ok = true → stored_id w2 (m_id memory)).
Proof.
  destruct (markdown_store_total env memory w) as (md_ok & w1 & Hmd).
  destruct (neo4j_store_total env memory w1) as (neo_ok & w2 & Hneo).
  exists md_ok, neo_ok, w1, w2. split; [done |]. split; [done |].
  pose proof (markdown_store_grows env memory w) as Hg1. rewrite Hmd in Hg1.
  pose proof (neo4j_store_grows env memory w1) as Hg2. rewrite Hneo in Hg2.
  simpl in *. split; [| split; [by etrans |]].
  - rewrite (run_preserved state_file _ _ _ _
               (neo4j_store_preserves env state_file memory ltac:(ign) ltac:(ign)
                  ltac:(ign)) Hneo).
    apply (run_preserved state_file _ _ _ _
             (markdown_store_preserves env state_file memory ltac:(ign) ltac:(ign))
             Hmd).
  - intros Hok. destruct neo_ok.
    + right. rewrite (neo4j_store_true _ _ _ _ Hneo).
      destruct (store_steps_facts memory (graph w1)) as [(n & Hn & _) _]. by exists n.
    + rewrite orb_false_r in Hok. subst md_ok.
      apply markdown_store_true in Hmd as [path Hin].
      eapply stored_id_grows; [exact Hg2 |]. left. by exists path, memory.
Qed.

Lemma current_state_same w w' : state_file w' = state_file w → current_state w' = current_state w.
Proof. unfold current_state. by intros ->. Qed.

Lemma replay_keeps env l recovered w n w' :
  replay env l recovered w = (Ok n, w') →
  n ≤ recovered + length l ∧
  ∀ m, m ∈ pending (wal (current_state w)) ∨ stored_id w (m_id m) →
       m ∈ pending (wal (current_state w')) ∨ stored_id w' (m_id m).
Proof.
  revert recovered w. induction l as [|x l IH]; intros recovered w; simpl.
  { intros [= <- <-]. split; [lia | done]. }
  destruct (replay_round env x w) as (md_ok & neo_ok & w1 & w2 & Hmd & Hneo & Hst & Hg & Hok).
  rewrite (bind_run_Ok _ _ _ _ _ Hmd), (bind_run_Ok _ _ _ _ _ Hneo).
  apply current_state_same in Hst.
  destruct (md_ok || neo_ok).
  - destruct (wal_flush_run env (m_id x) w2)
      as (w3 & Hflush & Hp & _ & _ & _ & Hm3 & Hg3 & Hc3 & _).
    rewrite (bind_run_Ok _ _ _ _ _ Hflush). intros H.
    apply IH in H as [Hn Hkeep]. split; [lia |].
    assert (Hg23 : stores_grow w2 w3) by (by apply stores_grow_same).
    intros m Hm. apply Hkeep. destruct Hm as [Hm|Hm].
    + destruct (decide (m_id m = m_id x)) as [Heq|Hne].
      * right. rewrite Heq. eapply stored_id_grows; [exact Hg23 | by apply Hok].
      * left. rewrite Hp, Hst. apply elem_of_List_filter. split; [done |].
        by apply negb_true_iff, String.eqb_neq.
    + right. eapply stored_id_grows; [exact Hg23 |]. by eapply stored_id_grows.
  - intros H. apply IH in H as [Hn Hkeep]. split; [lia |].
    intros m Hm. apply Hkeep. destruct Hm as [Hm|Hm].
    + left. by rewrite Hst.
    + right. by eapply stored_id_grows.
Qed.

(** X17.  Replaying the WAL loses nothing.  The replay of [cmd_sync_start]
    and [cmd_pre_compaction_flush] always completes; it recovers at most as
    many memories as were pending; and every memory that was pending is
    afterwards still pending or has, under its id, a block in the markdown
    log or a node in the graph. *)
Theorem replay_loses_nothing env w :
  ∃ recovered w',
    wal_replay env w = (Ok recovered, w') ∧
    recovered ≤ length (pending (wal (current_state w))) ∧
    ∀ m, m ∈ pending (wal (current_state w)) →
         m ∈ pending (wal (current_state w')) ∨ stored_id w' (m_id m).
Proof.
  unfold wal_replay, wal_recover.
  rewrite (bind_run_Ok _ _ w _ w (bind_run_Ok load_state _ w _ w eq_refl)).
  destruct (replay_total env (pending (wal (default default_state (state_file w)))) 0 w)
    as (n & w' & Hrun).
  exists n, w'. split; [done |].
  apply replay_keeps in Hrun as [Hn Hkeep]. split; [done |].
  intros m Hm. apply Hkeep. by left.
Qed.






(** * What a remember leaves behind *)

Lemma wal_write_run memory w :
  ∃ w', wal_write memory w = (Ok tt, w') ∧
        pending (wal (current_state w')) = pending (wal (current_state w)) ++ [memory] ∧
        session (current_state w') = session (current_state w) ∧
        queue (current_state w') = queue (current_state w) ∧
        stats (current_state w') = stats (current_state w) ∧
        markdown w' = markdown w ∧ graph w' = graph w ∧ chroma w' = chroma w ∧
        queue_file w' = queue_file w.
Proof. exists (wal_write memory w).2. split; [reflexivity |]. by repeat split. Qed.

(** The run of [store_memory], layer by layer. *)
Lemma store_memory_run env memory w out w' :
  store_memory env memory w = (Ok (Stored out), w') →
  ∃ w1 w2 w3,
    o_id out = m_id memory ∧
    wal_write memory w = (Ok tt, w1) ∧
    markdown_store env memory w1 = (Ok (l_markdown (o_layers out)), w2) ∧
    neo4j_store env memory w2 = (Ok (l_neo4j (o_layers out)), w3) ∧
    markdown w' = markdown w2 ∧ graph w' = graph w3 ∧
    totalMemories (stats (current_state w'))
      = (totalMemories (stats (current_state w)) + 1)%Z ∧
    totalRecalls (stats (current_state w')) = totalRecalls (stats (current_state w)) ∧
    totalSearches (stats (current_state w')) = totalSearches (stats (current_state w)) ∧
    is_Some (lastMemoryAt (stats (current_state w'))) ∧
    session (current_state w') = session (current_state w) ∧
    queue (current_state w') = queue (current_state w).
Proof.
  unfold store_memory. intros Hrun.
  destruct (wal_write_run memory w) as (w1 & Hwal & _ & Hs1 & Hq1 & Ht1 & _).
  rewrite (bind_run_Ok _ _ _ _ _ Hwal) in Hrun.
  inv_bind Hrun as md_ok w2 Hmd. inv_bind Hrun as neo_ok w3 Hneo.
  inv_bind Hrun as vec w4 Hvec. inv_bind Hrun as u2 w5 Hflush.
  inv_bind Hrun as st w6 Hst. injection Hst as <- <-.
  inv_bind Hrun as now w7 Hnow. injection Hnow as <- <-.
  inv_bind Hrun as u3 w8 Hsave. injection Hsave as _ <-.
  injection Hrun as <- <-. simpl.
  exists w1, w2, w3.
  assert (Hst4 : current_state w4 = current_state w1).
  { apply current_state_same.
    rewrite (run_preserved state_file _ _ _ _ (vector_layer_preserves env state_file memory
       ltac:(ign) ltac:(ign) ltac:(ign)) Hvec).
    rewrite (run_preserved state_file _ _ _ _ (neo4j_store_preserves env state_file memory
       ltac:(ign) ltac:(ign) ltac:(ign)) Hneo).
    by rewrite (run_preserved state_file _ _ _ _ (markdown_store_preserves env state_file
       memory ltac:(ign) ltac:(ign)) Hmd). }
  assert (H5 : session (current_state w5) = session (current_state w4) ∧
               queue (current_state w5) = queue (current_state w4) ∧
               stats (current_state w5) = stats (current_state w4) ∧
               markdown w5 = markdown w4 ∧ graph w5 = graph w4).
  { destruct (md_ok || neo_ok).
    - destruct (wal_flush_run env (m_id memory) w4)
        as (w5' & Hf & _ & ? & ? & ? & ? & ? & _).
      rewrite Hf in Hflush. by simplify_eq.
    - unfold mret, M_ret in Hflush. by simplify_eq. }
  destruct H5 as (Hs5 & Hq5 & Ht5 & Hm5 & Hg5).
  fold (current_state w5). rewrite Ht5, Hs5, Hq5, Hst4, Hs1, Hq1, Ht1, Hm5, Hg5.
  repeat (split; [done |]). split; [| split; [| by repeat split]].
  - rewrite (run_preserved markdown _ _ _ _ (vector_layer_preserves env markdown memory
       ltac:(ign) ltac:(ign) ltac:(ign)) Hvec).
    by rewrite (run_preserved markdown _ _ _ _ (neo4j_store_preserves env markdown memory
       ltac:(ign) ltac:(ign) ltac:(ign)) Hneo).
  - by rewrite (run_preserved graph _ _ _ _ (vector_layer_preserves env graph memory
       ltac:(ign) ltac:(ign) ltac:(ign)) Hvec).
Qed.

(** A remember that stores ran [store_memory] on a memory with the content
    of the call, in a world whose files and stores are those of the call. *)
Lemma cmd_remember_Stored env args w out w' :
  cmd_remember env args w = (Ok (Stored out), w') →
  ∃ memory w0,
    m_content memory = a_content args ∧
    store_memory env memory w0 = (Ok (Stored out), w') ∧
    state_file w0 = state_file w ∧ markdown w0 = markdown w ∧
    graph w0 = graph w.
Proof.
  unfold cmd_remember. destruct (String.eqb (a_content args) ""); [discriminate |].
  cbv zeta. intros H.
  inv_bind H as state w1 H1. injection H1 as <- <-.
  inv_bind H as id w2 H2. inv_bind H2 as t wt Ht. injection Ht as <- <-.
  injection H2 as <- <-.
  inv_bind H as created w3 H3. injection H3 as <- <-.
  inv_bind H as updated w4 H4. injection H4 as <- <-.
  inv_bind H as dup w5 Hdup.
  assert (Hframe : state_file w5 = state_file w ∧ markdown w5 = markdown w ∧
                   graph w5 = graph w).
  { rewrite (run_preserved state_file _ _ _ _
               (check_duplicates_preserves env state_file _ _ _ ltac:(ign) ltac:(ign))
               Hdup).
    rewrite (run_preserved markdown _ _ _ _
               (check_duplicates_preserves env markdown _ _ _ ltac:(ign) ltac:(ign))
               Hdup).
    by rewrite (run_preserved graph _ _ _ _
               (check_duplicates_preserves env graph _ _ _ ltac:(ign) ltac:(ign))
               Hdup). }
  destruct dup as [|e s|e s]; [| discriminate |];
    match type of H with
    | context [wal_write ?m] => exists m, w5
    end; (split; [reflexivity |]); (split; [exact H | exact Hframe]).
Qed.

(** X19.  The layers a remember reports are truthful.  When the outcome
    says markdown, the memory has its block in the markdown log; when it
    says the graph, the graph holds the node of the memory with its
    properties and relationships; and when it says neither, the memory is
    still in the pending list of the WAL. *)
Theorem remember_layers_truthful env args w out w' :
  cmd_remember env args w = (Ok (Stored out), w') →
  ∃ memory,
    m_id memory = o_id out ∧ m_content memory = a_content args ∧
    (l_markdown (o_layers out) = true → ∃ path, (path, memory) ∈ markdown w') ∧
    (l_neo4j (o_layers out) = true →
       (∃ n, memories (graph w') !! o_id out = Some n ∧ node_of memory n) ∧
       ∀ e, e ∈ edges_of memory → e ∈ edges (graph w')) ∧
    (l_markdown (o_layers out) = false → l_neo4j (o_layers out) = false →
       memory ∈ pending (wal (current_state w'))).
Proof.
  intros H. apply cmd_remember_Stored in H as (memory & w0 & Hc & Hrun & _).
  exists memory.
  destruct (store_memory_run env memory w0 out w' Hrun)
    as (w1 & w2 & w3 & Hid & Hwal & Hmd & Hneo & Hm' & Hg' & _).
  split; [done |]. split; [done |]. split; [| split].
  - intros Hok. rewrite Hok in Hmd. rewrite Hm'. by eapply markdown_store_true.
  - intros Hok. rewrite Hok in Hneo.
    rewrite Hg', Hid, (neo4j_store_true _ _ _ _ Hneo).
    destruct (store_steps_facts memory (graph w2)) as (Hn & He & _). done.
  - intros Hmd_no Hneo_no.
    destruct (store_memory_wal env memory w0 out w' Hrun)
      as (state' & _ & _ & _ & _ & _ & Hs' & _ & _ & _ & _ & Hboth).
    unfold current_state. rewrite Hs'. by apply Hboth.
Qed.

(** X20.  A remember that stores counts one memory: in the state it leaves,
    [totalMemories] is one higher than in the state it found and
    [lastMemoryAt] is stamped, the two other counters, the session and the
    queue bookkeeping are as they were. *)
Theorem remember_counts_memory env args w out w' :
  cmd_remember env args w = (Ok (Stored out), w') →
  totalMemories (stats (current_state w'))
    = (totalMemories (stats (current_state w)) + 1)%Z ∧
  totalRecalls (stats (current_state w')) = totalRecalls (stats (current_state w)) ∧
  totalSearches (stats (current_state w')) = totalSearches (stats (current_state w)) ∧
  is_Some (lastMemoryAt (stats (current_state w'))) ∧
  session (current_state w') = session (current_state w) ∧
  queue (current_state w') = queue (current_state w).
Proof.
  intros H. apply cmd_remember_Stored in H as (memory & w0 & _ & Hrun & Hs0 & _).
  destruct (store_memory_run env memory w0 out w' Hrun)
    as (w1 & w2 & w3 & _ & _ & _ & _ & _ & _ & Hfacts).
  by rewrite <- (current_state_same _ _ Hs0).
Qed.

Lemma filter_fresh_id (id : string) (l : list Memory) :
  id ∉ m_id <$> l →
  List.filter (λ m, negb (String.eqb (m_id m) id)) l = l.
Proof.
  induction l as [|m l IH]; simpl; [done |].
  rewrite not_elem_of_cons. intros [Hne Hfresh].
  assert (Hneq : String.eqb (m_id m) id = false).
  { apply String.eqb_neq. intros Heq. by apply Hne. }
  rewrite Hneq. simpl. by rewrite IH.
Qed.

(** X21.  Writing a memory to the WAL and flushing its id is a round trip:
    when no pending entry has the id already, the pending list is afterwards
    what it was before, and so are the session, the queue bookkeeping and
    the counters. *)
Theorem wal_write_flush_round_trip env memory w :
  m_id memory ∉ m_id <$> pending (wal (current_state w)) →
  ∃ w1 w2,
    wal_write memory w = (Ok tt, w1) ∧
    wal_flush env (m_id memory) w1 = (Ok tt, w2) ∧
    memory ∈ pending (wal (current_state w1)) ∧
    pending (wal (current_state w2)) = pending (wal (current_state w)) ∧
    session (current_state w2) = session (current_state w) ∧
    queue (current_state w2) = queue (current_state w) ∧
    stats (current_state w2) = stats (current_state w).
Proof.
  intros Hfresh.
  destruct (wal_write_run memory w) as (w1 & Hw & Hp1 & Hs1 & Hq1 & Ht1 & _).
  destruct (wal_flush_run env (m_id memory) w1) as (w2 & Hf & Hp2 & Hs2 & Hq2 & Ht2 & _).
  exists w1, w2. split; [done |]. split; [done |]. split.
  { rewrite Hp1. apply elem_of_app. right. by apply list_elem_of_singleton. }
  rewrite Hs2, Hq2, Ht2, Hs1, Hq1, Ht1, Hp2, Hp1. split; [| done].
  rewrite List.filter_app. simpl. rewrite String.eqb_refl. simpl. rewrite app_nil_r.
  by apply filter_fresh_id.
Qed.

(** * Listing *)

Lemma upper_char_letter c : is_upper (upper_char c) = true → is_letter c = true.
Proof.
  unfold upper_char, is_letter. destruct (is_az c); [done |]. by intros ->.
Qed.

Lemma upper_letters s : all_chars is_upper (upper s) = true → all_chars is_letter s = true.
Proof.
  induction s as [|c s IH]; simpl; [done |].
  rewrite !andb_true_iff. intros [Hc Hs]. split; [by apply upper_char_letter | by apply IH].
Qed.

Lemma letters_safe s : all_chars is_letter s = true → safe_clause s.
Proof.
  apply all_chars_impl. intros c. unfold is_letter, clause_char.
  intros ->. done.
Qed.

Lemma checked_sort_by_safe args : safe_clause (checked_sort_by args).
Proof.
  unfold checked_sort_by. cbv zeta.
  destruct (mem (default "created" (ls_sortBy args)) allowed_sorts) eqn:Hmem; [| done].
  apply mem_elem_of in Hmem. unfold allowed_sorts in Hmem.
  rewrite !elem_of_cons, elem_of_nil in Hmem.
  destruct Hmem as [-> | [-> | [-> | [-> | []]]]]; done.
Qed.

Lemma checked_sort_order_safe args : safe_clause (checked_sort_order args).
Proof.
  unfold checked_sort_order. cbv zeta.
  destruct (mem (upper (default "DESC" (ls_sortOrder args))) ["ASC"; "DESC"]) eqn:Hmem;
    [| done].
  apply mem_elem_of in Hmem. rewrite !elem_of_cons, elem_of_nil in Hmem.
  apply letters_safe, upper_letters.
  destruct Hmem as [-> | [-> | []]]; done.
Qed.

Lemma safe_clause_app a b : safe_clause a → safe_clause b → safe_clause (a +:+ b).
Proof. unfold safe_clause. intros Ha Hb. by rewrite all_chars_app, Ha, Hb. Qed.

Lemma order_clause_safe args : safe_clause (order_clause args).
Proof.
  unfold order_clause. repeat apply safe_clause_app; try done.
  - apply checked_sort_by_safe.
  - apply checked_sort_order_safe.
Qed.

(** X22.  No text of the caller reaches the query of a listing unchecked:
    whatever [sortBy] and [sortOrder] are, the [ORDER BY] clause the query
    is built with consists of letters, spaces and dots only.  So the
    listing is the same against any two graphs that answer alike on such
    clauses. *)
Theorem cmd_list_sends_safe_clause env count_at page_at page_at' args :
  (∀ t clause skip size,
     safe_clause clause → page_at t clause skip size = page_at' t clause skip size) →
  safe_clause (order_clause args) ∧
  ∀ w, cmd_list env count_at page_at args w = cmd_list env count_at page_at' args w.
Proof.
  intros Hagree. split; [apply order_clause_safe |].
  assert (Hq : ∀ t skip size,
            page_at t (order_clause args) skip size
            = page_at' t (order_clause args) skip size).
  { intros. apply Hagree, order_clause_safe. }
  intros w. unfold cmd_list. cbv zeta.
  destruct (get_driver_total env w) as (drv & w0 & Hd).
  rewrite !(bind_run_Ok _ _ _ _ _ Hd). destruct drv; simpl; [| done].
  unfold try_except. rewrite !(bind_run_Ok (tick _) _ w0 _ _ eq_refl).
  destruct (count_at (length (trace w0))); [| done].
  rewrite !(bind_run_Ok (tick _) _ _ _ _ eq_refl). by rewrite Hq.
Qed.

(** X23.  The pages of a listing cover the total and no more: when a
    listing answers, its page and page size are those of the call (1 and 20
    by default); for a positive page size and a total that is not negative,
    [totalPages] is the least number of pages that hold [total] memories;
    for a page size that is not positive it is 0. *)
Theorem cmd_list_pages env count_at page_at args w r w' :
  cmd_list env count_at page_at args w = (Ok (Listed r), w') →
  lr_page r = default 1%Z (ls_page args) ∧
  lr_pageSize r = default 20%Z (ls_pageSize args) ∧
  ((0 < lr_pageSize r)%Z → (0 ≤ lr_total r)%Z →
     (lr_total r ≤ lr_totalPages r * lr_pageSize r)%Z ∧
     ((lr_totalPages r - 1) * lr_pageSize r < lr_total r)%Z) ∧
  ((lr_pageSize r ≤ 0)%Z → lr_totalPages r = 0%Z).
Proof.
  unfold cmd_list. cbv zeta. intros H.
  inv_bind H as drv w0 Hd. destruct drv; [| discriminate]. simpl in H.
  unfold try_except in H.
  rewrite (bind_run_Ok (tick _) _ w0 _ _ eq_refl) in H.
  destruct (count_at (length (trace w0))) as [total|]; [| discriminate].
  rewrite (bind_run_Ok (tick _) _ _ _ _ eq_refl) in H.
  destruct (page_at _ _ _ _) as [records|]; [| discriminate].
  injection H as <- _. simpl. split; [done |]. split; [done |].
  unfold total_pages. set (size := default 20%Z (ls_pageSize args)). split.
  - intros Hpos Htotal. apply Z.ltb_lt in Hpos as Hb. rewrite Hb.
    pose proof (Z.div_mod (total + size - 1) size ltac:(lia)) as Hdm.
    pose proof (Z.mod_pos_bound (total + size - 1) size Hpos) as Hmod.
    nia.
  - intros Hle. destruct (Z.ltb_spec 0 size); [lia | done].
Qed.

(** * The extractor and the classifier *)

(** The merging loops keep the result free of duplicates. *)
Lemma merge_step_fold keep l st :
  NoDup st.2 → (∀ x, x ∈ st.1 ↔ x ∈ st.2) →
  let st' := fold_left (merge_step keep) l st in
  NoDup st'.2 ∧ (∀ x, x ∈ st'.1 ↔ x ∈ st'.2).
Proof.
  revert st. induction l as [|e l IH]; intros st Hnd Hseen; simpl; [done |].
  apply IH; unfold merge_step; destruct (keep e && negb (mem e st.1)) eqn:Hc;
    simpl; try done.
  - apply andb_true_iff in Hc as [_ Hc]. apply negb_true_iff in Hc.
    apply NoDup_app. split; [done |]. split; [| apply NoDup_singleton].
    intros x Hx Hx'. apply list_elem_of_singleton in Hx' as ->.
    apply Hseen, mem_elem_of in Hx. by rewrite Hx in Hc.
  - intros x. rewrite elem_of_cons, elem_of_app, list_elem_of_singleton, Hseen. tauto.
Qed.

Section ExtractorShape.

Variable dumps : jdict → string.
Variable iter : list string → list string.
Hypothesis iter_sound : ∀ l x, x ∈ iter l → x ∈ l.

(** X24.  The entities [extract_entities] returns are distinct, and each
    has at least three characters, whether it comes from a topic key of a
    structured input or from the text. *)
Theorem extract_entities_distinct c :
  NoDup (extract_entities dumps iter c) ∧
  Forall (λ e, 3 ≤ String.length e) (extract_entities dumps iter c).
Proof.
  split.
  - unfold extract_entities. cbv zeta.
    eapply sublist_NoDup; [| apply sublist_take].
    destruct (merge_step_fold keep_priority (priority_entities c) ([], []))
      as [Hnd1 Hseen1]; [apply NoDup_nil_2 | done |].
    by destruct (merge_step_fold (λ _, true) (sorted_generic dumps iter c) _ Hnd1 Hseen1).
  - apply Forall_forall. intros e He. unfold extract_entities in He. cbv zeta in He.
    apply elem_of_take in He as (i & He & _). apply list_elem_of_lookup_2 in He.
    apply elem_of_merge in He as [He | [He _]].
    + apply elem_of_merge in He as [He | [_ Hk]]; [by apply elem_of_nil in He |].
      unfold keep_priority in Hk. apply andb_true_iff in Hk as [_ Hk].
      by apply Nat.leb_le.
    + apply (sorted_generic_elem dumps iter iter_sound) in He as [_ Hk].
      unfold keep_generic in Hk. apply andb_true_iff in Hk as [Hk _].
      by apply Nat.leb_le.
Qed.

End ExtractorShape.

Lemma first_label_default text table :
  "info" ∉ table.*1 →
  first_label text table = "info"
  ↔ ∀ label keywords w, (label, keywords) ∈ table → w ∈ keywords → str_in w text = false.
Proof.
  induction table as [|[label keywords] table IH]; simpl.
  { intros _. split; [| done]. intros _ l k w Hin. by apply elem_of_nil in Hin. }
  rewrite not_elem_of_cons. intros [Hne Hrest]. simpl in Hne.
  destruct (existsb (λ w, str_in w text) keywords) eqn:Hex.
  - split; [intros ->; done |]. intros Hnone. exfalso.
    apply existsb_exists in Hex as (w & Hin & Hw).
    rewrite (Hnone label keywords w) in Hw; [done | by left | by apply list_elem_of_In].
  - rewrite (IH Hrest). split.
    + intros Hnone l k w Hin Hw. apply elem_of_cons in Hin as [[= -> ->]|Hin].
      * apply not_true_is_false. intros Htrue.
        assert (existsb (λ w, str_in w text) keywords = true); [| congruence].
        apply existsb_exists. exists w. split; [by apply list_elem_of_In | done].
      * by eapply Hnone.
    + intros Hnone l k w Hin Hw. eapply Hnone; [by right | done].
Qed.

(** X25.  A plain text is classified as info exactly when none of the
    keywords of the eight categories occurs in its lowercased form; and a
    mapping with a string under its type key is classified by the first 20
    characters of that string. *)
Theorem classify_memory_default dumps text :
  (classify_memory dumps (Plain text) = "info"
   ↔ ∀ label keywords w,
       (label, keywords) ∈ classifiers → w ∈ keywords → str_in w (lower text) = false) ∧
  ∀ d t, dict_get d "type" = Some (JStr t) →
         classify_memory dumps (Structured d) = str_take 20 t.
Proof.
  split.
  - unfold classify_memory. apply first_label_default.
    unfold classifiers. simpl. rewrite !not_elem_of_cons, elem_of_nil.
    repeat split; try discriminate. tauto.
  - intros d t Ht. unfold classify_memory. by rewrite Ht.
Qed.

(** * Escaping *)

(** X26.  Escaping loses nothing: two different texts have different
    escaped forms, so a query and its escaped form never stand for another
    query. *)
Theorem lucene_escape_injective s t :
  s ≠ t → lucene_escape s ≠ lucene_escape t.
Proof.
  assert (Hback : lucene_special "\" = true) by reflexivity.
  intros Hne Heq. apply Hne. clear Hne. revert t Heq.
  induction s as [|c s IH]; intros [|d t]; simpl.
  - done.
  - destruct (lucene_special d); discriminate.
  - destruct (lucene_special c); discriminate.
  - destruct (lucene_special c) eqn:Hc, (lucene_special d) eqn:Hd.
    + intros [= -> H]. f_equal. by apply IH.
    + intros [= <- H]. congruence.
    + intros [= -> H]. congruence.
    + intros [= -> H]. f_equal. by apply IH.
Qed.

(** * The further statements at sample inputs *)

(** A store of a memory with an entity, a tag and a project. *)
Lemma neo4j_store_round_trip_witness :
  let env := sample_env false "secret" true false None in
  let w := world_with_memory in
  let w' := (neo4j_store env linked_memory w).2 in
  neo4j_store env linked_memory w = (Ok true, w') ∧
  (∃ n, memories (graph w') !! m_id linked_memory = Some n ∧ node_of linked_memory n) ∧
  (∀ e, e ∈ edges_of linked_memory → e ∈ edges (graph w')).
Proof.
  intros env w w'.
  assert (H1 : neo4j_store env linked_memory w = (Ok true, w'))
    by (vm_compute; reflexivity).
  split; [assumption |].
  exact (neo4j_store_round_trip env linked_memory w w' H1).
Defined.

(** The same store, twice. *)
Lemma neo4j_store_replay_witness :
  let env := sample_env false "secret" true false None in
  let w := world_with_memory in
  let w1 := (neo4j_store env linked_memory w).2 in
  let w2 := (neo4j_store env linked_memory w1).2 in
  neo4j_store env linked_memory w = (Ok true, w1) ∧
  graph w1 = graph w1 ∧
  neo4j_store env linked_memory w1 = (Ok true, w2) ∧
  graph w2 = graph w1.
Proof.
  intros env w w1 w2.
  assert (H1 : neo4j_store env linked_memory w = (Ok true, w1))
    by (vm_compute; reflexivity).
  assert (H2 : graph w1 = graph w1) by reflexivity.
  assert (H3 : neo4j_store env linked_memory w1 = (Ok true, w2))
    by (vm_compute; reflexivity).
  repeat (split; [assumption |]).
  exact (neo4j_store_replay env linked_memory w w1 w1 w2 H1 H2 H3).
Defined.

(** Forgetting the memory [m-old] with a reason. *)
Lemma forget_by_id_touches_one_witness :
  let env := sample_env false "secret" true false None in
  let args := {| f_id := Some "m-old"; f_query := None; f_reason := Some "obsolete" |} in
  let w := world_with_memory in
  let r := cmd_forget env args w in
  truthy (f_id args) = Some "m-old" ∧
  (∀ id', id' ≠ "m-old" → memories (graph r.2) !! id' = memories (graph w) !! id') ∧
  edges (graph r.2) = edges (graph w) ∧
  (∃ ok, r.1 = Ok (Forgot "m-old" ok (f_reason args)) ∧
     (ok = true → ∀ n, memories (graph w) !! "m-old" = Some n →
        ∃ n', memories (graph r.2) !! "m-old" = Some n' ∧
              n_forgotten n' = Some true ∧ n_content n' = None ∧
              n_summary n' = None ∧ is_Some (n_forgottenAt n') ∧
              n_deleteReason n' = f_reason args)).
Proof.
  intros env args w r.
  assert (H1 : truthy (f_id args) = Some "m-old") by reflexivity.
  split; [assumption |].
  exact (forget_by_id_touches_one env args "m-old" w H1).
Defined.

(** Forgetting an id that no memory has. *)
Lemma forget_unknown_id_reports_true_witness :
  let env := sample_env false "secret" true false None in
  let args := {| f_id := Some "m-none"; f_query := None; f_reason := None |} in
  let w := world_with_memory in
  truthy (f_id args) = Some "m-none" ∧
  memories (graph w) !! "m-none" = None ∧
  driver w = true ∧
  cypher_ok_at env (S (length (trace w))) = true ∧
  ∃ w', cmd_forget env args w = (Ok (Forgot "m-none" true (f_reason args)), w') ∧
        graph w' = graph w.
Proof.
  intros env args w.
  assert (H1 : truthy (f_id args) = Some "m-none") by reflexivity.
  assert (H2 : memories (graph w) !! "m-none" = None) by (vm_compute; reflexivity).
  assert (H3 : driver w = true) by reflexivity.
  assert (H4 : cypher_ok_at env (S (length (trace w))) = true) by reflexivity.
  repeat (split; [assumption |]).
  exact (forget_unknown_id_reports_true env args "m-none" w H1 H2 H3 H4).
Defined.

(** A maintenance with the default threshold on a memory of importance 5. *)
Lemma maintain_spares_witness :
  let env := sample_env false "secret" true false None in
  let args := {| maxAgeDays := None; minImportance := None |} in
  let w := world_with_important_memory in
  let n := sample_node "2026-01-01T10:00:00+00:00" 5 in
  memories (graph w) !! "m-keep" = Some n ∧
  (importance_below (default 3%Z (minImportance args)) n = false
   ∨ n_forgotten n = Some true) ∧
  memories (graph (cmd_maintain env args w).2) !! "m-keep" = Some n ∧
  edges (graph (cmd_maintain env args w).2) = edges (graph w).
Proof.
  intros env args w n.
  assert (H1 : memories (graph w) !! "m-keep" = Some n) by (vm_compute; reflexivity).
  assert (H2 : importance_below (default 3%Z (minImportance args)) n = false
               ∨ n_forgotten n = Some true) by (left; reflexivity).
  split; [exact H1 |]. split; [exact H2 |].
  exact (maintain_spares env args w "m-keep" n H1 H2).
Defined.

(** An update of the content of a forgotten memory. *)
Lemma evolve_writes_into_tombstone_witness :
  let env := sample_env false "secret" true false None in
  let updates := content_update "The API key moved" in
  let w := world_with_tombstone in
  let w' := (neo4j_evolve env "m-old" updates w).2 in
  let n := forgotten_node "2026-11-02T12:00:00+00:00" (Some "obsolete")
             (sample_node "2026-11-02T10:00:00+00:00" 1) in
  neo4j_evolve env "m-old" updates w = (Ok true, w') ∧
  u_content updates = Some (Some "The API key moved") ∧
  memories (graph w) !! "m-old" = Some n ∧
  n_forgotten n = Some true ∧
  ∃ n', memories (graph w') !! "m-old" = Some n' ∧
        n_forgotten n' = Some true ∧ n_content n' = Some "The API key moved" ∧
        ¬ tombstone n'.
Proof.
  intros env updates w w' n.
  assert (H1 : neo4j_evolve env "m-old" updates w = (Ok true, w'))
    by (vm_compute; reflexivity).
  assert (H2 : u_content updates = Some (Some "The API key moved")) by reflexivity.
  assert (H3 : memories (graph w) !! "m-old" = Some n) by (vm_compute; reflexivity).
  assert (H4 : n_forgotten n = Some true) by reflexivity.
  repeat (split; [assumption |]).
  exact (evolve_writes_into_tombstone env "m-old" updates w w' "The API key moved" n
           H1 H2 H3 H4).
Defined.


(** A drain of a queue of one readable record, with every service up. *)
Lemma drain_accounts_witness :
  let env := reading_env in
  let w := world_with_line line_with_id 0 in
  let r := {| processed := 1; remaining := 0; status := "ok" |} in
  let w' := (drain_queue env w).2 in
  drain_queue env w = (Ok r, w') ∧
  length (chroma w') = length (chroma w) + processed r ∧
  processed r + remaining r ≤ length (queue_lines (default "" (queue_file w))).
Proof.
  intros env w r w'.
  assert (H1 : drain_queue env w = (Ok r, w')) by (vm_compute; reflexivity).
  split; [assumption |].
  exact (drain_accounts env w r w' H1).
Defined.


(** The filter on a known active id and an unknown one. *)
Lemma filter_active_ids_exact_witness :
  let env := sample_env false "secret" true false None in
  let w := world_with_memory in
  let ids := ["m-old"; "m-none"] in
  driver w = true ∧
  cypher_ok_at env (length (trace w)) = true ∧
  ∃ found w',
    neo4j_filter_active_ids env ids w = (Ok found, w') ∧
    graph w' = graph w ∧
    ∀ id, id ∈ found ↔ id ∈ ids ∧ active_in env (length (trace w)) (graph w) id.
Proof.
  intros env w ids.
  assert (H1 : driver w = true) by reflexivity.
  assert (H2 : cypher_ok_at env (length (trace w)) = true) by reflexivity.
  repeat (split; [assumption |]).
  exact (filter_active_ids_exact env ids w H1 H2).
Defined.

(** The filter against a graph that rejects the query. *)
Lemma filter_active_ids_fail_open_witness :
  let env := failing_graph_env in
  let w := world_with_tombstone in
  let ids := ["m-old"] in
  ((driver w = false ∧ NEO4J_PASS env = "")
   ∨ (driver w = true ∧ cypher_ok_at env (length (trace w)) = false)) ∧
  ∃ w', neo4j_filter_active_ids env ids w = (Ok (list_to_set ids), w') ∧
        graph w' = graph w.
Proof.
  intros env w ids.
  assert (H1 : (driver w = false ∧ NEO4J_PASS env = "")
               ∨ (driver w = true ∧ cypher_ok_at env (length (trace w)) = false))
    by (right; split; reflexivity).
  split; [assumption |].
  exact (filter_active_ids_fail_open env ids w H1).
Defined.

(** A search that the vector store answers with the memory of the graph. *)
Lemma search_results_shape_witness :
  let env := sample_env true "secret" true true (Some (["m-old"], Some [0%Q])) in
  let args := search_args "vault" (Some 5%Z) in
  let w := world_with_memory in
  let r := {| sr_results := [chroma_hit "m-old" 1%Q]; sr_count := 1;
              sr_neo4j := 0; sr_chromadb := 1 |} in
  let w' := (cmd_search env args w).2 in
  cmd_search env args w = (Ok (Found r), w') ∧
  NoDup (hit_id <$> sr_results r) ∧
  descending (sr_results r) ∧
  length (sr_results r)
    = (if Z.leb 0 (default 10%Z (q_limit args))
       then Nat.min (Z.to_nat (default 10%Z (q_limit args))) (sr_count r)
       else sr_count r - Z.to_nat (- default 10%Z (q_limit args))) ∧
  sr_count r ≤ sr_neo4j r + sr_chromadb r.
Proof.
  intros env args w r w'.
  assert (H1 : cmd_search env args w = (Ok (Found r), w')) by (vm_compute; reflexivity).
  split; [exact H1 |].
  exact (search_results_shape env args w r w' H1).
Defined.


(** The same search: one more search in the counters. *)
Lemma search_counts_itself_witness :
  let env := sample_env true "secret" true true (Some (["m-old"], Some [0%Q])) in
  let args := search_args "vault" (Some 5%Z) in
  let w := world_with_memory in
  let r := {| sr_results := [chroma_hit "m-old" 1%Q]; sr_count := 1;
              sr_neo4j := 0; sr_chromadb := 1 |} in
  let w' := (cmd_search env args w).2 in
  cmd_search env args w = (Ok (Found r), w') ∧
  state_file w' = Some (count_search (current_state w)) ∧
  queue_file w' = queue_file w ∧ markdown w' = markdown w ∧
  graph w' = graph w ∧ chroma w' = chroma w.
Proof.
  intros env args w r w'.
  assert (H1 : cmd_search env args w = (Ok (Found r), w')) by (vm_compute; reflexivity).
  split; [exact H1 |].
  exact (search_counts_itself env args w r w' H1).
Defined.


(** A remember with the markdown log writable and no graph. *)
Lemma remember_layers_truthful_witness :
  let env := sample_env false "" true false None in
  let args := sample_args "Decided to use Postgres" in
  let w := empty_world in
  let out := {| o_id := "7d9f1c2e"; o_type := "decision"; o_importance := 5;
                o_confidence := (8 # 10)%Q; o_decayDays := None; o_supersedes := None;
                o_entities := take 5 (extract_entities (json_dumps env) (set_iter env)
                                        (Plain "Decided to use Postgres"));
                o_layers := {| l_markdown := true; l_neo4j := false;
                               l_chromadb := false; l_queued := false |} |} in
  let w' := (cmd_remember env args w).2 in
  cmd_remember env args w = (Ok (Stored out), w') ∧
  ∃ memory,
    m_id memory = o_id out ∧ m_content memory = a_content args ∧
    (l_markdown (o_layers out) = true → ∃ path, (path, memory) ∈ markdown w') ∧
    (l_neo4j (o_layers out) = true →
       (∃ n, memories (graph w') !! o_id out = Some n ∧ node_of memory n) ∧
       ∀ e, e ∈ edges_of memory → e ∈ edges (graph w')) ∧
    (l_markdown (o_layers out) = false → l_neo4j (o_layers out) = false →
       memory ∈ pending (wal (current_state w'))).
Proof.
  intros env args w out w'.
  assert (H1 : cmd_remember env args w = (Ok (Stored out), w'))
    by (vm_compute; reflexivity).
  split; [exact H1 |].
  exact (remember_layers_truthful env args w out w' H1).
Defined.

(** The same remember: one more memory in the counters. *)
Lemma remember_counts_memory_witness :
  let env := sample_env false "" true false None in
  let args := sample_args "Decided to use Postgres" in
  let w := empty_world in
  let out := {| o_id := "7d9f1c2e"; o_type := "decision"; o_importance := 5;
                o_confidence := (8 # 10)%Q; o_decayDays := None; o_supersedes := None;
                o_entities := take 5 (extract_entities (json_dumps env) (set_iter env)
                                        (Plain "Decided to use Postgres"));
                o_layers := {| l_markdown := true; l_neo4j := false;
                               l_chromadb := false; l_queued := false |} |} in
  let w' := (cmd_remember env args w).2 in
  cmd_remember env args w = (Ok (Stored out), w') ∧
  totalMemories (stats (current_state w'))
    = (totalMemories (stats (current_state w)) + 1)%Z ∧
  totalRecalls (stats (current_state w')) = totalRecalls (stats (current_state w)) ∧
  totalSearches (stats (current_state w')) = totalSearches (stats (current_state w)) ∧
  is_Some (lastMemoryAt (stats (current_state w'))) ∧
  session (current_state w') = session (current_state w) ∧
  queue (current_state w') = queue (current_state w).
Proof.
  intros env args w out w'.
  assert (H1 : cmd_remember env args w = (Ok (Stored out), w'))
    by (vm_compute; reflexivity).
  split; [exact H1 |].
  exact (remember_counts_memory env args w out w' H1).
Defined.

(** Writing a memory to an empty WAL and flushing it. *)
Lemma wal_write_flush_round_trip_witness :
  let env := sample_env false "" true false None in
  let w := empty_world in
  (m_id linked_memory ∉ m_id <$> pending (wal (current_state w))) ∧
  ∃ w1 w2,
    wal_write linked_memory w = (Ok tt, w1) ∧
    wal_flush env (m_id linked_memory) w1 = (Ok tt, w2) ∧
    linked_memory ∈ pending (wal (current_state w1)) ∧
    pending (wal (current_state w2)) = pending (wal (current_state w)) ∧
    session (current_state w2) = session (current_state w) ∧
    queue (current_state w2) = queue (current_state w) ∧
    stats (current_state w2) = stats (current_state w).
Proof.
  intros env w.
  assert (H1 : m_id linked_memory ∉ m_id <$> pending (wal (current_state w)))
    by (simpl; apply not_elem_of_nil).
  split; [exact H1 |].
  exact (wal_write_flush_round_trip env linked_memory w H1).
Defined.

(** A listing whose sort order tries to close the clause and add one. *)
Lemma cmd_list_sends_safe_clause_witness :
  let env := sample_env false "secret" true false None in
  let args := list_args (Some "importance") (Some "ASC; MATCH (n) DETACH DELETE n") in
  let count_at := λ _ : nat, Some 45%Z in
  let page_at := λ (_ : nat) (_ : string) (_ _ : Z), Some ([] : list Row) in
  (∀ t clause skip size,
     safe_clause clause → page_at t clause skip size = page_at t clause skip size) ∧
  safe_clause (order_clause args) ∧
  ∀ w, cmd_list env count_at page_at args w = cmd_list env count_at page_at args w.
Proof.
  intros env args count_at page_at.
  assert (H1 : ∀ t clause skip size,
            safe_clause clause →
            page_at t clause skip size = page_at t clause skip size) by reflexivity.
  split; [exact H1 |].
  exact (cmd_list_sends_safe_clause env count_at page_at page_at args H1).
Defined.

(** The second page of 45 memories, 20 a page: three pages. *)
Lemma cmd_list_pages_witness :
  let env := sample_env false "secret" true false None in
  let args := list_args None None in
  let count_at := λ _ : nat, Some 45%Z in
  let page_at := λ (_ : nat) (_ : string) (_ _ : Z), Some ([] : list Row) in
  let w := world_with_memory in
  let r := {| lr_results := []; lr_total := 45; lr_page := 2; lr_pageSize := 20;
              lr_totalPages := 3 |} in
  let w' := (cmd_list env count_at page_at args w).2 in
  cmd_list env count_at page_at args w = (Ok (Listed r), w') ∧
  lr_page r = default 1%Z (ls_page args) ∧
  lr_pageSize r = default 20%Z (ls_pageSize args) ∧
  ((0 < lr_pageSize r)%Z → (0 ≤ lr_total r)%Z →
     (lr_total r ≤ lr_totalPages r * lr_pageSize r)%Z ∧
     ((lr_totalPages r - 1) * lr_pageSize r < lr_total r)%Z) ∧
  ((lr_pageSize r ≤ 0)%Z → lr_totalPages r = 0%Z).
Proof.
  intros env args count_at page_at w r w'.
  assert (H1 : cmd_list env count_at page_at args w = (Ok (Listed r), w'))
    by (vm_compute; reflexivity).
  split; [exact H1 |].
  exact (cmd_list_pages env count_at page_at args w r w' H1).
Defined.

(** The entities of a short decision. *)
Lemma extract_entities_distinct_witness :
  (∀ (l : list string) x, x ∈ (λ l, l) l → x ∈ l) ∧
  let c := Plain "Decided to use Postgres" in
  NoDup (extract_entities (λ _, topic_the_json) (λ l, l) c) ∧
  Forall (λ e, 3 ≤ String.length e) (extract_entities (λ _, topic_the_json) (λ l, l) c).
Proof.
  split; [done |].
  apply (extract_entities_distinct (λ _, topic_the_json) (λ l, l)). done.
Defined.

(** A query and the same query escaped by hand. *)
Lemma lucene_escape_injective_witness :
  "a:b" ≠ "a\:b" ∧ lucene_escape "a:b" ≠ lucene_escape "a\:b".
Proof.
  assert (H1 : "a:b" ≠ "a\:b") by discriminate.
  split; [exact H1 |].
  exact (lucene_escape_injective "a:b" "a\:b" H1).
Defined.
